(** * The sequence batch scheduler of the inference server

    A shallow embedding of [src/sequence_batch_scheduler.cc]: the scheduler
    facade ([SequenceBatchScheduler::Create], [Enqueue], [ReleaseBatchSlot],
    [DelayScheduler]), the per-runner [SequenceBatch] ([Enqueue] and one
    iteration of [SchedulerThread]) and the completion closure
    [OnCompleteQueuedPayloads].

    The C++ code runs producers and one worker per batcher in parallel.
    The embedding is sequential: an execution is a list of operations
    ([Op]), each a call of [Enqueue] or one iteration of the loop of a
    worker, run one after the other in any order.  Calls the code makes on
    the outside world (completion functions, the runner, the log, the
    condition variable) are events ([Event]) that the functions return
    next to the new state.  Shared pointers to backlog deques are handles
    into a store, so that the aliasing between [backlog_queues_] and
    [sequence_to_backlog_map_] is explicit.  Verbose and informational log
    lines, the timers of the statistics and the termination flag of the
    worker are left out. *)

From Stdlib Require Import ZArith Lia String.
From stdpp Require Import base option list gmap strings pretty.

Local Open Scope Z_scope.

(** ** Requests, payloads and statuses *)

(** [tensorflow::Status]: an error code (0 is OK, 3 is INVALID_ARGUMENT)
    and a message. *)
Record Status := mkStatus { code : Z; error_message : string }.

Definition Status_OK : Status := mkStatus 0 "".
Definition InvalidArgument (msg : string) : Status := mkStatus 3 msg.
Definition ok (s : Status) : bool := code s =? 0.

(** Modelled from the spec: the flag constants of [InferRequestHeader]
    live in the absent protocol file; the header carries a [flags] bit
    field in which SEQUENCE_START and SEQUENCE_END are two distinct bits. *)
Definition FLAG_SEQUENCE_START : Z := 1.
Definition FLAG_SEQUENCE_END : Z := 2.

Record InferRequestHeader := mkHeader {
  batch_size : Z;        (* uint32 *)
  correlation_id : Z;    (* uint64, 0 means "none" *)
  flags : Z              (* uint32 bit field *)
}.

Definition has_flag (h : InferRequestHeader) (f : Z) : bool :=
  negb (Z.land (flags h) f =? 0).

(** [InferRequestProvider::InputOverride] and the override map, keyed by
    tensor name. *)
Record InputOverride := mkOverride {
  content_ : list Z;     (* bytes *)
  dims_ : list Z;
  datatype_ : Z          (* the DataType enumerator *)
}.

Abbreviation InputOverrideMap := (gmap string InputOverride).

(** A request provider.  [is_null] tells a [NULLInferRequestProvider]
    (built from a cached header, emitting zeroed tensors) from a real one;
    [input_override] is what [SetInputOverride] last stored. *)
Record InferRequestProvider := mkProvider {
  ModelName : string;
  RequestHeader : InferRequestHeader;
  is_null : bool;
  input_override : option InputOverrideMap
}.

Definition SetInputOverride (o : InputOverrideMap) (rp : InferRequestProvider)
  : InferRequestProvider :=
  mkProvider (ModelName rp) (RequestHeader rp) (is_null rp) (Some o).

Definition NULLInferRequestProvider (h : InferRequestHeader)
  : InferRequestProvider :=
  mkProvider "" h true None.

(** [Scheduler::Payload].  Pointers that may be null are options; the
    pointees (statistics objects, response providers, completion
    functions, timers) are named by identifiers. *)
Record Payload := mkPayloadFull {
  queue_timer_ : bool;                   (* unique_ptr<ScopedTimer>, null = false *)
  stats_ : option nat;                   (* shared_ptr<ModelInferStats> *)
  request_provider_ : InferRequestProvider;
  response_provider_ : option nat;
  complete_function_ : option nat;       (* std::function, empty = None *)
  status_ : Status;
  compute_status_ : Status
}.

(** The five-argument constructor used by every [emplace_back]. *)
Definition mkPayload (timer : bool) (stats : option nat)
    (rp : InferRequestProvider) (resp : option nat) (cb : option nat) : Payload :=
  mkPayloadFull timer stats rp resp cb Status_OK Status_OK.

Definition payload_header (p : Payload) : InferRequestHeader :=
  RequestHeader (request_provider_ p).
Definition payload_cid (p : Payload) : Z := correlation_id (payload_header p).
Definition payload_start (p : Payload) : bool :=
  has_flag (payload_header p) FLAG_SEQUENCE_START.
Definition payload_end (p : Payload) : bool :=
  has_flag (payload_header p) FLAG_SEQUENCE_END.

(** What the code does to the outside world. *)
Inductive Event :=
| EvOnComplete (cb : nat) (st : Status)          (* a completion function is called *)
| EvLogWarning (msg : string)
| EvLogError (msg : string)
| EvNotify (batcher_idx : nat)                   (* cv_.notify_one() *)
| EvWait (batcher_idx : nat) (microseconds : Z)  (* cv_.wait_for *)
| EvSetModelExecutionCount (stats : nat) (n : Z)
| EvOnSchedule (batcher_idx : nat) (payloads : list Payload).

(** ** Batch slots and the pool of ready slots *)

Record BatchSlot := mkSlot { batcher_idx_ : nat; slot_ : nat }.

#[global] Instance BatchSlot_eq_dec : EqDecision BatchSlot.
Proof. solve_decision. Defined.

(** The declaration of [ready_batch_slots_] is in the absent header; the
    code uses [push], [top], [pop] and [empty] only.  The container is
    therefore an interface: any policy (stack, priority queue) with these
    laws.  [pool_slots] lists the content. *)
Class ReadyPool (P : Type) := {
  pool_new : P;
  pool_push : BatchSlot → P → P;
  pool_top : P → option BatchSlot;
  pool_pop : P → P;
  pool_slots : P → list BatchSlot;
  pool_new_slots : pool_slots pool_new = [];
  pool_push_slots bs p : pool_slots (pool_push bs p) ≡ₚ bs :: pool_slots p;
  pool_top_None p : pool_top p = None ↔ pool_slots p = [];
  pool_top_pop p bs :
    pool_top p = Some bs → pool_slots p ≡ₚ bs :: pool_slots (pool_pop p)
}.

(** [std::stack]: the policy the examples run with. *)
#[global, refine] Instance stack_pool : ReadyPool (list BatchSlot) := {|
  pool_new := [];
  pool_push bs p := bs :: p;
  pool_top p := head p;
  pool_pop p := tail p;
  pool_slots p := p
|}.
Proof.
  - reflexivity.
  - reflexivity.
  - intros [|x p]; simpl; split; congruence.
  - intros [|x p] bs; simpl; intros [= ->]; reflexivity.
Defined.

(** ** Control tensors *)

(** [GetSequenceControlProperties] is not part of the sources: its result
    for one control is a parameter of [CreateControlTensors]. *)
Record ControlProperties := mkControl {
  tensor_name : string;
  tensor_datatype : Z;
  false_value : Z;   (* int32 *)
  true_value : Z     (* int32 *)
}.

(** The [sizeof(int32_t)] bytes of a value, least significant first. *)
Definition int32_bytes (v : Z) : list Z :=
  (λ i, Z.land (Z.shiftr v (8 * i)) 255) <$> [0; 1; 2; 3].

Definition make_override (dt v : Z) : InputOverride :=
  mkOverride (int32_bytes v) [1] dt.

(** [std::unordered_map::insert] keeps an existing entry. *)
Definition override_insert (k : string) (o : InputOverride)
    (m : InputOverrideMap) : InputOverrideMap :=
  match m !! k with Some _ => m | None => <[k := o]> m end.

Record ControlTensors := mkControlTensors {
  start_input_overrides : InputOverrideMap;
  continue_input_overrides : InputOverrideMap;
  notready_input_overrides : InputOverrideMap
}.

Definition CreateControlTensors (start_ctl ready_ctl : Status + ControlProperties)
  : Status + ControlTensors :=
  match start_ctl with
  | inl e => inl e
  | inr s =>
    let s_false := make_override (tensor_datatype s) (false_value s) in
    let s_true := make_override (tensor_datatype s) (true_value s) in
    let start1 := override_insert (tensor_name s) s_true ∅ in
    let cont1 := override_insert (tensor_name s) s_false ∅ in
    let notready1 := override_insert (tensor_name s) s_false ∅ in
    match ready_ctl with
    | inl e => inl e
    | inr r =>
      let r_false := make_override (tensor_datatype r) (false_value r) in
      let r_true := make_override (tensor_datatype r) (true_value r) in
      inr (mkControlTensors
             (override_insert (tensor_name r) r_true start1)
             (override_insert (tensor_name r) r_true cont1)
             (override_insert (tensor_name r) r_false notready1))
    end
  end.

(** ** The scheduler state *)

(** One [SequenceBatch]: the state of a batcher that its mutex protects.
    [delay_cnt] is the local variable of [SchedulerThread] that survives
    from one iteration to the next.  Slot indices are [nat]; the signed
    [max_active_slot_] is a [Z] (a slot is below the batch size, an [int],
    so the cast of a slot to [int32_t] never wraps). *)
Record SequenceBatch := mkBatch {
  sb_batcher_idx_ : nat;
  scheduler_idle_ : bool;
  queues_ : list (list Payload);
  max_active_slot_ : Z;
  active_slots_ : list bool;
  null_request_header_ : InferRequestHeader;
  sb_overrides_ : ControlTensors;
  delay_cnt : nat
}.

Definition sb_set_queues (q : list (list Payload)) (sb : SequenceBatch) :=
  mkBatch (sb_batcher_idx_ sb) (scheduler_idle_ sb) q (max_active_slot_ sb)
    (active_slots_ sb) (null_request_header_ sb) (sb_overrides_ sb) (delay_cnt sb).
Definition sb_set_max_active (m : Z) (sb : SequenceBatch) :=
  mkBatch (sb_batcher_idx_ sb) (scheduler_idle_ sb) (queues_ sb) m
    (active_slots_ sb) (null_request_header_ sb) (sb_overrides_ sb) (delay_cnt sb).
Definition sb_set_active (a : list bool) (sb : SequenceBatch) :=
  mkBatch (sb_batcher_idx_ sb) (scheduler_idle_ sb) (queues_ sb) (max_active_slot_ sb)
    a (null_request_header_ sb) (sb_overrides_ sb) (delay_cnt sb).
Definition sb_set_null_header (h : InferRequestHeader) (sb : SequenceBatch) :=
  mkBatch (sb_batcher_idx_ sb) (scheduler_idle_ sb) (queues_ sb) (max_active_slot_ sb)
    (active_slots_ sb) h (sb_overrides_ sb) (delay_cnt sb).
Definition sb_set_delay_cnt (d : nat) (sb : SequenceBatch) :=
  mkBatch (sb_batcher_idx_ sb) (scheduler_idle_ sb) (queues_ sb) (max_active_slot_ sb)
    (active_slots_ sb) (null_request_header_ sb) (sb_overrides_ sb) d.

(** The queue of a slot of one batcher.  Indexing a vector out of range is
    undefined in C++; the model reads an empty queue there and leaves the
    vector alone on a write.  [shape] and [valid_slot] below show that every
    index the code uses is in range in all states that executions reach. *)
Definition sb_queue (sb : SequenceBatch) (slot : nat) : list Payload :=
  default [] (queues_ sb !! slot).

Section Scheduler.
Context {P : Type} `{!ReadyPool P}.

(** [SequenceBatchScheduler].  A [shared_ptr<deque<Payload>>] is a handle
    (a number); [backlog_store] maps the handles to the deques they point
    to and [next_backlog] is the handle the next [make_shared] returns. *)
Record Scheduler := mkSched {
  sequence_to_batchslot_map_ : gmap Z BatchSlot;
  sequence_to_backlog_map_ : gmap Z nat;
  backlog_queues_ : list nat;
  backlog_store : gmap nat (list Payload);
  next_backlog : nat;
  ready_batch_slots_ : P;
  queue_request_cnts_ : list nat;
  backlog_delay_cnt_ : nat;
  batchers_ : list SequenceBatch
}.

Definition set_batchslot_map (m : gmap Z BatchSlot) (s : Scheduler) :=
  mkSched m (sequence_to_backlog_map_ s) (backlog_queues_ s) (backlog_store s)
    (next_backlog s) (ready_batch_slots_ s) (queue_request_cnts_ s)
    (backlog_delay_cnt_ s) (batchers_ s).
Definition set_backlog_map (m : gmap Z nat) (s : Scheduler) :=
  mkSched (sequence_to_batchslot_map_ s) m (backlog_queues_ s) (backlog_store s)
    (next_backlog s) (ready_batch_slots_ s) (queue_request_cnts_ s)
    (backlog_delay_cnt_ s) (batchers_ s).
Definition set_backlog_queues (l : list nat) (s : Scheduler) :=
  mkSched (sequence_to_batchslot_map_ s) (sequence_to_backlog_map_ s) l (backlog_store s)
    (next_backlog s) (ready_batch_slots_ s) (queue_request_cnts_ s)
    (backlog_delay_cnt_ s) (batchers_ s).
Definition set_backlog_store (h : gmap nat (list Payload)) (s : Scheduler) :=
  mkSched (sequence_to_batchslot_map_ s) (sequence_to_backlog_map_ s) (backlog_queues_ s) h
    (next_backlog s) (ready_batch_slots_ s) (queue_request_cnts_ s)
    (backlog_delay_cnt_ s) (batchers_ s).
Definition set_next_backlog (n : nat) (s : Scheduler) :=
  mkSched (sequence_to_batchslot_map_ s) (sequence_to_backlog_map_ s) (backlog_queues_ s)
    (backlog_store s) n (ready_batch_slots_ s) (queue_request_cnts_ s)
    (backlog_delay_cnt_ s) (batchers_ s).
Definition set_ready_slots (p : P) (s : Scheduler) :=
  mkSched (sequence_to_batchslot_map_ s) (sequence_to_backlog_map_ s) (backlog_queues_ s)
    (backlog_store s) (next_backlog s) p (queue_request_cnts_ s)
    (backlog_delay_cnt_ s) (batchers_ s).
Definition set_request_cnts (c : list nat) (s : Scheduler) :=
  mkSched (sequence_to_batchslot_map_ s) (sequence_to_backlog_map_ s) (backlog_queues_ s)
    (backlog_store s) (next_backlog s) (ready_batch_slots_ s) c
    (backlog_delay_cnt_ s) (batchers_ s).
Definition set_batchers (b : list SequenceBatch) (s : Scheduler) :=
  mkSched (sequence_to_batchslot_map_ s) (sequence_to_backlog_map_ s) (backlog_queues_ s)
    (backlog_store s) (next_backlog s) (ready_batch_slots_ s) (queue_request_cnts_ s)
    (backlog_delay_cnt_ s) b.

(** The deque a backlog handle points to. *)
Definition backlog_deque (s : Scheduler) (h : nat) : list Payload :=
  default [] (backlog_store s !! h).

(** The queue of a batch slot. *)
Definition slot_queue (s : Scheduler) (bs : BatchSlot) : list Payload :=
  match batchers_ s !! batcher_idx_ bs with
  | Some sb => sb_queue sb (slot_ bs)
  | None => []
  end.

(** ** [SequenceBatch::Enqueue] *)

Definition SequenceBatch_Enqueue (slot : nat) (payload : Payload)
    (sb : SequenceBatch) : SequenceBatch :=
  let sb1 :=
    if max_active_slot_ sb =? -1
    then sb_set_null_header (payload_header payload) sb else sb in
  let sb2 := sb_set_queues (alter (λ q, q ++ [payload]) slot (queues_ sb1)) sb1 in
  let sb3 := sb_set_active (<[slot := true]> (active_slots_ sb2)) sb2 in
  sb_set_max_active (Z.max (max_active_slot_ sb3) (Z.of_nat slot)) sb3.

(** [batchers_[batcher_idx]->Enqueue(slot, ...)], with the notification of
    an idle worker. *)
Definition batcher_Enqueue (target : BatchSlot) (payload : Payload)
    (s : Scheduler) : Scheduler * list Event :=
  match batchers_ s !! batcher_idx_ target with
  | Some sb =>
    (set_batchers (<[batcher_idx_ target :=
                      SequenceBatch_Enqueue (slot_ target) payload sb]> (batchers_ s)) s,
     if scheduler_idle_ sb then [EvNotify (batcher_idx_ target)] else [])
  | None => (s, [])
  end.

(** ** [SequenceBatchScheduler::Enqueue] *)

Definition msg_batch_size (rp : InferRequestProvider) : string :=
  "inference request to model '" +:+ ModelName rp +:+
  "' must specify batch-size 1 due to requirements of sequence batcher".
Definition msg_no_correlation (rp : InferRequestProvider) : string :=
  "inference request to model '" +:+ ModelName rp +:+
  "' must specify a non-zero correlation ID".
Definition msg_no_start (rp : InferRequestProvider) : string :=
  "inference request for sequence " +:+ pretty (correlation_id (RequestHeader rp)) +:+
  " to model '" +:+ ModelName rp +:+
  "' must specify the START flag on the first request of the sequence".
Definition msg_conflict (rp : InferRequestProvider) : string :=
  "sequence " +:+ pretty (correlation_id (RequestHeader rp)) +:+
  " for model '" +:+ ModelName rp +:+
  "' has a conflict. The previous sequence did not end before this " +:+
  "sequence start. Previous sequence will be terminated early.".

(** The payload that [Enqueue] builds from its arguments. *)
Definition request_payload (stats : nat) (rp : InferRequestProvider)
    (resp : nat) (OnComplete : nat) : Payload :=
  mkPayload true (Some stats) rp (Some resp) (Some OnComplete).

(** The tail of [Enqueue] once a slot is chosen: forget the correlation ID
    when the sequence ends, then enqueue into the batcher. *)
Definition enqueue_to_slot (target : BatchSlot) (cid : Z) (seq_end : bool)
    (payload : Payload) (s : Scheduler) : Scheduler * list Event :=
  let s1 :=
    if seq_end
    then set_batchslot_map (delete cid (sequence_to_batchslot_map_ s)) s
    else s in
  batcher_Enqueue target payload s1.

Definition Enqueue (stats : nat) (request_provider : InferRequestProvider)
    (response_provider : nat) (OnComplete : nat) (s : Scheduler)
  : Scheduler * list Event :=
  let request_header := RequestHeader request_provider in
  if negb (batch_size request_header =? 1) then
    (s, [EvOnComplete OnComplete (InvalidArgument (msg_batch_size request_provider))])
  else
  let cid := correlation_id request_header in
  if cid =? 0 then
    (s, [EvOnComplete OnComplete (InvalidArgument (msg_no_correlation request_provider))])
  else
  let seq_start := has_flag request_header FLAG_SEQUENCE_START in
  let seq_end := has_flag request_header FLAG_SEQUENCE_END in
  let sb_itr := sequence_to_batchslot_map_ s !! cid in
  let bl_itr := sequence_to_backlog_map_ s !! cid in
  if negb seq_start && bool_decide (sb_itr = None) && bool_decide (bl_itr = None) then
    (s, [EvOnComplete OnComplete (InvalidArgument (msg_no_start request_provider))])
  else
  let warn :=
    if seq_start && (bool_decide (sb_itr ≠ None) || bool_decide (bl_itr ≠ None))
    then [EvLogWarning (msg_conflict request_provider)] else [] in
  let payload := request_payload stats request_provider response_provider OnComplete in
  match sb_itr with
  | Some target =>
    let '(s', ev) := enqueue_to_slot target cid seq_end payload s in (s', warn ++ ev)
  | None =>
    match bl_itr with
    | Some backlog =>
      let s1 := set_backlog_store
                  (<[backlog := backlog_deque s backlog ++ [payload]]> (backlog_store s)) s in
      let s2 := if seq_end
                then set_backlog_map (delete cid (sequence_to_backlog_map_ s1)) s1
                else s1 in
      (s2, warn)
    | None =>
      match pool_top (ready_batch_slots_ s) with
      | Some slot =>
        let s1 := set_batchslot_map (<[cid := slot]> (sequence_to_batchslot_map_ s)) s in
        let s2 := set_ready_slots (pool_pop (ready_batch_slots_ s1)) s1 in
        let '(s', ev) := enqueue_to_slot slot cid seq_end payload s2 in (s', warn ++ ev)
      | None =>
        let backlog := next_backlog s in
        let s1 := set_next_backlog (S backlog) s in
        let s2 := set_backlog_queues (backlog_queues_ s1 ++ [backlog]) s1 in
        let s3 := set_backlog_store (<[backlog := [payload]]> (backlog_store s2)) s2 in
        let s4 := if seq_end then s3
                  else set_backlog_map (<[cid := backlog]> (sequence_to_backlog_map_ s3)) s3 in
        (s4, warn)
      end
    end
  end.

(** ** [SequenceBatchScheduler::ReleaseBatchSlot] *)

Definition msg_backlog_conflict (p : Payload) : string :=
  "internal: backlog sequence " +:+ pretty (payload_cid p) +:+
  " conflicts with in-flight sequence for model '" +:+
  ModelName (request_provider_ p) +:+ "'".

(** [payloads] is the deque the caller passes by pointer; the second
    component of the result is its content on return.  A deque that was
    moved from is empty. *)
Definition ReleaseBatchSlot (batch_slot : BatchSlot) (payloads : list Payload)
    (s : Scheduler) : bool * list Payload * Scheduler * list Event :=
  match backlog_queues_ s with
  | backlog :: rest =>
    let payloads' := backlog_deque s backlog in
    let s1 := set_backlog_store (<[backlog := []]> (backlog_store s)) s in
    let s2 := set_backlog_queues rest s1 in
    match last payloads' with
    | Some back =>
      if payload_end back then (false, payloads', s2, [])
      else
        let cid := payload_cid back in
        let log :=
          if bool_decide (sequence_to_batchslot_map_ s2 !! cid ≠ None)
          then [EvLogError (msg_backlog_conflict back)] else [] in
        let s3 := set_backlog_map (delete cid (sequence_to_backlog_map_ s2)) s2 in
        let s4 := set_batchslot_map
                    (<[cid := batch_slot]> (sequence_to_batchslot_map_ s3)) s3 in
        (false, payloads', s4, log)
    | None =>
      (true, payloads',
       set_ready_slots (pool_push batch_slot (ready_batch_slots_ s2)) s2, [])
    end
  | [] =>
    (true, payloads,
     set_ready_slots (pool_push batch_slot (ready_batch_slots_ s)) s, [])
  end.

(** ** [SequenceBatchScheduler::DelayScheduler] *)

Definition DelayScheduler (batcher_idx : nat) (cnt total : nat) (s : Scheduler)
  : bool * Scheduler :=
  let s1 := set_request_cnts (<[batcher_idx := cnt]> (queue_request_cnts_ s)) s in
  let seen := sum_list (queue_request_cnts_ s1) in
  if (seen <? total)%nat then (true, s1)
  else if (0 <? backlog_delay_cnt_ s1)%nat then
    let backlog_seen :=
      sum_list ((λ h, length (backlog_deque s1 h)) <$> backlog_queues_ s1) in
    if (backlog_seen <? backlog_delay_cnt_ s1)%nat then (true, s1) else (false, s1)
  else (false, s1).

(** ** One iteration of [SequenceBatch::SchedulerThread] *)

(** The largest index below [n] at which [f] holds, or [-1]: the two
    [while (i >= 0 && ...) i--] loops. *)
Fixpoint scan_down (f : nat → bool) (n : nat) : Z :=
  match n with
  | O => -1
  | S k => if f k then Z.of_nat k else scan_down f k
  end.

Definition queue_nonempty (sb : SequenceBatch) (slot : nat) : bool :=
  match sb_queue sb slot with [] => false | _ => true end.

Definition slot_active (sb : SequenceBatch) (slot : nat) : bool :=
  default false (active_slots_ sb !! slot).

Definition find_max_slot (sb : SequenceBatch) : Z :=
  scan_down (queue_nonempty sb) (Z.to_nat (max_active_slot_ sb + 1)).

Definition adjust_max_active_slot (sb : SequenceBatch) : SequenceBatch :=
  sb_set_max_active
    (scan_down (slot_active sb) (Z.to_nat (max_active_slot_ sb + 1))) sb.

(** The payload sent for a slot that has no request. *)
Definition null_payload (sb : SequenceBatch) : Payload :=
  mkPayload false None
    (SetInputOverride (notready_input_overrides (sb_overrides_ sb))
       (NULLInferRequestProvider (null_request_header_ sb)))
    None None.

(** The payload sent for the head [slot_payload] of a slot queue. *)
Definition real_payload (sb : SequenceBatch) (slot_payload : Payload) : Payload :=
  let rp := request_provider_ slot_payload in
  let o := if payload_start slot_payload
           then start_input_overrides (sb_overrides_ sb)
           else continue_input_overrides (sb_overrides_ sb) in
  mkPayload (queue_timer_ slot_payload) (stats_ slot_payload)
    (SetInputOverride o rp) (response_provider_ slot_payload)
    (complete_function_ slot_payload).

Definition msg_after_end (slot : nat) (p : Payload) : string :=
  "internal: unexpected requests after sequence end in slot " +:+ pretty slot +:+
  " for model '" +:+ ModelName (request_provider_ p) +:+ "'".

(** The state of the loop over the slots: the scheduler (the batcher is
    updated in place), the batch assembled so far, the flag
    [adjust_max_active_slot] and the log. *)
Record Sweep := mkSweep {
  sw_sched : Scheduler;
  sw_payloads : list Payload;
  sw_adjust : bool;
  sw_log : list Event
}.

Definition put_batcher (b : nat) (sb : SequenceBatch) (s : Scheduler) : Scheduler :=
  set_batchers (<[b := sb]> (batchers_ s)) s.

(** The body of [for (slot = 0; slot <= max_slot; ++slot)] for batcher [b]. *)
Definition process_slot (b : nat) (w : Sweep) (slot : nat) : Sweep :=
  match batchers_ (sw_sched w) !! b with
  | None => w
  | Some sb =>
    match sb_queue sb slot with
    | [] =>
      mkSweep (sw_sched w) (sw_payloads w ++ [null_payload sb]) (sw_adjust w) (sw_log w)
    | slot_payload :: queue =>
      let payloads := sw_payloads w ++ [real_payload sb slot_payload] in
      if payload_end slot_payload then
        let log1 := match queue with
                    | [] => []
                    | _ => [EvLogError (msg_after_end slot slot_payload)]
                    end in
        let '(released, queue', s1, log2) :=
          ReleaseBatchSlot (mkSlot (sb_batcher_idx_ sb) slot) queue (sw_sched w) in
        let sb1 := sb_set_queues (<[slot := queue']> (queues_ sb)) sb in
        let sb2 := if released
                   then sb_set_active (<[slot := false]> (active_slots_ sb1)) sb1
                   else sb1 in
        mkSweep (put_batcher b sb2 s1) payloads
          (sw_adjust w || (released && (Z.of_nat slot =? max_active_slot_ sb)))
          (sw_log w ++ log1 ++ log2)
      else
        let sb1 := sb_set_queues (<[slot := queue]> (queues_ sb)) sb in
        mkSweep (put_batcher b sb1 (sw_sched w)) payloads (sw_adjust w) (sw_log w)
    end
  end.

Definition sweep (b : nat) (max_slot : Z) (s : Scheduler) : Sweep :=
  foldl (process_slot b) (mkSweep s [] false []) (seq 0 (Z.to_nat (max_slot + 1))).

Definition default_wait_microseconds : Z := 500 * 1000.

(** One iteration of the [while (!scheduler_thread_exit_)] loop of the
    worker of batcher [b].  The result is the new state and the events of
    the iteration, the call of [OnSchedule_] last. *)
Definition SchedulerThread (b : nat) (s : Scheduler) : Scheduler * list Event :=
  match batchers_ s !! b with
  | None => (s, [])
  | Some sb =>
    if (0 <? delay_cnt sb)%nat then
      let total_size := sum_list (length <$> queues_ sb) in
      let '(wait, s1) := DelayScheduler (sb_batcher_idx_ sb) total_size (delay_cnt sb) s in
      let sb1 := if wait then sb else sb_set_delay_cnt 0 sb in
      (put_batcher b sb1 s1, [EvWait (sb_batcher_idx_ sb) (10 * 1000)])
    else
      let max_slot := find_max_slot sb in
      if max_slot <? 0 then
        (s, [EvWait (sb_batcher_idx_ sb) default_wait_microseconds])
      else
        let w := sweep b max_slot s in
        let s1 :=
          if sw_adjust w then
            match batchers_ (sw_sched w) !! b with
            | Some sb' => put_batcher b (adjust_max_active_slot sb') (sw_sched w)
            | None => sw_sched w
            end
          else sw_sched w in
        (s1, sw_log w ++
             match sw_payloads w with
             | [] => []
             | _ => [EvOnSchedule (sb_batcher_idx_ sb) (sw_payloads w)]
             end)
  end.

(** ** [OnCompleteQueuedPayloads] *)

Definition no_complete_status (p : Payload) : Status :=
  if ok (status_ p) then compute_status_ p else status_ p.

(** The first loop: the status of the batch once the payloads that have no
    completion function are taken into account. *)
Fixpoint elevate_status (payloads : list Payload) (status : Status) : Status :=
  match payloads with
  | [] => status
  | p :: rest =>
    match complete_function_ p with
    | None =>
      if ok (no_complete_status p) then elevate_status rest status
      else no_complete_status p
    | Some _ => elevate_status rest status
    end
  end.

Definition final_status (status : Status) (p : Payload) : Status :=
  if ok status then no_complete_status p else status.

(** The second loop, with its variable [found_success]. *)
Fixpoint complete_payloads (status : Status) (found_success : bool)
    (payloads : list Payload) : list Event :=
  match payloads with
  | [] => []
  | p :: rest =>
    let fs := final_status status p in
    let count := negb found_success && ok fs && bool_decide (stats_ p ≠ None) in
    (if count
     then match stats_ p with
          | Some st => [EvSetModelExecutionCount st 1]
          | None => []
          end
     else []) ++
    match complete_function_ p with
    | Some cb => [EvOnComplete cb fs]
    | None => []
    end ++
    complete_payloads status (found_success || count) rest
  end.

Definition OnCompleteQueuedPayloads (payloads : list Payload) (status : Status)
  : list Event :=
  let status' := if ok status then elevate_status payloads status else status in
  complete_payloads status' false payloads.

(** ** [SequenceBatchScheduler::Create] *)

Definition new_batch (c batch_size : nat) (ct : ControlTensors) (delay : nat)
  : SequenceBatch :=
  mkBatch c false (replicate batch_size []) (-1) (replicate batch_size false)
    (mkHeader 0 0 0) ct delay.

(** [backlog_delay] and [delay] are the values of the two debugging
    environment variables (0 when unset). *)
Definition Create (max_batch_size : Z) (runner_cnt : nat)
    (start_ctl ready_ctl : Status + ControlProperties)
    (backlog_delay delay : nat) : Status + Scheduler :=
  let batch_size := Z.to_nat (Z.max 1 max_batch_size) in
  match CreateControlTensors start_ctl ready_ctl with
  | inl e => inl e
  | inr ct =>
    inr (mkSched ∅ ∅ [] ∅ 0%nat
           (foldl (λ p c, foldl (λ p b, pool_push (mkSlot c b) p) p (seq 0 batch_size))
              pool_new (seq 0 runner_cnt))
           (replicate runner_cnt 0%nat)
           backlog_delay
           ((λ c, new_batch c batch_size ct delay) <$> seq 0 runner_cnt))
  end.

(** ** Executions *)

Inductive Op :=
| OpEnqueue (stats : nat) (request_provider : InferRequestProvider)
    (response_provider : nat) (OnComplete : nat)
| OpSchedulerThread (b : nat).

Definition step (s : Scheduler) (o : Op) : Scheduler * list Event :=
  match o with
  | OpEnqueue st rp resp cb => Enqueue st rp resp cb s
  | OpSchedulerThread b => SchedulerThread b s
  end.

(** The state and the events after the operations [ops], oldest first. *)
Definition run (s : Scheduler) (ops : list Op) : Scheduler * list Event :=
  foldl (λ acc o, let '(s', ev) := step acc.1 o in (s', acc.2 ++ ev)) (s, []) ops.

End Scheduler.

Arguments Scheduler P : clear implicits.
Arguments Sweep P : clear implicits.

(** * Properties of the facade *)

Section Facade.
Context {P : Type} `{!ReadyPool P}.
Implicit Types (s : Scheduler P) (rp : InferRequestProvider) (bs : BatchSlot).

(** The three checks at the top of [Enqueue]. *)
Definition request_cid (rp : InferRequestProvider) : Z :=
  correlation_id (RequestHeader rp).
Definition request_start (rp : InferRequestProvider) : bool :=
  has_flag (RequestHeader rp) FLAG_SEQUENCE_START.
Definition request_end (rp : InferRequestProvider) : bool :=
  has_flag (RequestHeader rp) FLAG_SEQUENCE_END.

Definition known_sequence (s : Scheduler P) (cid : Z) : bool :=
  bool_decide (sequence_to_batchslot_map_ s !! cid ≠ None) ||
  bool_decide (sequence_to_backlog_map_ s !! cid ≠ None).

Definition accepted (s : Scheduler P) (rp : InferRequestProvider) : bool :=
  (batch_size (RequestHeader rp) =? 1) && negb (request_cid rp =? 0) &&
  (request_start rp || known_sequence s (request_cid rp)).

(** The warning of a START on a sequence that is in progress. *)
Definition conflict_warning (s : Scheduler P) (rp : InferRequestProvider)
  : list Event :=
  if request_start rp && known_sequence s (request_cid rp)
  then [EvLogWarning (msg_conflict rp)] else [].

(** The state after [batchers_[b]->Enqueue(slot, ...)]. *)
Definition delivered_to (bs : BatchSlot) (payload : Payload)
    (s s' : Scheduler P) : Prop :=
  batchers_ s' =
  alter (SequenceBatch_Enqueue (slot_ bs) payload) (batcher_idx_ bs) (batchers_ s).

Lemma batcher_Enqueue_batchers bs payload s :
  batchers_ (batcher_Enqueue bs payload s).1 =
  alter (SequenceBatch_Enqueue (slot_ bs) payload) (batcher_idx_ bs) (batchers_ s).
Proof.
  unfold batcher_Enqueue.
  destruct (batchers_ s !! batcher_idx_ bs) as [sb|] eqn:E; simpl.
  - apply list_eq. intros i.
    destruct (decide (i = batcher_idx_ bs)) as [->|Hne].
    + rewrite list_lookup_insert_eq by (eapply lookup_lt_Some; eauto).
      rewrite list_lookup_alter_eq, E. reflexivity.
    + rewrite list_lookup_insert_ne, list_lookup_alter_ne by congruence. reflexivity.
  - symmetry. apply list_eq. intros i.
    destruct (decide (i = batcher_idx_ bs)) as [->|Hne].
    + rewrite list_lookup_alter_eq, E. reflexivity.
    + rewrite list_lookup_alter_ne by congruence. reflexivity.
Qed.

Lemma batcher_Enqueue_frame bs payload s :
  let s' := (batcher_Enqueue bs payload s).1 in
  sequence_to_batchslot_map_ s' = sequence_to_batchslot_map_ s ∧
  sequence_to_backlog_map_ s' = sequence_to_backlog_map_ s ∧
  backlog_queues_ s' = backlog_queues_ s ∧
  backlog_store s' = backlog_store s ∧
  next_backlog s' = next_backlog s ∧
  ready_batch_slots_ s' = ready_batch_slots_ s.
Proof.
  unfold batcher_Enqueue.
  destruct (batchers_ s !! batcher_idx_ bs); simpl; repeat split; reflexivity.
Qed.

Lemma known_sequence_false s cid :
  known_sequence s cid = false ↔
  sequence_to_batchslot_map_ s !! cid = None ∧
  sequence_to_backlog_map_ s !! cid = None.
Proof.
  unfold known_sequence. rewrite orb_false_iff, !bool_decide_eq_false.
  split; intros [H1 H2]; split.
  - destruct (sequence_to_batchslot_map_ s !! cid); [exfalso; apply H1|]; done.
  - destruct (sequence_to_backlog_map_ s !! cid); [exfalso; apply H2|]; done.
  - rewrite H1. intros H; apply H; reflexivity.
  - rewrite H2. intros H; apply H; reflexivity.
Qed.

(** [Enqueue] past its three checks: the decision between slot, backlog,
    pool and new backlog queue. *)
Lemma Enqueue_accepted stats rp resp cb s :
  accepted s rp = true →
  Enqueue stats rp resp cb s =
  let cid := request_cid rp in
  let payload := request_payload stats rp resp cb in
  match sequence_to_batchslot_map_ s !! cid with
  | Some target =>
    let '(s', ev) := enqueue_to_slot target cid (request_end rp) payload s in
    (s', conflict_warning s rp ++ ev)
  | None =>
    match sequence_to_backlog_map_ s !! cid with
    | Some backlog =>
      let s1 := set_backlog_store
                  (<[backlog := backlog_deque s backlog ++ [payload]]> (backlog_store s)) s in
      (if request_end rp
       then set_backlog_map (delete cid (sequence_to_backlog_map_ s1)) s1 else s1,
       conflict_warning s rp)
    | None =>
      match pool_top (ready_batch_slots_ s) with
      | Some slot =>
        let s1 := set_batchslot_map (<[cid := slot]> (sequence_to_batchslot_map_ s)) s in
        let s2 := set_ready_slots (pool_pop (ready_batch_slots_ s1)) s1 in
        let '(s', ev) := enqueue_to_slot slot cid (request_end rp) payload s2 in
        (s', conflict_warning s rp ++ ev)
      | None =>
        let backlog := next_backlog s in
        let s3 := set_backlog_store (<[backlog := [payload]]> (backlog_store s))
                    (set_backlog_queues (backlog_queues_ s ++ [backlog])
                       (set_next_backlog (S backlog) s)) in
        (if request_end rp then s3
         else set_backlog_map (<[cid := backlog]> (sequence_to_backlog_map_ s3)) s3,
         conflict_warning s rp)
      end
    end
  end.
Proof.
  unfold accepted, Enqueue, conflict_warning, known_sequence, request_cid,
    request_start, request_end.
  intros Hacc. apply andb_prop in Hacc as [Hacc Hk]. apply andb_prop in Hacc as [Hb Hc].
  apply negb_true_iff in Hc. rewrite Hb, Hc. simpl negb. cbv iota.
  set (cid := correlation_id (RequestHeader rp)) in *.
  destruct (sequence_to_batchslot_map_ s !! cid) as [target|] eqn:Esb;
    destruct (sequence_to_backlog_map_ s !! cid) as [backlog|] eqn:Ebl;
    destruct (has_flag (RequestHeader rp) FLAG_SEQUENCE_START) eqn:Est;
    simpl in Hk |- *; try discriminate Hk; try reflexivity.
Qed.

(** C5.  A request whose batch size is not 1, or whose correlation ID is
    0, or that does not carry START while its correlation ID is in neither
    map, is answered at once through its completion function with an
    invalid-argument status, and the scheduler state (both maps, the
    backlog, the pool and every slot queue) is returned unchanged. *)
Theorem Enqueue_rejects stats rp resp cb s :
  batch_size (RequestHeader rp) ≠ 1 ∨
  request_cid rp = 0 ∨
  (request_start rp = false ∧
   sequence_to_batchslot_map_ s !! request_cid rp = None ∧
   sequence_to_backlog_map_ s !! request_cid rp = None) →
  ∃ msg, Enqueue stats rp resp cb s = (s, [EvOnComplete cb (InvalidArgument msg)])
         ∧ code (InvalidArgument msg) = 3.
Proof.
  unfold Enqueue, request_cid, request_start. intros Hbad.
  destruct (batch_size (RequestHeader rp) =? 1) eqn:Hb; simpl.
  2:{ eexists; split; reflexivity. }
  destruct (correlation_id (RequestHeader rp) =? 0) eqn:Hc.
  { eexists; split; reflexivity. }
  destruct Hbad as [Hbad|[Hbad|(Hst & Hsb & Hbl)]].
  - apply Z.eqb_eq in Hb. contradiction.
  - apply Z.eqb_neq in Hc. contradiction.
  - rewrite Hst, Hsb, Hbl. simpl. eexists; split; reflexivity.
Qed.

Lemma enqueue_to_slot_batchers target cid e payload s :
  delivered_to target payload s (enqueue_to_slot target cid e payload s).1.
Proof.
  unfold enqueue_to_slot, delivered_to. rewrite batcher_Enqueue_batchers.
  destruct e; reflexivity.
Qed.

Lemma enqueue_to_slot_frame target cid e payload s :
  let s' := (enqueue_to_slot target cid e payload s).1 in
  sequence_to_batchslot_map_ s' =
    (if e then delete cid (sequence_to_batchslot_map_ s)
     else sequence_to_batchslot_map_ s) ∧
  sequence_to_backlog_map_ s' = sequence_to_backlog_map_ s ∧
  backlog_queues_ s' = backlog_queues_ s ∧
  backlog_store s' = backlog_store s ∧
  next_backlog s' = next_backlog s ∧
  ready_batch_slots_ s' = ready_batch_slots_ s.
Proof.
  unfold enqueue_to_slot.
  match goal with |- context [batcher_Enqueue ?t ?p ?x] =>
    destruct (batcher_Enqueue_frame t p x) as (-> & -> & -> & -> & -> & ->) end.
  destruct e; simpl; repeat split; reflexivity.
Qed.


(** The slot that [Enqueue] picks for a request, if it picks one. *)
Definition routed_slot (s : Scheduler P) (cid : Z) : option BatchSlot :=
  match sequence_to_batchslot_map_ s !! cid with
  | Some target => Some target
  | None =>
    match sequence_to_backlog_map_ s !! cid with
    | Some _ => None
    | None => pool_top (ready_batch_slots_ s)
    end
  end.

(** An accepted request that [Enqueue] routes to a slot: what it leaves of
    the facade. *)
Lemma Enqueue_to_routed_slot stats rp resp cb s target :
  accepted s rp = true →
  routed_slot s (request_cid rp) = Some target →
  let cid := request_cid rp in
  let s' := (Enqueue stats rp resp cb s).1 in
  sequence_to_batchslot_map_ s' =
    (if request_end rp then delete cid (sequence_to_batchslot_map_ s)
     else <[cid := target]> (sequence_to_batchslot_map_ s)) ∧
  sequence_to_backlog_map_ s' = sequence_to_backlog_map_ s ∧
  backlog_queues_ s' = backlog_queues_ s ∧
  backlog_store s' = backlog_store s ∧
  ready_batch_slots_ s' =
    (match sequence_to_batchslot_map_ s !! cid with
     | Some _ => ready_batch_slots_ s
     | None => pool_pop (ready_batch_slots_ s)
     end) ∧
  delivered_to target (request_payload stats rp resp cb) s s'.
Proof.
  intros Hacc Hrt cid s'. subst s'.
  rewrite (Enqueue_accepted _ _ _ _ _ Hacc). fold cid. cbv zeta.
  unfold routed_slot in Hrt. fold cid in Hrt.
  destruct (sequence_to_batchslot_map_ s !! cid) as [t|] eqn:Esb.
  - injection Hrt as ->.
    pose proof (enqueue_to_slot_batchers target cid (request_end rp)
                  (request_payload stats rp resp cb) s) as Hd.
    pose proof (enqueue_to_slot_frame target cid (request_end rp)
                  (request_payload stats rp resp cb) s) as Hf.
    destruct (enqueue_to_slot target cid (request_end rp) _ s) as [s1 ev].
    simpl in *. destruct Hf as (Hm & ? & ? & ? & ? & ?).
    repeat split; try assumption.
    rewrite Hm. destruct (request_end rp); [reflexivity|].
    symmetry. apply insert_id. exact Esb.
  - destruct (sequence_to_backlog_map_ s !! cid) eqn:Ebl; [discriminate|].
    rewrite Hrt.
    match goal with |- context [enqueue_to_slot target cid ?e ?p ?x] =>
      pose proof (enqueue_to_slot_batchers target cid e p x) as Hd;
      pose proof (enqueue_to_slot_frame target cid e p x) as Hf;
      destruct (enqueue_to_slot target cid e p x) as [s1 ev] end.
    simpl in *. unfold delivered_to in *. simpl in Hd.
    destruct Hf as (Hm & ? & ? & ? & ? & ?).
    repeat split; try assumption.
    rewrite Hm. destruct (request_end rp); [apply delete_insert_eq|reflexivity].
Qed.


(** [ReleaseBatchSlot] where the head queue of the backlog holds a payload
    (as it does in every state that an execution reaches, see
    [observable_head_nonempty]), on any state, the states where the slot
    map already holds the correlation ID of the promoted queue included. *)
Lemma ReleaseBatchSlot_promotes bs payloads s :
  (∀ h, head (backlog_queues_ s) = Some h → backlog_deque s h ≠ []) →
  let '(released, payloads', s', log) := ReleaseBatchSlot bs payloads s in
  match backlog_queues_ s with
  | h :: rest =>
    released = false ∧ payloads' = backlog_deque s h ∧
    backlog_queues_ s' = rest ∧
    ready_batch_slots_ s' = ready_batch_slots_ s ∧
    batchers_ s' = batchers_ s ∧
    ∃ back, last (backlog_deque s h) = Some back ∧
      if payload_end back then
        sequence_to_batchslot_map_ s' = sequence_to_batchslot_map_ s ∧
        sequence_to_backlog_map_ s' = sequence_to_backlog_map_ s ∧
        log = []
      else
        sequence_to_backlog_map_ s' =
          delete (payload_cid back) (sequence_to_backlog_map_ s) ∧
        sequence_to_batchslot_map_ s' =
          <[payload_cid back := bs]> (sequence_to_batchslot_map_ s) ∧
        log = match sequence_to_batchslot_map_ s !! payload_cid back with
              | Some _ => [EvLogError (msg_backlog_conflict back)]
              | None => []
              end
  | [] =>
    released = true ∧ payloads' = payloads ∧ log = [] ∧
    s' = set_ready_slots (pool_push bs (ready_batch_slots_ s)) s
  end.
Proof.
  intros Hne. unfold ReleaseBatchSlot.
  destruct (backlog_queues_ s) as [|h rest] eqn:Ebq.
  { repeat split; reflexivity. }
  specialize (Hne h eq_refl).
  destruct (last (backlog_deque s h)) as [back|] eqn:Elast.
  2:{ apply last_None in Elast. contradiction. }
  destruct (payload_end back) eqn:Eend.
  - repeat split; try reflexivity. exists back. rewrite Eend. repeat split; reflexivity.
  - repeat split; try reflexivity. exists back. rewrite Eend. simpl.
    repeat split; try reflexivity.
    destruct (sequence_to_batchslot_map_ s !! payload_cid back) eqn:E.
    + rewrite bool_decide_eq_true_2 by congruence. reflexivity.
    + rewrite bool_decide_eq_false_2 by (intros Hx; apply Hx; reflexivity). reflexivity.
Qed.

(** What [ReleaseBatchSlot] leaves of the facade other than the store. *)
Definition release_view (r : bool * list Payload * Scheduler P * list Event) :=
  let '(released, payloads', s', log) := r in
  (released, payloads', log, sequence_to_batchslot_map_ s',
   sequence_to_backlog_map_ s', backlog_queues_ s', ready_batch_slots_ s').

Lemma release_view_store bs payloads s store2 :
  (∀ h, head (backlog_queues_ s) = Some h → store2 !! h = backlog_store s !! h) →
  release_view (ReleaseBatchSlot bs payloads (set_backlog_store store2 s)) =
  release_view (ReleaseBatchSlot bs payloads s).
Proof.
  intros Hag. unfold ReleaseBatchSlot. simpl backlog_queues_.
  destruct (backlog_queues_ s) as [|h rest] eqn:Ebq; [reflexivity|].
  specialize (Hag h eq_refl).
  unfold backlog_deque. simpl backlog_store. rewrite Hag.
  destruct (last (default [] (backlog_store s !! h))) as [back|]; [|reflexivity].
  destruct (payload_end back); reflexivity.
Qed.

(** C10.  [ReleaseBatchSlot] removes the head of the backlog and no other
    queue, and reads no other queue: the deques of the other handles are
    left as they are, and replacing them does not change the outcome.  If
    the head deque is empty, it is dropped all the same, the slot is pushed
    into the pool, [true] is returned and both maps stay as they are. *)
Theorem ReleaseBatchSlot_head_only bs payloads s :
  let '(released, payloads', s', log) := ReleaseBatchSlot bs payloads s in
  backlog_queues_ s' = tail (backlog_queues_ s) ∧
  (∀ h, head (backlog_queues_ s) ≠ Some h →
     backlog_store s' !! h = backlog_store s !! h) ∧
  (∀ store2,
     (∀ h, head (backlog_queues_ s) = Some h → store2 !! h = backlog_store s !! h) →
     release_view (ReleaseBatchSlot bs payloads (set_backlog_store store2 s)) =
     release_view (ReleaseBatchSlot bs payloads s)) ∧
  (∀ h, head (backlog_queues_ s) = Some h → backlog_deque s h = [] →
     released = true ∧ payloads' = [] ∧ log = [] ∧
     ready_batch_slots_ s' = pool_push bs (ready_batch_slots_ s) ∧
     sequence_to_batchslot_map_ s' = sequence_to_batchslot_map_ s ∧
     sequence_to_backlog_map_ s' = sequence_to_backlog_map_ s ∧
     backlog_store s' = <[h := []]> (backlog_store s)).
Proof.
  pose proof (release_view_store bs payloads s) as Hind.
  enough (Hmain : let '(released, payloads', s', log) := ReleaseBatchSlot bs payloads s in
    backlog_queues_ s' = tail (backlog_queues_ s) ∧
    (∀ h, head (backlog_queues_ s) ≠ Some h →
       backlog_store s' !! h = backlog_store s !! h) ∧
    (∀ h, head (backlog_queues_ s) = Some h → backlog_deque s h = [] →
       released = true ∧ payloads' = [] ∧ log = [] ∧
       ready_batch_slots_ s' = pool_push bs (ready_batch_slots_ s) ∧
       sequence_to_batchslot_map_ s' = sequence_to_batchslot_map_ s ∧
       sequence_to_backlog_map_ s' = sequence_to_backlog_map_ s ∧
       backlog_store s' = <[h := []]> (backlog_store s))).
  { destruct (ReleaseBatchSlot bs payloads s) as [[[released payloads'] s'] log].
    destruct Hmain as (H1 & H2 & H3). split; [exact H1|]. split; [exact H2|].
    split; [exact Hind|exact H3]. }
  clear Hind. unfold ReleaseBatchSlot.
  destruct (backlog_queues_ s) as [|h rest] eqn:Ebq.
  { simpl. rewrite Ebq. split; [reflexivity|]. split; [reflexivity|]. intros h [=]. }
  assert (Hst : ∀ h0 (m : gmap nat (list Payload)),
            head (h :: rest) ≠ Some h0 → <[h := []]> m !! h0 = m !! h0).
  { intros h0 m Hh0. apply lookup_insert_ne. simpl in Hh0. congruence. }
  destruct (last (backlog_deque s h)) as [back|] eqn:Elast.
  - assert (Hne : backlog_deque s h ≠ []) by (intros Hx; rewrite Hx in Elast; discriminate).
    destruct (payload_end back) eqn:Eend; simpl.
    + split; [reflexivity|]. split; [intros; apply Hst; assumption|].
      intros h0 [= <-] Hempty. contradiction.
    + split; [reflexivity|]. split; [intros; apply Hst; assumption|].
      intros h0 [= <-] Hempty. contradiction.
  - simpl. split; [reflexivity|]. split; [intros; apply Hst; assumption|].
    intros h0 [= <-] Hempty. rewrite Hempty. repeat split; reflexivity.
Qed.

End Facade.

(** * Properties of the worker iteration *)

Section Worker.
Context {P : Type} `{!ReadyPool P}.
Implicit Types (s : Scheduler P) (sb : SequenceBatch) (w : Sweep P).

(** What the worker sends for a slot: a placeholder for an empty queue,
    the head of the queue otherwise. *)
Definition slot_output (sb : SequenceBatch) (slot : nat) : Payload :=
  match sb_queue sb slot with
  | [] => null_payload sb
  | slot_payload :: _ => real_payload sb slot_payload
  end.

(** The fields of a batcher that a sweep does not write. *)
Definition same_static (sb sb' : SequenceBatch) : Prop :=
  sb_batcher_idx_ sb' = sb_batcher_idx_ sb ∧
  null_request_header_ sb' = null_request_header_ sb ∧
  sb_overrides_ sb' = sb_overrides_ sb ∧
  max_active_slot_ sb' = max_active_slot_ sb ∧
  delay_cnt sb' = delay_cnt sb ∧
  length (queues_ sb') = length (queues_ sb) ∧
  length (active_slots_ sb') = length (active_slots_ sb).

Lemma same_static_refl sb : same_static sb sb.
Proof. repeat split; reflexivity. Qed.

Lemma same_static_trans sb1 sb2 sb3 :
  same_static sb1 sb2 → same_static sb2 sb3 → same_static sb1 sb3.
Proof.
  unfold same_static. intros (?&?&?&?&?&?&?) (?&?&?&?&?&?&?).
  repeat split; congruence.
Qed.

Lemma ReleaseBatchSlot_batchers bs payloads s :
  batchers_ (ReleaseBatchSlot bs payloads s).1.2 = batchers_ s.
Proof.
  unfold ReleaseBatchSlot.
  destruct (backlog_queues_ s); [reflexivity|].
  destruct (last _); [|reflexivity].
  destruct (payload_end _); reflexivity.
Qed.

Definition is_log_error (e : Event) : Prop := ∃ m, e = EvLogError m.

Lemma ReleaseBatchSlot_log bs payloads s e :
  e ∈ (ReleaseBatchSlot bs payloads s).2 → is_log_error e.
Proof.
  unfold ReleaseBatchSlot.
  destruct (backlog_queues_ s); simpl; [intros H; inversion H|].
  destruct (last _); simpl; [|intros H; inversion H].
  destruct (payload_end _); simpl; [intros H; inversion H|].
  case_bool_decide; simpl; intros He; [|inversion He].
  apply list_elem_of_singleton in He. subst. eexists; reflexivity.
Qed.

Lemma sb_queue_insert_ne sb q j slot :
  j ≠ slot → sb_queue (sb_set_queues (<[slot := q]> (queues_ sb)) sb) j = sb_queue sb j.
Proof.
  intros Hne. unfold sb_queue. simpl. rewrite list_lookup_insert_ne by congruence.
  reflexivity.
Qed.

Lemma process_slot_spec b w slot sb :
  batchers_ (sw_sched w) !! b = Some sb →
  ∃ sb', batchers_ (sw_sched (process_slot b w slot)) !! b = Some sb' ∧
    same_static sb sb' ∧
    (∀ j, j ≠ slot → sb_queue sb' j = sb_queue sb j) ∧
    sw_payloads (process_slot b w slot) = sw_payloads w ++ [slot_output sb slot] ∧
    (∀ e, e ∈ sw_log (process_slot b w slot) → e ∈ sw_log w ∨ is_log_error e).
Proof.
  intros Hsb. unfold process_slot, slot_output. rewrite Hsb.
  assert (Hlt : (b < length (batchers_ (sw_sched w)))%nat)
    by (eapply lookup_lt_Some; eauto).
  destruct (sb_queue sb slot) as [|slot_payload queue] eqn:Eq.
  { exists sb. simpl. repeat split; auto. }
  destruct (payload_end slot_payload) eqn:Eend.
  - pose proof (ReleaseBatchSlot_batchers (mkSlot (sb_batcher_idx_ sb) slot) queue (sw_sched w)) as Hb.
    pose proof (ReleaseBatchSlot_log (mkSlot (sb_batcher_idx_ sb) slot) queue (sw_sched w)) as Hl.
    destruct (ReleaseBatchSlot _ queue (sw_sched w)) as [[[released queue'] s1] log2].
    simpl in Hb, Hl. simpl. rewrite Hb.
    rewrite list_lookup_insert_eq by assumption.
    eexists. split; [reflexivity|]. split; [|split; [|split]].
    + destruct released; simpl; unfold same_static; simpl;
        rewrite ?length_insert; repeat split; reflexivity.
    + intros j Hne. destruct released; simpl; apply sb_queue_insert_ne; assumption.
    + reflexivity.
    + intros e He. rewrite !elem_of_app in He. destruct He as [He|[He|He]].
      * left; assumption.
      * right. destruct queue; [inversion He|].
        apply list_elem_of_singleton in He. subst. eexists; reflexivity.
      * right. apply Hl. assumption.
  - simpl. rewrite list_lookup_insert_eq by assumption.
    eexists. split; [reflexivity|]. split; [|split; [|split]].
    + unfold same_static; simpl; rewrite ?length_insert; repeat split; reflexivity.
    + intros j Hne. apply sb_queue_insert_ne; assumption.
    + reflexivity.
    + intros e He. left; assumption.
Qed.

Lemma slot_output_ext sb sb' slot :
  same_static sb sb' → sb_queue sb' slot = sb_queue sb slot →
  slot_output sb' slot = slot_output sb slot.
Proof.
  intros (_ & Hn & Ho & _) Hq. unfold slot_output, null_payload, real_payload.
  rewrite Hq, Hn, Ho. reflexivity.
Qed.

(** The batch that a sweep over the slots [k .. k+n-1] appends. *)
Lemma sweep_from b n : ∀ k w sb,
  batchers_ (sw_sched w) !! b = Some sb →
  let w' := foldl (process_slot b) w (seq k n) in
  ∃ sb', batchers_ (sw_sched w') !! b = Some sb' ∧
    same_static sb sb' ∧
    (∀ j, (j < k ∨ k + n ≤ j)%nat → sb_queue sb' j = sb_queue sb j) ∧
    sw_payloads w' = sw_payloads w ++ (slot_output sb <$> seq k n) ∧
    (∀ e, e ∈ sw_log w' → e ∈ sw_log w ∨ is_log_error e).
Proof.
  induction n as [|n IH]; intros k w sb Hsb; simpl.
  { exists sb. rewrite app_nil_r. repeat split; auto using same_static_refl. }
  destruct (process_slot_spec b w k sb Hsb) as (sb1 & Hsb1 & Hst1 & Hq1 & Hp1 & Hl1).
  destruct (IH (S k) _ sb1 Hsb1) as (sb2 & Hsb2 & Hst2 & Hq2 & Hp2 & Hl2).
  exists sb2. split; [exact Hsb2|]. split; [|split; [|split]].
  - eapply same_static_trans; eauto.
  - intros j Hj. rewrite Hq2 by lia. apply Hq1. lia.
  - rewrite Hp2, Hp1, <- app_assoc. simpl. f_equal. f_equal.
    apply list_fmap_ext. intros i j Hij.
    apply lookup_seq in Hij as [-> _].
    apply slot_output_ext; [assumption|]. apply Hq1. lia.
  - intros e He. destruct (Hl2 e He) as [He'|]; [|right; assumption].
    apply Hl1. assumption.
Qed.

Lemma sweep_spec b max_slot s sb :
  batchers_ s !! b = Some sb →
  ∃ sb', batchers_ (sw_sched (sweep b max_slot s)) !! b = Some sb' ∧
    same_static sb sb' ∧
    sw_payloads (sweep b max_slot s) =
      slot_output sb <$> seq 0 (Z.to_nat (max_slot + 1)) ∧
    (∀ e, e ∈ sw_log (sweep b max_slot s) → is_log_error e).
Proof.
  intros Hsb. unfold sweep.
  destruct (sweep_from b (Z.to_nat (max_slot + 1)) 0 (mkSweep s [] false []) sb Hsb)
    as (sb' & H1 & H2 & _ & H4 & H5).
  exists sb'. repeat split; try assumption; try apply H2.
  intros e He. destruct (H5 e He) as [Hx|]; [inversion Hx|assumption].
Qed.

(** [scan_down]: the result is the largest index below [n] where [f]
    holds. *)
Lemma scan_down_spec f n :
  -1 ≤ scan_down f n < Z.of_nat n ∧
  (0 ≤ scan_down f n → f (Z.to_nat (scan_down f n)) = true) ∧
  (∀ j, scan_down f n < Z.of_nat j < Z.of_nat n → f j = false).
Proof.
  induction n as [|n (IH1 & IH2 & IH3)]; simpl scan_down.
  { split; [lia|]. split; [lia|]. intros j Hj. lia. }
  destruct (f n) eqn:Efn.
  - split; [lia|]. split; [rewrite Nat2Z.id; auto|]. intros j Hj. lia.
  - split; [lia|]. split; [assumption|]. intros j Hj.
    destruct (decide (j = n)) as [->|Hne]; [assumption|]. apply IH3. lia.
Qed.

(** The events of one worker iteration: at most one call of the runner,
    and then with the batch that [slot_output] describes. *)
Lemma SchedulerThread_on_schedule b s sb idx batch :
  batchers_ s !! b = Some sb →
  EvOnSchedule idx batch ∈ (SchedulerThread b s).2 →
  delay_cnt sb = 0%nat ∧ 0 ≤ find_max_slot sb ∧ idx = sb_batcher_idx_ sb ∧
  batch = slot_output sb <$> seq 0 (Z.to_nat (find_max_slot sb + 1)).
Proof.
  intros Hsb. unfold SchedulerThread. rewrite Hsb.
  destruct (0 <? delay_cnt sb)%nat eqn:Ed.
  { destruct (DelayScheduler _ _ _ s) as [wait s1]. simpl.
    intros H. apply list_elem_of_singleton in H. discriminate. }
  apply Nat.ltb_ge in Ed.
  destruct (find_max_slot sb <? 0) eqn:Em.
  { simpl. intros H. apply list_elem_of_singleton in H. discriminate. }
  apply Z.ltb_ge in Em.
  destruct (sweep_spec b (find_max_slot sb) s sb Hsb) as (sb' & _ & _ & Hp & Hl).
  simpl. rewrite elem_of_app. intros [H|H].
  { apply Hl in H as [m Hm]. discriminate. }
  destruct (sw_payloads (sweep b (find_max_slot sb) s)) eqn:Epl; [inversion H|].
  apply list_elem_of_singleton in H. injection H as -> ->.
  repeat split; try lia; try assumption.
Qed.

(** C6, as the code has it.  The batch that a worker hands to the runner
    spans the slots [0 .. max_slot], where [max_slot] is the largest slot
    not above [max_active_slot_] whose queue holds a payload: its length is
    [max_slot + 1], at most [max_active_slot_ + 1], and less whenever the
    queues of the topmost active slots are empty.  There is no gap: the
    slot at each index of the batch is represented, an empty queue by a
    placeholder built from the cached null request header with the
    NOT-READY overrides, no completion function and no statistics. *)
Theorem batch_shape b s sb idx batch :
  batchers_ s !! b = Some sb →
  EvOnSchedule idx batch ∈ (SchedulerThread b s).2 →
  let max_slot := find_max_slot sb in
  idx = sb_batcher_idx_ sb ∧
  0 ≤ max_slot ≤ max_active_slot_ sb ∧
  Z.of_nat (length batch) = max_slot + 1 ∧
  sb_queue sb (Z.to_nat max_slot) ≠ [] ∧
  (∀ j, max_slot < Z.of_nat j ≤ max_active_slot_ sb → sb_queue sb j = []) ∧
  (∀ slot, (slot < length batch)%nat →
     ∃ p, batch !! slot = Some p ∧
       match sb_queue sb slot with
       | [] =>
         request_provider_ p =
           SetInputOverride (notready_input_overrides (sb_overrides_ sb))
             (NULLInferRequestProvider (null_request_header_ sb)) ∧
         complete_function_ p = None ∧ stats_ p = None
       | slot_payload :: _ =>
         is_null (request_provider_ p) = is_null (request_provider_ slot_payload) ∧
         payload_header p = payload_header slot_payload ∧
         complete_function_ p = complete_function_ slot_payload ∧
         stats_ p = stats_ slot_payload
       end).
Proof.
  intros Hsb Hev max_slot.
  destruct (SchedulerThread_on_schedule b s sb idx batch Hsb Hev) as (Hd & Hm & -> & ->).
  fold max_slot in Hm |- *.
  destruct (scan_down_spec (queue_nonempty sb) (Z.to_nat (max_active_slot_ sb + 1)))
    as (H1 & H2 & H3).
  fold (find_max_slot sb) in H1, H2, H3. fold max_slot in H1, H2, H3.
  split; [reflexivity|]. split; [lia|]. split; [|split; [|split]].
  - rewrite length_fmap, length_seq. lia.
  - specialize (H2 Hm). unfold queue_nonempty in H2.
    destruct (sb_queue sb (Z.to_nat max_slot)); [discriminate|congruence].
  - intros j Hj. specialize (H3 j). unfold queue_nonempty in H3.
    destruct (sb_queue sb j); [reflexivity|]. assert (true = false) by (apply H3; lia).
    discriminate.
  - intros slot Hlt. rewrite length_fmap, length_seq in Hlt.
    exists (slot_output sb slot). split.
    + rewrite list_lookup_fmap, lookup_seq_lt by assumption. reflexivity.
    + unfold slot_output. destruct (sb_queue sb slot) as [|q rest].
      * repeat split; reflexivity.
      * repeat split; reflexivity.
Qed.

(** A worker whose debugging delay is off and that has a payload in a
    queue up to [max_active_slot_] does call the runner. *)
Lemma SchedulerThread_calls_runner b s sb :
  batchers_ s !! b = Some sb → delay_cnt sb = 0%nat → 0 ≤ find_max_slot sb →
  ∃ batch, EvOnSchedule (sb_batcher_idx_ sb) batch ∈ (SchedulerThread b s).2.
Proof.
  intros Hsb Hd Hm. unfold SchedulerThread. rewrite Hsb, Hd. simpl.
  destruct (find_max_slot sb <? 0) eqn:Em; [apply Z.ltb_lt in Em; lia|].
  destruct (sweep_spec b (find_max_slot sb) s sb Hsb) as (sb' & _ & _ & Hp & _).
  simpl. rewrite Hp.
  destruct (Z.to_nat (find_max_slot sb + 1)) as [|n] eqn:En; [lia|].
  simpl. eexists. rewrite elem_of_app. right. apply list_elem_of_singleton. reflexivity.
Qed.

(** C7.  In a batch handed to the runner, the payload taken from the head
    of a slot queue carries the START overrides if its request header has
    the SEQUENCE_START flag and the CONTINUE overrides if it has not, and
    the placeholder of a slot with an empty queue carries the NOT-READY
    overrides. *)
Theorem batch_overrides b s sb idx batch :
  batchers_ s !! b = Some sb →
  EvOnSchedule idx batch ∈ (SchedulerThread b s).2 →
  ∀ slot p, batch !! slot = Some p →
    match sb_queue sb slot with
    | [] =>
      is_null (request_provider_ p) = true ∧
      input_override (request_provider_ p) =
        Some (notready_input_overrides (sb_overrides_ sb))
    | slot_payload :: _ =>
      payload_header p = payload_header slot_payload ∧
      request_provider_ p =
        SetInputOverride
          (if payload_start slot_payload
           then start_input_overrides (sb_overrides_ sb)
           else continue_input_overrides (sb_overrides_ sb))
          (request_provider_ slot_payload) ∧
      input_override (request_provider_ p) =
        Some (if has_flag (payload_header p) FLAG_SEQUENCE_START
              then start_input_overrides (sb_overrides_ sb)
              else continue_input_overrides (sb_overrides_ sb))
    end.
Proof.
  intros Hsb Hev slot p Hp.
  destruct (SchedulerThread_on_schedule b s sb idx batch Hsb Hev) as (_ & _ & _ & ->).
  rewrite list_lookup_fmap in Hp.
  destruct (seq 0 (Z.to_nat (find_max_slot sb + 1)) !! slot) as [i|] eqn:Ei; [|discriminate].
  apply lookup_seq in Ei as [-> _]. simpl in Hp. injection Hp as <-.
  unfold slot_output. destruct (sb_queue sb slot) as [|q rest].
  - split; reflexivity.
  - unfold real_payload, payload_start, payload_header. simpl.
    repeat split; reflexivity.
Qed.

End Worker.

(** * Properties of the completion closure *)

Section Completion.

(** The status that [OnCompleteQueuedPayloads] passes on for [p]: the
    status of the batch, raised to the error of a payload without
    completion function if there is one, else the payload's own. *)
Definition batch_status (payloads : list Payload) (status : Status) : Status :=
  if ok status then elevate_status payloads status else status.

Definition effective_status (payloads : list Payload) (status : Status)
    (p : Payload) : Status :=
  final_status (batch_status payloads status) p.

(** The calls of [SetModelExecutionCount] among the events. *)
Definition execution_counts (evs : list Event) : list (nat * Z) :=
  omap (M := list)
    (λ e, match e with
          | EvSetModelExecutionCount st n => Some (st, n)
          | _ => None
          end) evs.

(** A payload that can take the count: its status is OK and it has a
    statistics object. *)
Definition countable_payload (status' : Status) (p : Payload) : bool :=
  ok (final_status status' p) && bool_decide (stats_ p ≠ None).

(** The claim, as the specification words it: each completion of a batch
    marks exactly one payload. *)
Definition exactly_one_counted (payloads : list Payload) (status : Status) : Prop :=
  ∃ st, execution_counts (OnCompleteQueuedPayloads payloads status) = [(st, 1)].

Lemma execution_counts_app evs1 evs2 :
  execution_counts (evs1 ++ evs2) = execution_counts evs1 ++ execution_counts evs2.
Proof.
  unfold execution_counts. apply omap_app.
Qed.

Lemma execution_counts_callback (o : option nat) st :
  execution_counts match o with Some cb => [EvOnComplete cb st] | None => [] end = [].
Proof. destruct o; reflexivity. Qed.

Lemma complete_payloads_found status payloads :
  execution_counts (complete_payloads status true payloads) = [].
Proof.
  induction payloads as [|p rest IH]; simpl; [reflexivity|].
  rewrite !execution_counts_app, execution_counts_callback, IH. reflexivity.
Qed.

Lemma complete_payloads_counts status payloads :
  execution_counts (complete_payloads status false payloads) =
  match find (countable_payload status) payloads with
  | Some p => match stats_ p with Some st => [(st, 1)] | None => [] end
  | None => []
  end.
Proof.
  induction payloads as [|p rest IH]; simpl; [reflexivity|].
  rewrite !execution_counts_app, execution_counts_callback.
  unfold countable_payload at 1.
  destruct (ok (final_status status p) && bool_decide (stats_ p ≠ None)) eqn:Ec.
  - simpl. rewrite complete_payloads_found.
    destruct (stats_ p); reflexivity.
  - simpl. exact IH.
Qed.

(** C8, as the code has it.  One completion of a batch calls
    [SetModelExecutionCount(1)] at most once: on the statistics of the
    first payload, in slot order, whose effective status is OK and that
    has a statistics object; it calls it on no other payload, and on none
    at all when the batch has no such payload (a failed batch). *)
Theorem execution_count_first_success payloads status :
  execution_counts (OnCompleteQueuedPayloads payloads status) =
  match find (countable_payload (batch_status payloads status)) payloads with
  | Some p => match stats_ p with Some st => [(st, 1)] | None => [] end
  | None => []
  end
  ∧ (length (execution_counts (OnCompleteQueuedPayloads payloads status)) ≤ 1)%nat
  ∧ (∀ p, find (countable_payload (batch_status payloads status)) payloads = Some p →
       ok (effective_status payloads status p) = true ∧
       ∃ st l1 l2, stats_ p = Some st ∧ payloads = l1 ++ p :: l2 ∧
         (∀ q, q ∈ l1 →
            ok (effective_status payloads status q) = false ∨ stats_ q = None) ∧
         execution_counts (OnCompleteQueuedPayloads payloads status) = [(st, 1)]).
Proof.
  unfold OnCompleteQueuedPayloads. fold (batch_status payloads status).
  rewrite complete_payloads_counts.
  set (st' := batch_status payloads status). unfold effective_status. fold st'.
  clearbody st'.
  split; [reflexivity|]. split.
  { destruct (find _ payloads) as [p|]; [destruct (stats_ p)|]; simpl; lia. }
  intros p Hfind. rewrite Hfind.
  assert (Hc : countable_payload st' p = true) by (eapply find_some; eauto).
  unfold countable_payload in Hc. apply andb_prop in Hc as [Hok Hst].
  split; [exact Hok|].
  apply bool_decide_eq_true in Hst.
  destruct (stats_ p) as [st|] eqn:Est; [|contradiction].
  exists st.
  clear Hok Hst. revert Hfind. induction payloads as [|q rest IH]; simpl; [discriminate|].
  destruct (countable_payload st' q) eqn:Eq.
  - intros [= ->]. exists [], rest. repeat split; try reflexivity.
    intros q Hq. inversion Hq.
  - intros Hfind. destruct (IH Hfind) as (l1 & l2 & _ & -> & Hall & _).
    exists (q :: l1), l2. repeat split; try reflexivity.
    intros q' Hq'. apply elem_of_cons in Hq' as [Heq|Hq']; [subst q'|apply Hall; assumption].
    unfold countable_payload in Eq. apply andb_false_iff in Eq as [Eq|Eq]; [left; exact Eq|].
    right. apply bool_decide_eq_false in Eq. destruct (stats_ q); [|reflexivity].
    exfalso. apply Eq. discriminate.
Qed.

End Completion.

(** * The invariant of the scheduler *)

(** ** Queues *)

Definition cid_of (cid : Z) (q : list Payload) : Prop :=
  Forall (λ p, payload_cid p = cid) q.
Definition end_free (q : list Payload) : Prop :=
  Forall (λ p, payload_end p = false) q.
Definition one_cid (q : list Payload) : Prop := ∃ cid, cid_of cid q.

(** A payload that carries END is the last of its queue. *)
Fixpoint end_last (q : list Payload) : Prop :=
  match q with
  | [] => True
  | p :: q' => (payload_end p = true → q' = []) ∧ end_last q'
  end.

(** The queue ends with a payload that carries END. *)
Definition ending (q : list Payload) : Prop :=
  ∃ p, last q = Some p ∧ payload_end p = true.

Lemma end_free_end_last q : end_free q → end_last q.
Proof.
  induction 1 as [|p q Hp _ IH]; simpl; [exact I|].
  split; [congruence|exact IH].
Qed.

Lemma end_last_snoc q p : end_free q → end_last (q ++ [p]).
Proof.
  induction 1 as [|x q Hx _ IH]; simpl; [split; [reflexivity|exact I]|].
  split; [congruence|exact IH].
Qed.

Lemma end_last_open q p :
  end_last q → last q = Some p → payload_end p = false → end_free q.
Proof.
  induction q as [|x q IH]; simpl; intros Hel Hlast Hp; [constructor|].
  destruct Hel as [Hx Hel]. destruct q as [|y q].
  - injection Hlast as ->. constructor; [assumption|constructor].
  - constructor.
    + destruct (payload_end x) eqn:Ex; [|reflexivity]. specialize (Hx eq_refl). discriminate.
    + apply IH; assumption.
Qed.

Lemma end_free_not_ending q : end_free q → ¬ ending q.
Proof.
  intros Hf (p & Hlast & Hp). unfold end_free in Hf. rewrite Forall_forall in Hf.
  assert (Hin : p ∈ q).
  { rewrite last_Some in Hlast. destruct Hlast as [l' ->]. set_solver. }
  rewrite (Hf p Hin) in Hp. discriminate.
Qed.

Lemma ending_tail p q : ending (p :: q) → payload_end p = false → ending q.
Proof.
  intros (x & Hlast & Hx) Hp. exists x. split; [|assumption].
  destruct q as [|y q]; [|exact Hlast].
  simpl in Hlast. injection Hlast as ->. congruence.
Qed.

Lemma cid_of_snoc cid q p : cid_of cid q → payload_cid p = cid → cid_of cid (q ++ [p]).
Proof. intros Hq Hp. apply Forall_app. split; [assumption|]. constructor; [assumption|constructor]. Qed.

Lemma end_free_snoc q p : end_free q → payload_end p = false → end_free (q ++ [p]).
Proof. intros Hq Hp. apply Forall_app. split; [assumption|]. constructor; [assumption|constructor]. Qed.

Lemma ending_snoc q p : payload_end p = true → ending (q ++ [p]).
Proof. intros Hp. exists p. split; [apply last_snoc|assumption]. Qed.

Lemma one_cid_tail p q : one_cid (p :: q) → one_cid q.
Proof. intros [cid H]. exists cid. inversion H; assumption. Qed.

Lemma one_cid_nil : one_cid [].
Proof. exists 0. constructor. Qed.

(** ** Views *)

(** Pointwise update of a function. *)
Definition upd {A B : Type} `{EqDecision A} (f : A → B) (x : A) (v : B) : A → B :=
  λ y, if decide (y = x) then v else f y.

Lemma upd_eq {A B : Type} `{EqDecision A} (f : A → B) x v : upd f x v x = v.
Proof. unfold upd. rewrite decide_True; reflexivity. Qed.

Lemma upd_ne {A B : Type} `{EqDecision A} (f : A → B) x v y :
  y ≠ x → upd f x v y = f y.
Proof. intros Hne. unfold upd. rewrite decide_False; [reflexivity|assumption]. Qed.

(** What the invariant reads of a scheduler state: the slots that exist,
    the queue of each slot, the two maps, the backlog with the deque of
    each handle, and the content of the pool. *)
Record View := mkView {
  v_valid : BatchSlot → Prop;
  v_queue : BatchSlot → list Payload;
  v_sm : gmap Z BatchSlot;
  v_bm : gmap Z nat;
  v_bl : list nat;
  v_deque : nat → list Payload;
  v_next : nat;
  v_pool : list BatchSlot
}.

(** Two views with the same content. *)
Record view_equiv (v v' : View) : Prop := {
  ve_valid : ∀ bs, v_valid v bs ↔ v_valid v' bs;
  ve_queue : ∀ bs, v_queue v bs = v_queue v' bs;
  ve_sm : v_sm v = v_sm v';
  ve_bm : v_bm v = v_bm v';
  ve_bl : v_bl v = v_bl v';
  ve_deque : ∀ h, v_deque v h = v_deque v' h;
  ve_next : v_next v = v_next v';
  ve_pool : v_pool v ≡ₚ v_pool v'
}.

(** The invariant.  [limbo] is the slot, if any, whose END payload the
    worker has just popped and that it has not released yet. *)
Record InvV (limbo : option BatchSlot) (v : View) : Prop := {
  vi_disj : ∀ cid bs, v_sm v !! cid = Some bs → v_bm v !! cid = None;
  vi_blmap : ∀ cid h, v_bm v !! cid = Some h →
    h ∈ v_bl v ∧ cid_of cid (v_deque v h) ∧ end_free (v_deque v h);
  vi_bl : ∀ h, h ∈ v_bl v →
    v_deque v h ≠ [] ∧ (h < v_next v)%nat ∧
    end_last (v_deque v h) ∧ one_cid (v_deque v h);
  vi_bl_open : ∀ h p, h ∈ v_bl v → last (v_deque v h) = Some p →
    payload_end p = false → v_bm v !! payload_cid p = Some h;
  vi_bl_nodup : NoDup (v_bl v);
  vi_pool_nodup : NoDup (v_pool v);
  vi_pool : ∀ bs, bs ∈ v_pool v →
    v_valid v bs ∧ v_queue v bs = [] ∧ (∀ cid, v_sm v !! cid ≠ Some bs);
  vi_bound : ∀ cid bs, v_sm v !! cid = Some bs →
    v_valid v bs ∧ cid_of cid (v_queue v bs) ∧ end_free (v_queue v bs);
  vi_inj : ∀ cid cid' bs,
    v_sm v !! cid = Some bs → v_sm v !! cid' = Some bs → cid = cid';
  vi_owner : ∀ bs, v_valid v bs →
    bs ∈ v_pool v ∨ (∃ cid, v_sm v !! cid = Some bs) ∨
    ending (v_queue v bs) ∨ limbo = Some bs;
  vi_queue : ∀ bs, end_last (v_queue v bs) ∧ one_cid (v_queue v bs);
  vi_limbo : ∀ bs, limbo = Some bs →
    v_valid v bs ∧ v_queue v bs = [] ∧ (bs ∉ v_pool v) ∧
    (∀ cid, v_sm v !! cid ≠ Some bs);
  vi_valid : ∀ bs, v_queue v bs ≠ [] → v_valid v bs
}.

Lemma InvV_equiv limbo v v' : view_equiv v v' → InvV limbo v → InvV limbo v'.
Proof.
  intros [Hva Hq Hsm Hbm Hbl Hdq Hnx Hpl] [I1 I2 I3 I4 I5 I6 I7 I8 I9 I10 I11 I12 I13].
  constructor.
  - intros cid bs. rewrite <- Hsm, <- Hbm. apply I1.
  - intros cid h. rewrite <- Hbm, <- Hbl, <- Hdq. apply I2.
  - intros h. rewrite <- Hbl, <- Hdq, <- Hnx. apply I3.
  - intros h p. rewrite <- Hbl, <- Hdq, <- Hbm. apply I4.
  - rewrite <- Hbl. exact I5.
  - rewrite <- Hpl. exact I6.
  - intros bs. rewrite <- Hpl, <- Hva, <- Hq, <- Hsm. apply I7.
  - intros cid bs. rewrite <- Hva, <- Hq, <- Hsm. apply I8.
  - intros cid cid' bs. rewrite <- Hsm. apply I9.
  - intros bs. rewrite <- Hva, <- Hpl, <- Hq, <- Hsm. apply I10.
  - intros bs. rewrite <- Hq. apply I11.
  - intros bs. rewrite <- Hva, <- Hpl, <- Hq, <- Hsm. apply I12.
  - intros bs. rewrite <- Hva, <- Hq. apply I13.
Qed.

(** ** The invariant is kept by each step on views *)

Lemma forget_lookup {A : Type} (e : bool) (cid c : Z) (m : gmap Z A) x :
  (if e then delete cid m else m) !! c = Some x →
  m !! c = Some x ∧ (e = true → c ≠ cid).
Proof.
  destruct e; intros H.
  - apply lookup_delete_Some in H as [Hne H]. split; [assumption|]. intros _. congruence.
  - split; [assumption|discriminate].
Qed.

Lemma forget_lookup_ne {A : Type} (e : bool) (cid c : Z) (m : gmap Z A) :
  c ≠ cid → (if e then delete cid m else m) !! c = m !! c.
Proof. intros Hne. destruct e; [|reflexivity]. apply lookup_delete_ne. congruence. Qed.

Lemma forget_lookup_keep {A : Type} (cid c : Z) (m : gmap Z A) :
  (if false then delete cid m else m) !! c = m !! c.
Proof. reflexivity. Qed.

(** A payload is appended to the queue of the slot bound to its
    correlation ID; the binding is erased if the payload carries END. *)
Lemma inv_append_bound v cid bs p :
  InvV None v → v_sm v !! cid = Some bs → payload_cid p = cid →
  InvV None
    (mkView (v_valid v) (upd (v_queue v) bs (v_queue v bs ++ [p]))
       (if payload_end p then delete cid (v_sm v) else v_sm v)
       (v_bm v) (v_bl v) (v_deque v) (v_next v) (v_pool v)).
Proof.
  intros [I1 I2 I3 I4 I5 I6 I7 I8 I9 I10 I11 I12 I13] Hsm Hp.
  destruct (I8 _ _ Hsm) as (Hval & Hcid & Hfree).
  constructor; simpl; try assumption.
  - intros c b Hc. apply forget_lookup in Hc as [Hc _]. eauto.
  - intros b Hb. destruct (I7 b Hb) as (H1 & H2 & H3).
    assert (b ≠ bs) by (intros ->; eapply H3; eauto).
    rewrite upd_ne by assumption. repeat split; try assumption.
    intros c Hc. apply forget_lookup in Hc as [Hc _]. eapply H3; eauto.
  - intros c b Hc. apply forget_lookup in Hc as [Hc Hne].
    destruct (I8 _ _ Hc) as (H1 & H2 & H3). split; [assumption|].
    destruct (decide (b = bs)) as [->|Hb].
    + rewrite upd_eq. assert (c = cid) by (eapply I9; eauto). subst c.
      destruct (payload_end p) eqn:Ep; [exfalso; apply Hne; reflexivity|].
      split; [apply cid_of_snoc|apply end_free_snoc]; assumption.
    + rewrite upd_ne by assumption. split; assumption.
  - intros c c' b Hc Hc'. apply forget_lookup in Hc as [Hc _].
    apply forget_lookup in Hc' as [Hc' _]. eauto.
  - intros b Hb. destruct (decide (b = bs)) as [->|Hne].
    + rewrite upd_eq. destruct (payload_end p) eqn:Ep.
      * right; right; left. apply ending_snoc. assumption.
      * right; left. exists cid. assumption.
    + rewrite upd_ne by assumption.
      destruct (I10 b Hb) as [H|[[c H]|[H|H]]]; [left; assumption| |right; right; left; assumption|discriminate].
      right; left. exists c. rewrite forget_lookup_ne; [assumption|].
      intros ->. rewrite Hsm in H. congruence.
  - intros b. destruct (decide (b = bs)) as [->|Hne].
    + rewrite upd_eq. split; [apply end_last_snoc; assumption|].
      exists cid. apply cid_of_snoc; assumption.
    + rewrite upd_ne by assumption. apply I11.
  - intros b [=].
  - intros b. destruct (decide (b = bs)) as [->|Hne]; [intros _; assumption|].
    rewrite upd_ne by assumption. apply I13.
Qed.

Lemma cid_of_unique cid cid' q : q ≠ [] → cid_of cid q → cid_of cid' q → cid = cid'.
Proof.
  destruct q as [|p q]; [congruence|]. intros _ H1 H2.
  inversion H1; inversion H2; congruence.
Qed.

(** A payload is appended to the backlog queue of its correlation ID; the
    map entry is erased if the payload carries END. *)
Lemma inv_append_backlog v cid h p :
  InvV None v → v_bm v !! cid = Some h → payload_cid p = cid →
  InvV None
    (mkView (v_valid v) (v_queue v) (v_sm v)
       (if payload_end p then delete cid (v_bm v) else v_bm v)
       (v_bl v) (upd (v_deque v) h (v_deque v h ++ [p])) (v_next v) (v_pool v)).
Proof.
  intros [I1 I2 I3 I4 I5 I6 I7 I8 I9 I10 I11 I12 I13] Hbm Hp.
  destruct (I2 _ _ Hbm) as (Hin & Hcid & Hfree).
  destruct (I3 _ Hin) as (Hne & Hlt & Hel & Hone).
  constructor; simpl; try assumption.
  - intros c b Hc. specialize (I1 _ _ Hc).
    destruct (payload_end p); [|assumption].
    apply lookup_delete_None. right; assumption.
  - intros c h' Hc. apply forget_lookup in Hc as [Hc Hcne].
    destruct (I2 _ _ Hc) as (H1 & H2 & H3). split; [assumption|].
    destruct (decide (h' = h)) as [->|Hh].
    + rewrite upd_eq. assert (c = cid) by (eapply cid_of_unique; eauto). subst c.
      destruct (payload_end p) eqn:Ep; [exfalso; apply Hcne; reflexivity|].
      split; [apply cid_of_snoc|apply end_free_snoc]; assumption.
    + rewrite upd_ne by assumption. split; assumption.
  - intros h' Hh'. destruct (decide (h' = h)) as [->|Hh].
    + rewrite upd_eq. split; [destruct (v_deque v h); discriminate|].
      split; [assumption|]. split; [apply end_last_snoc; assumption|].
      exists cid. apply cid_of_snoc; assumption.
    + rewrite upd_ne by assumption. apply I3. assumption.
  - intros h' x Hh'. destruct (decide (h' = h)) as [->|Hh].
    + rewrite upd_eq, last_snoc. intros [= <-] Hx. rewrite Hx, Hp. assumption.
    + rewrite upd_ne by assumption. intros Hlast Hx.
      specialize (I4 _ _ Hh' Hlast Hx). rewrite forget_lookup_ne; [assumption|].
      intros Heq. rewrite Heq, Hbm in I4. congruence.
Qed.

(** A free slot leaves the pool and is bound to a correlation ID that is
    in neither map. *)
Lemma inv_bind v cid bs pool' :
  InvV None v → v_pool v ≡ₚ bs :: pool' →
  v_sm v !! cid = None → v_bm v !! cid = None →
  InvV None
    (mkView (v_valid v) (v_queue v) (<[cid := bs]> (v_sm v)) (v_bm v)
       (v_bl v) (v_deque v) (v_next v) pool').
Proof.
  intros [I1 I2 I3 I4 I5 I6 I7 I8 I9 I10 I11 I12 I13] Hperm Hsm Hbm.
  assert (Hnd : NoDup (bs :: pool')) by (rewrite <- Hperm; assumption).
  apply NoDup_cons in Hnd as [Hnotin Hnd].
  assert (Hsub : ∀ b, b ∈ v_pool v ↔ b = bs ∨ b ∈ pool').
  { intros b. rewrite Hperm, elem_of_cons. reflexivity. }
  destruct (I7 bs (proj2 (Hsub bs) (or_introl eq_refl))) as (Hval & Hq & Hfree).
  constructor; simpl; try assumption.
  - intros c b Hc. apply lookup_insert_Some in Hc as [[<- <-]|[Hne Hc]]; eauto.
  - intros b Hb. destruct (I7 b (proj2 (Hsub b) (or_intror Hb))) as (H1 & H2 & H3).
    repeat split; try assumption. intros c Hc.
    apply lookup_insert_Some in Hc as [[<- <-]|[Hne Hc]]; [contradiction|].
    eapply H3; eauto.
  - intros c b Hc. apply lookup_insert_Some in Hc as [[<- <-]|[Hne Hc]]; [|eauto].
    rewrite Hq. repeat split; try assumption; constructor.
  - intros c c' b Hc Hc'.
    apply lookup_insert_Some in Hc as [[<- <-]|[Hne Hc]];
      apply lookup_insert_Some in Hc' as [[<- Hb]|[Hne' Hc']]; try reflexivity.
    + exfalso. eapply Hfree; eauto.
    + subst b. exfalso. eapply Hfree; eauto.
    + eauto.
  - intros b Hb. destruct (I10 b Hb) as [H|[[c H]|[H|H]]]; [| |right; right; left; assumption|discriminate].
    + apply Hsub in H as [->|H]; [|left; assumption].
      right; left. exists cid. apply lookup_insert_eq.
    + right; left. exists c. rewrite lookup_insert_ne; [assumption|]. congruence.
  - intros b [=].
Qed.

(** A new backlog queue is created for a payload whose correlation ID is
    in neither map. *)
Lemma inv_new_backlog v cid p :
  InvV None v → v_sm v !! cid = None → v_bm v !! cid = None → payload_cid p = cid →
  InvV None
    (mkView (v_valid v) (v_queue v) (v_sm v)
       (if payload_end p then v_bm v else <[cid := v_next v]> (v_bm v))
       (v_bl v ++ [v_next v]) (upd (v_deque v) (v_next v) [p]) (S (v_next v))
       (v_pool v)).
Proof.
  intros [I1 I2 I3 I4 I5 I6 I7 I8 I9 I10 I11 I12 I13] Hsm Hbm Hp.
  assert (Hfresh : v_next v ∉ v_bl v).
  { intros Hin. destruct (I3 _ Hin) as (_ & Hlt & _). lia. }
  assert (Hold : ∀ h, h ∈ v_bl v → h ≠ v_next v) by (intros h Hh ->; contradiction).
  constructor; simpl; try assumption.
  - intros c b Hc. specialize (I1 _ _ Hc).
    destruct (payload_end p); [assumption|].
    rewrite lookup_insert_ne; [assumption|]. congruence.
  - intros c h Hc.
    assert (Hcases : (payload_end p = false ∧ c = cid ∧ h = v_next v) ∨ v_bm v !! c = Some h).
    { destruct (payload_end p); [right; assumption|].
      apply lookup_insert_Some in Hc as [[<- <-]|[_ Hc]]; [left|right]; auto. }
    destruct Hcases as [(Hend & -> & ->)|Hc'].
    + rewrite upd_eq. split; [apply elem_of_app; right; apply list_elem_of_singleton; reflexivity|].
      split; (constructor; [assumption|constructor]).
    + destruct (I2 _ _ Hc') as (H1 & H2 & H3).
      rewrite upd_ne by (apply Hold; assumption).
      split; [apply elem_of_app; left; assumption|]. split; assumption.
  - intros h Hh. apply elem_of_app in Hh as [Hh|Hh].
    + rewrite upd_ne by (apply Hold; assumption).
      destruct (I3 _ Hh) as (H1 & H2 & H3 & H4). repeat split; try assumption. lia.
    + apply list_elem_of_singleton in Hh as ->. rewrite upd_eq.
      split; [discriminate|]. split; [lia|]. split; [simpl; auto|].
      exists cid. constructor; [assumption|constructor].
  - intros h x Hh. apply elem_of_app in Hh as [Hh|Hh].
    + rewrite upd_ne by (apply Hold; assumption). intros Hlast Hx.
      specialize (I4 _ _ Hh Hlast Hx). destruct (payload_end p); [assumption|].
      rewrite lookup_insert_ne; [assumption|]. intros Heq. rewrite <- Heq, Hbm in I4. discriminate.
    + apply list_elem_of_singleton in Hh as ->. rewrite upd_eq. simpl.
      intros [= <-] Hx. rewrite Hx, Hp. apply lookup_insert_eq.
  - apply NoDup_app. split; [assumption|]. split; [|apply NoDup_singleton].
    intros h Hh Hh'. apply list_elem_of_singleton in Hh'. subst h. contradiction.
Qed.

(** The worker pops a payload that does not carry END. *)
Lemma inv_pop v bs p rest :
  InvV None v → v_queue v bs = p :: rest → payload_end p = false →
  InvV None
    (mkView (v_valid v) (upd (v_queue v) bs rest) (v_sm v) (v_bm v)
       (v_bl v) (v_deque v) (v_next v) (v_pool v)).
Proof.
  intros [I1 I2 I3 I4 I5 I6 I7 I8 I9 I10 I11 I12 I13] Hq Hp.
  constructor; simpl; try assumption.
  - intros b Hb. destruct (I7 b Hb) as (H1 & H2 & H3).
    assert (b ≠ bs) by (intros ->; congruence).
    rewrite upd_ne by assumption. repeat split; assumption.
  - intros c b Hc. destruct (I8 _ _ Hc) as (H1 & H2 & H3). split; [assumption|].
    destruct (decide (b = bs)) as [->|Hb].
    + rewrite upd_eq. rewrite Hq in H2, H3.
      split; [inversion H2|inversion H3]; assumption.
    + rewrite upd_ne by assumption. split; assumption.
  - intros b Hb. destruct (decide (b = bs)) as [->|Hne].
    + rewrite upd_eq.
      destruct (I10 bs Hb) as [H|[H|[H|H]]]; [| |right; right; left|discriminate].
      * destruct (I7 bs H) as (_ & H2 & _). congruence.
      * right; left; assumption.
      * rewrite Hq in H. eapply ending_tail; eauto.
    + rewrite upd_ne by assumption. apply I10. assumption.
  - intros b. destruct (decide (b = bs)) as [->|Hne].
    + rewrite upd_eq. destruct (I11 bs) as [H1 H2]. rewrite Hq in H1, H2.
      split; [apply H1|eapply one_cid_tail; eauto].
    + rewrite upd_ne by assumption. apply I11.
  - intros b [=].
  - intros b. destruct (decide (b = bs)) as [->|Hne].
    + intros _. apply I13. rewrite Hq. discriminate.
    + rewrite upd_ne by assumption. apply I13.
Qed.

(** The worker pops a payload that carries END: the queue is empty and the
    slot has no owner until it is released. *)
Lemma inv_pop_end v bs p rest :
  InvV None v → v_valid v bs → v_queue v bs = p :: rest → payload_end p = true →
  rest = [] ∧
  InvV (Some bs)
    (mkView (v_valid v) (upd (v_queue v) bs []) (v_sm v) (v_bm v)
       (v_bl v) (v_deque v) (v_next v) (v_pool v)).
Proof.
  intros [I1 I2 I3 I4 I5 I6 I7 I8 I9 I10 I11 I12 I13] Hval Hq Hp.
  assert (Hrest : rest = []).
  { destruct (I11 bs) as [H1 _]. rewrite Hq in H1. apply H1. assumption. }
  assert (Hnb : ∀ c, v_sm v !! c ≠ Some bs).
  { intros c Hc. destruct (I8 _ _ Hc) as (_ & _ & H3). rewrite Hq in H3.
    inversion H3. congruence. }
  assert (Hnp : bs ∉ v_pool v).
  { intros Hin. destruct (I7 bs Hin) as (_ & H2 & _). congruence. }
  split; [assumption|].
  constructor; simpl; try assumption.
  - intros b Hb. destruct (I7 b Hb) as (H1 & H2 & H3).
    assert (b ≠ bs) by (intros ->; contradiction).
    rewrite upd_ne by assumption. repeat split; assumption.
  - intros c b Hc. destruct (I8 _ _ Hc) as (H1 & H2 & H3).
    assert (b ≠ bs) by (intros ->; eapply Hnb; eauto).
    rewrite upd_ne by assumption. repeat split; assumption.
  - intros b Hb. destruct (decide (b = bs)) as [->|Hne].
    + right; right; right. reflexivity.
    + rewrite upd_ne by assumption.
      destruct (I10 b Hb) as [H|[H|[H|H]]]; [left|right; left|right; right; left|discriminate];
        assumption.
  - intros b. destruct (decide (b = bs)) as [->|Hne].
    + rewrite upd_eq. split; [exact I|apply one_cid_nil].
    + rewrite upd_ne by assumption. apply I11.
  - intros b [= <-]. rewrite upd_eq. repeat split; assumption.
  - intros b. destruct (decide (b = bs)) as [->|Hne]; [intros _; assumption|].
    rewrite upd_ne by assumption. apply I13.
Qed.

(** The slot in limbo goes to the pool. *)
Lemma inv_release_pool v bs pool' :
  InvV (Some bs) v → pool' ≡ₚ bs :: v_pool v →
  InvV None
    (mkView (v_valid v) (v_queue v) (v_sm v) (v_bm v)
       (v_bl v) (v_deque v) (v_next v) pool').
Proof.
  intros [I1 I2 I3 I4 I5 I6 I7 I8 I9 I10 I11 I12 I13] Hperm.
  destruct (I12 bs eq_refl) as (Hval & Hq & Hnp & Hnb).
  assert (Hsub : ∀ b, b ∈ pool' ↔ b = bs ∨ b ∈ v_pool v).
  { intros b. rewrite Hperm, elem_of_cons. reflexivity. }
  constructor; simpl; try assumption.
  - rewrite Hperm. apply NoDup_cons. split; assumption.
  - intros b Hb. apply Hsub in Hb as [->|Hb]; [repeat split; assumption|]. apply I7; assumption.
  - intros b Hb. destruct (I10 b Hb) as [H|[H|[H|H]]].
    + left. apply Hsub. right; assumption.
    + right; left; assumption.
    + right; right; left; assumption.
    + injection H as <-. left. apply Hsub. left; reflexivity.
  - intros b [=].
Qed.

(** The slot in limbo takes the head queue of the backlog; if the last
    payload of that queue does not carry END, its correlation ID moves
    from the backlog map to the slot map. *)
Lemma inv_promote v bs h rest back :
  InvV (Some bs) v → v_bl v = h :: rest → last (v_deque v h) = Some back →
  InvV None
    (mkView (v_valid v) (upd (v_queue v) bs (v_deque v h))
       (if payload_end back then v_sm v else <[payload_cid back := bs]> (v_sm v))
       (if payload_end back then v_bm v else delete (payload_cid back) (v_bm v))
       rest (upd (v_deque v) h []) (v_next v) (v_pool v)).
Proof.
  intros [I1 I2 I3 I4 I5 I6 I7 I8 I9 I10 I11 I12 I13] Hbl Hlast.
  destruct (I12 bs eq_refl) as (Hval & Hq & Hnp & Hnb).
  assert (Hin : h ∈ v_bl v) by (rewrite Hbl; apply elem_of_cons; left; reflexivity).
  destruct (I3 _ Hin) as (Hne & Hlt & Hel & Hone).
  rewrite Hbl in I5. apply NoDup_cons in I5 as [Hnotin Hnd].
  assert (Hrest : ∀ h', h' ∈ rest → h' ∈ v_bl v ∧ h' ≠ h).
  { intros h' Hh'. split; [rewrite Hbl; apply elem_of_cons; right; assumption|].
    intros ->. contradiction. }
  set (cid := payload_cid back).
  assert (Hopen : payload_end back = false →
            v_bm v !! cid = Some h ∧ v_sm v !! cid = None ∧
            cid_of cid (v_deque v h) ∧ end_free (v_deque v h)).
  { intros He. pose proof (I4 _ _ Hin Hlast He) as Hbm. fold cid in Hbm.
    destruct (I2 _ _ Hbm) as (_ & H2 & H3). repeat split; try assumption.
    destruct (v_sm v !! cid) as [b|] eqn:E; [|reflexivity].
    rewrite (I1 _ _ E) in Hbm. discriminate. }
  assert (Hbmh : ∀ c h', (if payload_end back then v_bm v else delete cid (v_bm v)) !! c = Some h' →
            v_bm v !! c = Some h' ∧ h' ∈ rest).
  { intros c h' Hc.
    assert (Hc' : v_bm v !! c = Some h' ∧ (payload_end back = false → c ≠ cid)).
    { destruct (payload_end back); [split; [assumption|discriminate]|].
      apply lookup_delete_Some in Hc as [Hx Hc]. split; [assumption|]. intros _. congruence. }
    destruct Hc' as [Hc' Hcne]. split; [assumption|].
    destruct (I2 _ _ Hc') as (H1 & H2 & H3).
    rewrite Hbl in H1. apply elem_of_cons in H1 as [->|H1]; [|assumption].
    exfalso. destruct (payload_end back) eqn:Eb.
    - eapply end_free_not_ending; [exact H3|]. exists back. split; assumption.
    - destruct (Hopen eq_refl) as (_ & _ & Hc2 & _). apply Hcne; [reflexivity|].
      eapply cid_of_unique; eauto. }
  assert (Hsmb : ∀ c b, (if payload_end back then v_sm v else <[cid := bs]> (v_sm v)) !! c = Some b →
            (payload_end back = false ∧ c = cid ∧ b = bs) ∨ (v_sm v !! c = Some b ∧ b ≠ bs)).
  { intros c b Hc.
    assert (Hold : v_sm v !! c = Some b → v_sm v !! c = Some b ∧ b ≠ bs).
    { intros Hx. split; [assumption|]. intros ->. eapply Hnb; eauto. }
    destruct (payload_end back); [right; auto|].
    apply lookup_insert_Some in Hc as [[<- <-]|[_ Hc]]; [left; auto|right; auto]. }
  constructor; simpl; fold cid; try assumption.
  - intros c b Hc. destruct (Hsmb _ _ Hc) as [(He & -> & ->)|[Hc' _]].
    + rewrite He. apply lookup_delete_eq.
    + specialize (I1 _ _ Hc'). destruct (payload_end back); [assumption|].
      apply lookup_delete_None. right; assumption.
  - intros c h' Hc. destruct (Hbmh _ _ Hc) as [Hc' Hh'].
    destruct (Hrest _ Hh') as [_ Hneq]. rewrite upd_ne by assumption.
    destruct (I2 _ _ Hc') as (H1 & H2 & H3). repeat split; assumption.
  - intros h' Hh'. destruct (Hrest _ Hh') as [Hh'' Hneq]. rewrite upd_ne by assumption.
    apply I3. assumption.
  - intros h' x Hh'. destruct (Hrest _ Hh') as [Hh'' Hneq]. rewrite upd_ne by assumption.
    intros Hl Hx. specialize (I4 _ _ Hh'' Hl Hx).
    destruct (payload_end back) eqn:Eb; [assumption|].
    rewrite lookup_delete_ne; [assumption|]. intros Heq.
    destruct (Hopen eq_refl) as (Hbm & _). rewrite Heq, I4 in Hbm. congruence.
  - intros b Hb. destruct (I7 b Hb) as (H1 & H2 & H3).
    assert (b ≠ bs) by (intros ->; contradiction).
    rewrite upd_ne by assumption. repeat split; try assumption.
    intros c Hc. destruct (Hsmb _ _ Hc) as [(_ & _ & ->)|[Hc' _]]; [congruence|].
    eapply H3; eauto.
  - intros c b Hc. destruct (Hsmb _ _ Hc) as [(He & -> & ->)|[Hc' Hb]].
    + rewrite upd_eq. destruct (Hopen He) as (_ & _ & H2 & H3). repeat split; assumption.
    + rewrite upd_ne by assumption. apply I8. assumption.
  - intros c c' b Hc Hc'.
    destruct (Hsmb _ _ Hc) as [(He & -> & ->)|[Hc1 Hb1]];
      destruct (Hsmb _ _ Hc') as [(He' & -> & Hb')|[Hc2 Hb2]];
      try reflexivity; try congruence. eauto.
  - intros b Hb. destruct (decide (b = bs)) as [->|Hneq].
    + rewrite upd_eq. destruct (payload_end back) eqn:Eb.
      * right; right; left. exists back. split; assumption.
      * right; left. exists cid. apply lookup_insert_eq.
    + rewrite upd_ne by assumption.
      destruct (I10 b Hb) as [H|[[c H]|[H|H]]]; [left; assumption| |right; right; left; assumption|congruence].
      right; left. exists c. destruct (payload_end back) eqn:Eb; [assumption|].
      rewrite lookup_insert_ne; [assumption|]. intros <-.
      destruct (Hopen eq_refl) as (_ & Hx & _). congruence.
  - intros b. destruct (decide (b = bs)) as [->|Hneq].
    + rewrite upd_eq. split; assumption.
    + rewrite upd_ne by assumption. apply I11.
  - intros b [=].
  - intros b. destruct (decide (b = bs)) as [->|Hneq]; [intros _; assumption|].
    rewrite upd_ne by assumption. apply I13.
Qed.

(** ** The invariant on scheduler states *)

Section Invariant.
Context {P : Type} `{!ReadyPool P}.
Implicit Types (s : Scheduler P) (sb : SequenceBatch) (bs : BatchSlot).

(** The slots that exist. *)
Definition valid_slot (s : Scheduler P) (bs : BatchSlot) : Prop :=
  ∃ sb, batchers_ s !! batcher_idx_ bs = Some sb ∧
        (slot_ bs < length (queues_ sb))%nat.

Definition view_of (s : Scheduler P) : View :=
  mkView (valid_slot s) (slot_queue s)
    (sequence_to_batchslot_map_ s) (sequence_to_backlog_map_ s)
    (backlog_queues_ s) (backlog_deque s) (next_backlog s)
    (pool_slots (ready_batch_slots_ s)).

(** There are [rc] batchers of [bsz] slots each, batcher [b] knows its
    index, and [max_active_slot_] is a slot index or [-1]. *)
Definition shape (rc bsz : nat) (s : Scheduler P) : Prop :=
  length (batchers_ s) = rc ∧
  ∀ b sb, batchers_ s !! b = Some sb →
    sb_batcher_idx_ sb = b ∧ length (queues_ sb) = bsz ∧
    length (active_slots_ sb) = bsz ∧
    -1 ≤ max_active_slot_ sb < Z.of_nat bsz.

Definition Inv (rc bsz : nat) (limbo : option BatchSlot) (s : Scheduler P) : Prop :=
  shape rc bsz s ∧ InvV limbo (view_of s).

Lemma valid_slot_shape rc bsz s bs :
  shape rc bsz s →
  valid_slot s bs ↔ (batcher_idx_ bs < rc)%nat ∧ (slot_ bs < bsz)%nat.
Proof.
  intros [Hlen Hsb]. unfold valid_slot. split.
  - intros (sb & Hb & Hs). destruct (Hsb _ _ Hb) as (_ & Hq & _).
    split; [rewrite <- Hlen; eapply lookup_lt_Some; eauto|lia].
  - intros [Hb Hs]. rewrite <- Hlen in Hb. apply lookup_lt_is_Some in Hb as [sb Hb].
    exists sb. destruct (Hsb _ _ Hb) as (_ & Hq & _). split; [assumption|lia].
Qed.

(** Batcher [b] is replaced by [sb'], which differs from the old one at
    most in the queue of [slot]. *)
Lemma put_batcher_view rc bsz b slot sb sb' s s1 :
  shape rc bsz s → batchers_ s1 = batchers_ s →
  batchers_ s !! b = Some sb →
  sb_batcher_idx_ sb' = sb_batcher_idx_ sb →
  length (queues_ sb') = length (queues_ sb) →
  length (active_slots_ sb') = length (active_slots_ sb) →
  -1 ≤ max_active_slot_ sb' < Z.of_nat bsz →
  (∀ j, j ≠ slot → sb_queue sb' j = sb_queue sb j) →
  shape rc bsz (put_batcher b sb' s1) ∧
  (∀ bs, valid_slot (put_batcher b sb' s1) bs ↔ valid_slot s bs) ∧
  (∀ bs, slot_queue (put_batcher b sb' s1) bs =
         upd (slot_queue s) (mkSlot b slot) (sb_queue sb' slot) bs).
Proof.
  intros [Hlen Hsh] Hb1 Hsb Hidx Hlq Hla Hmax Hq.
  assert (Hlt : (b < length (batchers_ s))%nat) by (eapply lookup_lt_Some; eauto).
  assert (Hlk : ∀ b', batchers_ (put_batcher b sb' s1) !! b' =
                      if decide (b' = b) then Some sb' else batchers_ s !! b').
  { intros b'. unfold put_batcher. simpl. rewrite Hb1. case_decide as Hd.
    - subst b'. apply list_lookup_insert_eq. assumption.
    - apply list_lookup_insert_ne. congruence. }
  destruct (Hsh _ _ Hsb) as (Hi & Hql & Hal & Hm).
  split; [|split].
  - split.
    + unfold put_batcher. simpl. rewrite length_insert, Hb1. assumption.
    + intros b' sb0. rewrite Hlk. case_decide as Hd.
      * intros [= <-]. subst b'. repeat split; try lia; congruence.
      * apply Hsh.
  - intros bs. unfold valid_slot. rewrite Hlk. case_decide as Hd.
    + rewrite Hd, Hsb. split; intros (x & [= <-] & Hx); eexists; (split; [reflexivity|lia]).
    + reflexivity.
  - intros bs. unfold slot_queue at 1. rewrite Hlk. unfold upd.
    destruct bs as [b' j]. simpl. case_decide as Hd.
    + subst b'. case_decide as Hd2.
      * injection Hd2 as ->. reflexivity.
      * unfold slot_queue. simpl. rewrite Hsb. apply Hq. congruence.
    + rewrite decide_False by congruence. reflexivity.
Qed.

Lemma slot_queue_valid s bs : slot_queue s bs ≠ [] → valid_slot s bs.
Proof.
  unfold slot_queue, valid_slot, sb_queue.
  destruct (batchers_ s !! batcher_idx_ bs) as [sb|]; [|congruence].
  destruct (queues_ sb !! slot_ bs) eqn:E; simpl; [|congruence].
  intros _. exists sb. split; [reflexivity|]. eapply lookup_lt_Some; eauto.
Qed.

Lemma sb_queue_slot_queue s b sb slot :
  batchers_ s !! b = Some sb → slot_queue s (mkSlot b slot) = sb_queue sb slot.
Proof. intros H. unfold slot_queue. simpl. rewrite H. reflexivity. Qed.

Lemma SequenceBatch_Enqueue_queue slot payload sb j :
  (slot < length (queues_ sb))%nat →
  sb_queue (SequenceBatch_Enqueue slot payload sb) j =
  if decide (j = slot) then sb_queue sb slot ++ [payload] else sb_queue sb j.
Proof.
  intros Hlt. unfold SequenceBatch_Enqueue, sb_queue.
  destruct (max_active_slot_ sb =? -1); simpl; case_decide as Hd.
  - subst j. rewrite list_lookup_alter_eq.
    apply lookup_lt_is_Some in Hlt as [q ->]. reflexivity.
  - rewrite list_lookup_alter_ne by congruence. reflexivity.
  - subst j. rewrite list_lookup_alter_eq.
    apply lookup_lt_is_Some in Hlt as [q ->]. reflexivity.
  - rewrite list_lookup_alter_ne by congruence. reflexivity.
Qed.

Lemma SequenceBatch_Enqueue_static slot payload sb :
  sb_batcher_idx_ (SequenceBatch_Enqueue slot payload sb) = sb_batcher_idx_ sb ∧
  length (queues_ (SequenceBatch_Enqueue slot payload sb)) = length (queues_ sb) ∧
  length (active_slots_ (SequenceBatch_Enqueue slot payload sb)) =
    length (active_slots_ sb) ∧
  max_active_slot_ (SequenceBatch_Enqueue slot payload sb) =
    Z.max (max_active_slot_ sb) (Z.of_nat slot) ∧
  sb_overrides_ (SequenceBatch_Enqueue slot payload sb) = sb_overrides_ sb.
Proof.
  unfold SequenceBatch_Enqueue.
  destruct (max_active_slot_ sb =? -1); simpl;
    rewrite length_alter, length_insert; repeat split; reflexivity.
Qed.

(** The view after [batchers_[b]->Enqueue]. *)
Lemma batcher_Enqueue_view rc bsz target payload s :
  shape rc bsz s → valid_slot s target →
  let s' := (batcher_Enqueue target payload s).1 in
  shape rc bsz s' ∧
  view_equiv (view_of s')
    (mkView (valid_slot s)
       (upd (slot_queue s) target (slot_queue s target ++ [payload]))
       (sequence_to_batchslot_map_ s) (sequence_to_backlog_map_ s)
       (backlog_queues_ s) (backlog_deque s) (next_backlog s)
       (pool_slots (ready_batch_slots_ s))).
Proof.
  intros Hsh (sb & Hsb & Hlt). unfold batcher_Enqueue. rewrite Hsb. simpl.
  destruct (SequenceBatch_Enqueue_static (slot_ target) payload sb) as (E1 & E2 & E3 & E4 & _).
  destruct (proj2 Hsh _ _ Hsb) as (Hi & Hql & Hal & Hm).
  destruct (put_batcher_view rc bsz (batcher_idx_ target) (slot_ target) sb
              (SequenceBatch_Enqueue (slot_ target) payload sb) s s Hsh eq_refl Hsb)
    as (H1 & H2 & H3); try assumption.
  { rewrite E4. lia. }
  { intros j Hj. rewrite SequenceBatch_Enqueue_queue by assumption.
    rewrite decide_False by assumption. reflexivity. }
  split; [exact H1|].
  constructor; simpl; try reflexivity.
  - exact H2.
  - intros bs. unfold put_batcher in H3. rewrite H3.
    rewrite SequenceBatch_Enqueue_queue, decide_True by (assumption || reflexivity).
    destruct target as [tb ts]. simpl in *.
    rewrite (sb_queue_slot_queue s tb sb ts Hsb). reflexivity.
Qed.

Lemma view_equiv_sym v v' : view_equiv v v' → view_equiv v' v.
Proof.
  intros [H1 H2 H3 H4 H5 H6 H7 H8]. constructor; try (symmetry; assumption).
  - intros bs. symmetry. apply H1.
  - intros bs. symmetry. apply H2.
  - intros h. symmetry. apply H6.
Qed.

Lemma Enqueue_not_accepted stats rp resp cb s :
  accepted s rp = false →
  ∃ msg, Enqueue stats rp resp cb s = (s, [EvOnComplete cb (InvalidArgument msg)]).
Proof.
  unfold accepted, Enqueue, request_cid, request_start. intros Hacc.
  destruct (batch_size (RequestHeader rp) =? 1); simpl in *; [|eauto].
  destruct (correlation_id (RequestHeader rp) =? 0); simpl in *; [eauto|].
  apply orb_false_iff in Hacc as [Hst Hk].
  apply known_sequence_false in Hk as [Hsb Hbl].
  rewrite Hst, Hsb, Hbl. simpl. eauto.
Qed.

Lemma enqueue_to_slot_inv rc bsz target cid p s :
  Inv rc bsz None s →
  sequence_to_batchslot_map_ s !! cid = Some target → payload_cid p = cid →
  Inv rc bsz None (enqueue_to_slot target cid (payload_end p) p s).1.
Proof.
  intros [Hsh HI] Hsm Hp. unfold enqueue_to_slot.
  set (s1 := if payload_end p
             then set_batchslot_map (delete cid (sequence_to_batchslot_map_ s)) s else s).
  assert (Hb1 : batchers_ s1 = batchers_ s) by (subst s1; destruct (payload_end p); reflexivity).
  assert (Hsh1 : shape rc bsz s1) by (unfold shape; rewrite Hb1; exact Hsh).
  assert (Hval : valid_slot s1 target).
  { unfold valid_slot. rewrite Hb1. apply (vi_bound _ _ HI cid target Hsm). }
  destruct (batcher_Enqueue_view rc bsz target p s1 Hsh1 Hval) as [Hsh' Heq].
  split; [exact Hsh'|].
  eapply InvV_equiv; [apply view_equiv_sym; exact Heq|].
  pose proof (inv_append_bound (view_of s) cid target p HI Hsm Hp) as HI'.
  simpl in HI'. subst s1. destruct (payload_end p); exact HI'.
Qed.

(** [Enqueue] keeps the invariant. *)
Lemma Enqueue_inv rc bsz stats rp resp cb s :
  Inv rc bsz None s → Inv rc bsz None (Enqueue stats rp resp cb s).1.
Proof.
  intros HI. destruct (accepted s rp) eqn:Hacc.
  2:{ destruct (Enqueue_not_accepted stats rp resp cb s Hacc) as [msg ->]. exact HI. }
  rewrite (Enqueue_accepted _ _ _ _ _ Hacc). cbv zeta.
  set (cid := request_cid rp). set (p := request_payload stats rp resp cb).
  assert (Hpc : payload_cid p = cid) by reflexivity.
  assert (Hpe : request_end rp = payload_end p) by reflexivity.
  rewrite Hpe.
  destruct (sequence_to_batchslot_map_ s !! cid) as [target|] eqn:Esm.
  { pose proof (enqueue_to_slot_inv rc bsz target cid p s HI Esm Hpc) as H.
    destruct (enqueue_to_slot target cid (payload_end p) p s). exact H. }
  destruct (sequence_to_backlog_map_ s !! cid) as [h|] eqn:Ebm.
  { destruct HI as [Hsh HI]. split.
    { destruct (payload_end p); exact Hsh. }
    pose proof (inv_append_backlog (view_of s) cid h p HI Ebm Hpc) as HI'.
    eapply InvV_equiv; [|exact HI'].
    constructor; simpl; try reflexivity; try (destruct (payload_end p); reflexivity).
    intros h'. unfold upd.
    case_decide as Hd'.
    - subst h'. destruct (payload_end p); unfold backlog_deque; simpl;
        rewrite lookup_insert_eq; reflexivity.
    - destruct (payload_end p); unfold backlog_deque; simpl;
        rewrite lookup_insert_ne by congruence; reflexivity. }
  destruct (pool_top (ready_batch_slots_ s)) as [slot|] eqn:Etop.
  { set (s2 := set_ready_slots _ _).
    assert (HI2 : Inv rc bsz None s2).
    { destruct HI as [Hsh HI]. split; [exact Hsh|].
      apply (inv_bind (view_of s) cid slot (pool_slots (pool_pop (ready_batch_slots_ s))));
        try assumption.
      apply pool_top_pop. assumption. }
    assert (Esm2 : sequence_to_batchslot_map_ s2 !! cid = Some slot) by apply lookup_insert_eq.
    pose proof (enqueue_to_slot_inv rc bsz slot cid p s2 HI2 Esm2 Hpc) as H.
    destruct (enqueue_to_slot slot cid (payload_end p) p s2). exact H. }
  destruct HI as [Hsh HI]. split.
  { destruct (payload_end p); exact Hsh. }
  pose proof (inv_new_backlog (view_of s) cid p HI Esm Ebm Hpc) as HI'.
  eapply InvV_equiv; [|exact HI'].
  constructor; simpl; try reflexivity; try (destruct (payload_end p); reflexivity).
  intros h'. unfold upd. case_decide as Hd'.
  - subst h'. destruct (payload_end p); unfold backlog_deque; simpl;
      rewrite lookup_insert_eq; reflexivity.
  - destruct (payload_end p); unfold backlog_deque; simpl;
      rewrite lookup_insert_ne by congruence; reflexivity.
Qed.

Lemma sb_queue_insert_eq sb q slot :
  (slot < length (queues_ sb))%nat →
  sb_queue (sb_set_queues (<[slot := q]> (queues_ sb)) sb) slot = q.
Proof.
  intros Hlt. unfold sb_queue. simpl. rewrite list_lookup_insert_eq by assumption.
  reflexivity.
Qed.

Lemma upd_upd {A B : Type} `{EqDecision A} (f : A → B) x v v' y :
  upd (upd f x v) x v' y = upd f x v' y.
Proof. unfold upd. case_decide; reflexivity. Qed.

(** One slot of a sweep keeps the invariant. *)
Lemma process_slot_inv rc bsz b w slot :
  Inv rc bsz None (sw_sched w) → Inv rc bsz None (sw_sched (process_slot b w slot)).
Proof.
  intros HI. unfold process_slot.
  destruct (batchers_ (sw_sched w) !! b) as [sb|] eqn:Hsb; [|exact HI].
  destruct (sb_queue sb slot) as [|p rest] eqn:Eq; [exact HI|].
  set (s := sw_sched w) in *. destruct HI as [Hsh HI].
  set (bs := mkSlot b slot).
  assert (Hsq : slot_queue s bs = p :: rest).
  { unfold bs. rewrite (sb_queue_slot_queue s b sb slot Hsb). exact Eq. }
  assert (Hval : valid_slot s bs) by (apply slot_queue_valid; rewrite Hsq; discriminate).
  assert (Hlt : (slot < length (queues_ sb))%nat).
  { destruct Hval as (sb0 & Hsb0 & Hlt). simpl in Hsb0. rewrite Hsb in Hsb0.
    injection Hsb0 as <-. exact Hlt. }
  destruct (proj2 Hsh _ _ Hsb) as (Hidx & Hql & Hal & Hmax).
  assert (Hput : ∀ q' (a : list bool) s1,
            batchers_ s1 = batchers_ s → length a = length (active_slots_ sb) →
            let sb' := sb_set_active a (sb_set_queues (<[slot := q']> (queues_ sb)) sb) in
            shape rc bsz (put_batcher b sb' s1) ∧
            (∀ x, valid_slot (put_batcher b sb' s1) x ↔ valid_slot s x) ∧
            (∀ x, slot_queue (put_batcher b sb' s1) x = upd (slot_queue s) bs q' x)).
  { intros q' a s1 Hb1 Ha sb'.
    destruct (put_batcher_view rc bsz b slot sb sb' s s1 Hsh Hb1 Hsb) as (H1 & H2 & H3);
      try (subst sb'; simpl; rewrite ?length_insert; try reflexivity; assumption).
    { intros j Hj. subst sb'. unfold sb_queue. simpl.
      rewrite list_lookup_insert_ne by congruence. reflexivity. }
    split; [exact H1|]. split; [exact H2|].
    intros x. rewrite H3. subst sb'. unfold sb_queue at 1. simpl.
    rewrite list_lookup_insert_eq by assumption. reflexivity. }
  destruct (payload_end p) eqn:Eend.
  - destruct (inv_pop_end (view_of s) bs p rest HI Hval Hsq Eend) as [-> HI1].
    rewrite Hidx. fold bs. unfold ReleaseBatchSlot.
    destruct (backlog_queues_ s) as [|h t] eqn:Ebl.
    + (* no backlog: the slot returns to the pool *)
      simpl.
      edestruct (Hput [] (<[slot := false]> (active_slots_ sb))
                   (set_ready_slots (pool_push bs (ready_batch_slots_ s)) s))
        as (H1 & H2 & H3); [reflexivity|apply length_insert|].
      split; [exact H1|].
      eapply InvV_equiv;
        [|apply (inv_release_pool _ bs (pool_slots (pool_push bs (ready_batch_slots_ s))) HI1);
          apply pool_push_slots].
      constructor; simpl; try reflexivity.
      * intros x. symmetry. apply H2.
      * intros x. symmetry. apply H3.
    + assert (Hin : h ∈ backlog_queues_ s) by (rewrite Ebl; apply elem_of_cons; left; reflexivity).
      destruct (vi_bl _ _ HI h Hin) as (Hne & _).
      destruct (last (backlog_deque s h)) as [back|] eqn:Elast.
      2:{ apply last_None in Elast. simpl in Hne. contradiction. }
      pose proof (inv_promote _ bs h t back HI1 Ebl Elast) as HI2. simpl in HI2.
      destruct (payload_end back) eqn:Eb; simpl.
      * edestruct (Hput (backlog_deque s h) (active_slots_ sb)
                     (set_backlog_queues t
                        (set_backlog_store (<[h := []]> (backlog_store s)) s)))
          as (H1 & H2 & H3); [reflexivity|reflexivity|].
        split; [destruct sb; exact H1|].
        eapply InvV_equiv; [|exact HI2].
        constructor; simpl; try reflexivity.
        -- intros x. symmetry. destruct sb. apply H2.
        -- intros x. rewrite upd_upd. symmetry. destruct sb. apply H3.
        -- intros h'. unfold upd, backlog_deque. simpl. case_decide as Hd.
           ++ subst h'. rewrite lookup_insert_eq. reflexivity.
           ++ rewrite lookup_insert_ne by congruence. reflexivity.
      * edestruct (Hput (backlog_deque s h) (active_slots_ sb)
                     (set_batchslot_map
                        (<[payload_cid back := bs]> (sequence_to_batchslot_map_ s))
                        (set_backlog_map
                           (delete (payload_cid back) (sequence_to_backlog_map_ s))
                           (set_backlog_queues t
                              (set_backlog_store (<[h := []]> (backlog_store s)) s)))))
          as (H1 & H2 & H3); [reflexivity|reflexivity|].
        split; [destruct sb; exact H1|].
        eapply InvV_equiv; [|exact HI2].
        constructor; simpl; try reflexivity.
        -- intros x. symmetry. destruct sb. apply H2.
        -- intros x. rewrite upd_upd. symmetry. destruct sb. apply H3.
        -- intros h'. unfold upd, backlog_deque. simpl. case_decide as Hd.
           ++ subst h'. rewrite lookup_insert_eq. reflexivity.
           ++ rewrite lookup_insert_ne by congruence. reflexivity.
  - simpl.
    edestruct (Hput rest (active_slots_ sb) s) as (H1 & H2 & H3); [reflexivity|reflexivity|].
    split; [destruct sb; exact H1|].
    eapply InvV_equiv; [|exact (inv_pop _ bs p rest HI Hsq Eend)].
    constructor; simpl; try reflexivity.
    + intros x. symmetry. destruct sb. apply H2.
    + intros x. symmetry. destruct sb. apply H3.
Qed.

Lemma put_batcher_same_queues rc bsz b sb sb' s s1 :
  shape rc bsz s → batchers_ s1 = batchers_ s →
  batchers_ s !! b = Some sb →
  sb_batcher_idx_ sb' = sb_batcher_idx_ sb →
  queues_ sb' = queues_ sb →
  length (active_slots_ sb') = length (active_slots_ sb) →
  -1 ≤ max_active_slot_ sb' < Z.of_nat bsz →
  shape rc bsz (put_batcher b sb' s1) ∧
  (∀ bs, valid_slot (put_batcher b sb' s1) bs ↔ valid_slot s bs) ∧
  (∀ bs, slot_queue (put_batcher b sb' s1) bs = slot_queue s bs).
Proof.
  intros Hsh Hb1 Hsb Hidx Hq Hla Hmax.
  destruct (put_batcher_view rc bsz b 0%nat sb sb' s s1 Hsh Hb1 Hsb) as (H1 & H2 & H3);
    try assumption.
  { rewrite Hq. reflexivity. }
  { intros j _. unfold sb_queue. rewrite Hq. reflexivity. }
  split; [exact H1|]. split; [exact H2|].
  intros bs. rewrite H3. unfold upd. case_decide as Hd; [|reflexivity].
  subst bs. rewrite (sb_queue_slot_queue s b sb 0 Hsb). unfold sb_queue. rewrite Hq. reflexivity.
Qed.

Lemma sweep_inv rc bsz b slots : ∀ w,
  Inv rc bsz None (sw_sched w) →
  Inv rc bsz None (sw_sched (foldl (process_slot b) w slots)).
Proof.
  induction slots as [|slot slots IH]; intros w HI; simpl; [exact HI|].
  apply IH. apply process_slot_inv. exact HI.
Qed.

Lemma DelayScheduler_state batcher_idx cnt total s :
  (DelayScheduler batcher_idx cnt total s).2 =
  set_request_cnts (<[batcher_idx := cnt]> (queue_request_cnts_ s)) s.
Proof.
  unfold DelayScheduler.
  repeat match goal with |- context [if ?c then _ else _] => destruct c end; reflexivity.
Qed.

(** One iteration of a worker keeps the invariant. *)
Lemma SchedulerThread_inv rc bsz b s :
  Inv rc bsz None s → Inv rc bsz None (SchedulerThread b s).1.
Proof.
  intros HI. unfold SchedulerThread.
  destruct (batchers_ s !! b) as [sb|] eqn:Hsb; [|exact HI].
  destruct (proj2 (proj1 HI) _ _ Hsb) as (Hidx & Hql & Hal & Hmax).
  destruct (0 <? delay_cnt sb)%nat.
  { pose proof (DelayScheduler_state (sb_batcher_idx_ sb)
                  (sum_list (length <$> queues_ sb)) (delay_cnt sb) s) as Hd.
    destruct (DelayScheduler _ _ _ s) as [wait s1]. simpl in Hd. subst s1. simpl.
    destruct HI as [Hsh HI].
    edestruct (put_batcher_same_queues rc bsz b sb
                 (if wait then sb else sb_set_delay_cnt 0 sb) s
                 (set_request_cnts
                    (<[sb_batcher_idx_ sb := sum_list (length <$> queues_ sb)]>
                       (queue_request_cnts_ s)) s))
      as (H1 & H2 & H3); try eassumption; try (destruct wait; reflexivity).
    { destruct wait; assumption. }
    split; [exact H1|].
    eapply InvV_equiv; [|exact HI].
    constructor; simpl; try reflexivity.
    - intros x. symmetry. apply H2.
    - intros x. symmetry. apply H3. }
  destruct (find_max_slot sb <? 0); [exact HI|].
  simpl. unfold sweep.
  pose proof (sweep_inv rc bsz b (seq 0 (Z.to_nat (find_max_slot sb + 1)))
                (mkSweep s [] false []) HI) as HI'.
  set (w := foldl (process_slot b) _ _) in *.
  destruct (sw_adjust w); [|exact HI'].
  destruct (batchers_ (sw_sched w) !! b) as [sb'|] eqn:Hsb'; [|exact HI'].
  destruct HI' as [Hsh' HI'].
  destruct (proj2 Hsh' _ _ Hsb') as (Hidx' & Hql' & Hal' & Hmax').
  edestruct (put_batcher_same_queues rc bsz b sb' (adjust_max_active_slot sb')
               (sw_sched w) (sw_sched w))
    as (H1 & H2 & H3); try eassumption; try reflexivity.
  { unfold adjust_max_active_slot. simpl.
    destruct (scan_down_spec (slot_active sb') (Z.to_nat (max_active_slot_ sb' + 1)))
      as (Hs & _). lia. }
  split; [exact H1|].
  eapply InvV_equiv; [|exact HI'].
  constructor; simpl; try reflexivity.
  - intros x. symmetry. apply H2.
  - intros x. symmetry. apply H3.
Qed.

(** Every slot of [rc] batchers of [bsz] slots. *)
Definition all_slots (rc bsz : nat) : list BatchSlot :=
  c ← seq 0 rc; mkSlot c <$> seq 0 bsz.

Lemma elem_of_all_slots rc bsz bs :
  bs ∈ all_slots rc bsz ↔ (batcher_idx_ bs < rc)%nat ∧ (slot_ bs < bsz)%nat.
Proof.
  unfold all_slots. rewrite list_elem_of_bind. split.
  - intros (c & Hbs & Hc). apply list_elem_of_fmap in Hbs as (j & -> & Hj).
    apply elem_of_seq in Hc, Hj. simpl. lia.
  - intros [Hb Hs]. exists (batcher_idx_ bs). split.
    + apply list_elem_of_fmap. exists (slot_ bs). split; [destruct bs; reflexivity|].
      apply elem_of_seq. lia.
    + apply elem_of_seq. lia.
Qed.

Lemma NoDup_all_slots rc bsz : NoDup (all_slots rc bsz).
Proof.
  unfold all_slots. apply NoDup_bind.
  - intros c c' bs _ _ H1 H2.
    apply list_elem_of_fmap in H1 as (j & -> & _).
    apply list_elem_of_fmap in H2 as (j' & [= -> _] & _). reflexivity.
  - intros c _. apply NoDup_fmap; [|apply NoDup_seq]. intros j j' [=]. assumption.
  - apply NoDup_seq.
Qed.

Lemma pool_push_all (l : list BatchSlot) : ∀ p : P,
  pool_slots (foldl (λ p x, pool_push x p) p l) ≡ₚ l ++ pool_slots p.
Proof.
  induction l as [|x l IH]; intros p; simpl; [reflexivity|].
  rewrite IH, pool_push_slots. symmetry. apply Permutation_middle.
Qed.

Lemma Create_pool bsz (cs : list nat) : ∀ p : P,
  foldl (λ p c, foldl (λ p b, pool_push (mkSlot c b) p) p (seq 0 bsz)) p cs =
  foldl (λ p x, pool_push x p) p (c ← cs; mkSlot c <$> seq 0 bsz).
Proof.
  induction cs as [|c cs IH]; intros p; simpl; [reflexivity|].
  rewrite foldl_app, IH. f_equal.
  generalize (seq 0 bsz). intros l. revert p.
  induction l as [|b l IHl]; intros p; simpl; [reflexivity|]. apply IHl.
Qed.

(** The state that [Create] builds satisfies the invariant. *)
Lemma Create_inv max_batch_size runner_cnt start_ctl ready_ctl backlog_delay delay s :
  Create max_batch_size runner_cnt start_ctl ready_ctl backlog_delay delay = inr s →
  Inv runner_cnt (Z.to_nat (Z.max 1 max_batch_size)) None s.
Proof.
  unfold Create. destruct (CreateControlTensors start_ctl ready_ctl) as [e|ct]; [discriminate|].
  intros [= <-]. set (bsz := Z.to_nat (Z.max 1 max_batch_size)).
  assert (Hlk : ∀ b sb,
            ((λ c, new_batch c bsz ct delay) <$> seq 0 runner_cnt) !! b = Some sb →
            (b < runner_cnt)%nat ∧ sb = new_batch b bsz ct delay).
  { intros b sb Hb. rewrite list_lookup_fmap in Hb.
    destruct (seq 0 runner_cnt !! b) as [c|] eqn:Ec; [|discriminate].
    apply lookup_seq in Ec as [-> Hlt]. simpl in Hb. injection Hb as <-. auto. }
  assert (Hsh : shape runner_cnt bsz
            (mkSched ∅ ∅ [] ∅ 0%nat
               (foldl (λ p c, foldl (λ p b, pool_push (mkSlot c b) p) p (seq 0 bsz))
                  pool_new (seq 0 runner_cnt))
               (replicate runner_cnt 0%nat) backlog_delay
               ((λ c, new_batch c bsz ct delay) <$> seq 0 runner_cnt))).
  { split; simpl.
    - rewrite length_fmap, length_seq. reflexivity.
    - intros b sb Hb. apply Hlk in Hb as [Hlt ->]. simpl.
      rewrite !length_replicate. repeat split; lia. }
  split; [exact Hsh|].
  assert (Hq : ∀ bs, slot_queue
            (mkSched ∅ ∅ [] ∅ 0%nat
               (foldl (λ p c, foldl (λ p b, pool_push (mkSlot c b) p) p (seq 0 bsz))
                  pool_new (seq 0 runner_cnt))
               (replicate runner_cnt 0%nat) backlog_delay
               ((λ c, new_batch c bsz ct delay) <$> seq 0 runner_cnt)) bs = []).
  { intros bs. unfold slot_queue. simpl.
    destruct (_ !! batcher_idx_ bs) as [sb|] eqn:Eb; [|reflexivity].
    apply Hlk in Eb as [_ ->]. unfold sb_queue. simpl.
    destruct (replicate bsz [] !! slot_ bs) as [q|] eqn:Eq; [|reflexivity].
    apply lookup_replicate in Eq as [-> _]. reflexivity. }
  assert (Hpool : pool_slots
            (foldl (λ p c, foldl (λ p b, pool_push (mkSlot c b) p) p (seq 0 bsz))
               (pool_new : P) (seq 0 runner_cnt)) ≡ₚ all_slots runner_cnt bsz).
  { rewrite Create_pool, pool_push_all, pool_new_slots, app_nil_r. reflexivity. }
  constructor; simpl.
  - intros cid bs Hc. rewrite lookup_empty in Hc. discriminate.
  - intros cid h Hc. rewrite lookup_empty in Hc. discriminate.
  - intros h Hh. inversion Hh.
  - intros h p Hh. inversion Hh.
  - constructor.
  - rewrite Hpool. apply NoDup_all_slots.
  - intros bs Hbs. rewrite Hpool in Hbs. split; [|split].
    + apply (valid_slot_shape _ _ _ bs Hsh). apply elem_of_all_slots. assumption.
    + apply Hq.
    + intros cid Hc. rewrite lookup_empty in Hc. discriminate.
  - intros cid bs Hc. rewrite lookup_empty in Hc. discriminate.
  - intros cid cid' bs Hc. rewrite lookup_empty in Hc. discriminate.
  - intros bs Hbs. left. rewrite Hpool. apply elem_of_all_slots.
    apply (valid_slot_shape _ _ _ bs Hsh). assumption.
  - intros bs. rewrite Hq. split; [exact I|apply one_cid_nil].
  - intros bs [=].
  - intros bs Hne. rewrite Hq in Hne. congruence.
Qed.

(** Every execution keeps the invariant. *)
Lemma step_inv rc bsz s o : Inv rc bsz None s → Inv rc bsz None (step s o).1.
Proof.
  intros HI. destruct o; simpl; [apply Enqueue_inv|apply SchedulerThread_inv]; exact HI.
Qed.

Lemma run_snoc s ops o :
  run s (ops ++ [o]) =
  ((step (run s ops).1 o).1, (run s ops).2 ++ (step (run s ops).1 o).2).
Proof.
  unfold run. rewrite foldl_app. simpl.
  destruct (step _ o). reflexivity.
Qed.

Lemma run_inv rc bsz s ops : Inv rc bsz None s → Inv rc bsz None (run s ops).1.
Proof.
  intros HI. induction ops as [|o ops IH] using rev_ind; [exact HI|].
  rewrite run_snoc. simpl. apply step_inv. exact IH.
Qed.


(** The points at which the state of the scheduler can be observed: after
    [Create], after a call of [Enqueue], after a worker has handled one
    slot of its sweep (the call of [ReleaseBatchSlot] included), and after
    a whole iteration of a worker. *)
Inductive observable (s0 : Scheduler P) : Scheduler P → Prop :=
| obs_create : observable s0 s0
| obs_enqueue s stats rp resp cb :
    observable s0 s → observable s0 (Enqueue stats rp resp cb s).1
| obs_slot s b payloads adjust log slot :
    observable s0 s →
    observable s0 (sw_sched (process_slot b (mkSweep s payloads adjust log) slot))
| obs_thread s b :
    observable s0 s → observable s0 (SchedulerThread b s).1.

Lemma observable_inv rc bsz s0 s :
  Inv rc bsz None s0 → observable s0 s → Inv rc bsz None s.
Proof.
  intros HI. induction 1 as [|s stats rp resp cb _ IH|s b payloads adjust log slot _ IH|s b _ IH].
  - exact HI.
  - apply Enqueue_inv. exact IH.
  - apply (process_slot_inv rc bsz b (mkSweep s payloads adjust log) slot). exact IH.
  - apply SchedulerThread_inv. exact IH.
Qed.

Lemma observable_run s0 ops : observable s0 (run s0 ops).1.
Proof.
  induction ops as [|o ops IH] using rev_ind; [apply obs_create|].
  rewrite run_snoc. simpl. destruct o; simpl; [apply obs_enqueue|apply obs_thread]; exact IH.
Qed.

(** At every observable point the queues of the backlog hold payloads:
    [ReleaseBatchSlot] never meets an empty head queue. *)
Lemma observable_head_nonempty max_batch_size runner_cnt start_ctl ready_ctl
    backlog_delay delay s0 s :
  Create max_batch_size runner_cnt start_ctl ready_ctl backlog_delay delay = inr s0 →
  observable s0 s →
  ∀ h, head (backlog_queues_ s) = Some h → backlog_deque s h ≠ [].
Proof.
  intros Hc Hobs h Hh.
  pose proof (observable_inv _ _ _ _ (Create_inv _ _ _ _ _ _ _ Hc) Hobs) as [_ HI].
  apply (vi_bl _ _ HI h). simpl.
  destruct (backlog_queues_ s) as [|x t]; [discriminate|].
  injection Hh as ->. apply elem_of_cons. left; reflexivity.
Qed.

(** C2.  Whenever [ReleaseBatchSlot] is called: if the backlog is not
    empty, its head queue is dequeued and handed to the caller and the
    result is [false]; exactly when the last payload of that queue does not
    carry END, the correlation ID of that payload is erased from the backlog
    map and bound to the released slot in the slot map, with an error
    logged if the slot map already held that correlation ID.  If the
    backlog is empty, the slot is pushed into the pool, the deque of the
    caller is left alone and the result is [true]. *)
Theorem ReleaseBatchSlot_spec max_batch_size runner_cnt start_ctl ready_ctl
    backlog_delay delay s0 s bs payloads :
  Create max_batch_size runner_cnt start_ctl ready_ctl backlog_delay delay = inr s0 →
  observable s0 s →
  let '(released, payloads', s', log) := ReleaseBatchSlot bs payloads s in
  match backlog_queues_ s with
  | h :: rest =>
    released = false ∧ payloads' = backlog_deque s h ∧
    backlog_queues_ s' = rest ∧
    ready_batch_slots_ s' = ready_batch_slots_ s ∧
    batchers_ s' = batchers_ s ∧
    ∃ back, last (backlog_deque s h) = Some back ∧
      if payload_end back then
        sequence_to_batchslot_map_ s' = sequence_to_batchslot_map_ s ∧
        sequence_to_backlog_map_ s' = sequence_to_backlog_map_ s ∧
        log = []
      else
        sequence_to_backlog_map_ s' =
          delete (payload_cid back) (sequence_to_backlog_map_ s) ∧
        sequence_to_batchslot_map_ s' =
          <[payload_cid back := bs]> (sequence_to_batchslot_map_ s) ∧
        log = match sequence_to_batchslot_map_ s !! payload_cid back with
              | Some _ => [EvLogError (msg_backlog_conflict back)]
              | None => []
              end
  | [] =>
    released = true ∧ payloads' = payloads ∧ log = [] ∧
    s' = set_ready_slots (pool_push bs (ready_batch_slots_ s)) s
  end.
Proof.
  intros Hc Hobs. apply ReleaseBatchSlot_promotes.
  eapply observable_head_nonempty; eauto.
Qed.

(** At every observable point the slots in the maps and in the pool exist,
    and [max_active_slot_] of each batcher is below its number of slots:
    the code indexes its vectors in range. *)
Lemma observable_in_range max_batch_size runner_cnt start_ctl ready_ctl
    backlog_delay delay s0 s :
  Create max_batch_size runner_cnt start_ctl ready_ctl backlog_delay delay = inr s0 →
  observable s0 s →
  shape runner_cnt (Z.to_nat (Z.max 1 max_batch_size)) s ∧
  (∀ cid bs, sequence_to_batchslot_map_ s !! cid = Some bs → valid_slot s bs) ∧
  (∀ bs, bs ∈ pool_slots (ready_batch_slots_ s) → valid_slot s bs).
Proof.
  intros Hc Hobs.
  pose proof (observable_inv _ _ _ _ (Create_inv _ _ _ _ _ _ _ Hc) Hobs) as [Hsh HI].
  split; [exact Hsh|]. split.
  - intros cid bs Hb. apply (vi_bound _ _ HI cid bs Hb).
  - intros bs Hb. apply (vi_pool _ _ HI bs Hb).
Qed.



End Invariant.

(** * The order of delivery *)

(** ** Where the payloads of one sequence are *)

(** A payload of the sequence [cid] that came through [Enqueue]: it has
    a completion function, which the placeholders lack. *)
Definition real_for (cid : Z) (p : Payload) : Prop :=
  complete_function_ p ≠ None ∧ payload_cid p = cid.

#[global] Instance real_for_dec cid p : Decision (real_for cid p).
Proof. unfold real_for. apply _. Defined.

Definition proj (cid : Z) (q : list Payload) : list Payload :=
  filter (real_for cid) q.

(** A payload without what the worker attaches to it: the request as it
    was submitted, up to the input overrides. *)
Definition strip (p : Payload) : Payload :=
  mkPayload (queue_timer_ p) (stats_ p)
    (mkProvider (ModelName (request_provider_ p)) (payload_header p)
       (is_null (request_provider_ p)) None)
    (response_provider_ p) (complete_function_ p).

(** The places where payloads wait: the queue of a slot, or a queue of the
    backlog. *)
Inductive Loc := LSlot (bs : BatchSlot) | LBacklog (h : nat).

#[global] Instance Loc_eq_dec : EqDecision Loc.
Proof. solve_decision. Defined.

Definition loc_ok (v : View) (l : Loc) : Prop :=
  match l with LSlot _ => True | LBacklog h => h ∈ v_bl v end.

Definition content (v : View) (l : Loc) : list Payload :=
  match l with LSlot bs => v_queue v bs | LBacklog h => v_deque v h end.

(** The waiting payloads of [cid] are [q], all in one place. *)
Definition sole (cid : Z) (v : View) (q : list Payload) : Prop :=
  (q = [] ∧ ∀ l, loc_ok v l → proj cid (content v l) = []) ∨
  (q ≠ [] ∧ ∃ l, loc_ok v l ∧ proj cid (content v l) = q ∧
     ∀ l', loc_ok v l' → l' ≠ l → proj cid (content v l') = []).

(** No payload of [cid] that carries END is waiting. *)
Definition no_end_waiting (cid : Z) (v : View) : Prop :=
  ∀ l p, loc_ok v l → p ∈ content v l → payload_cid p = cid → payload_end p = false.

Lemma proj_nil_dec cid (q : list Payload) : proj cid q = [] ∨ proj cid q ≠ [].
Proof. destruct (proj cid q); [left; reflexivity|right; discriminate]. Qed.

Lemma proj_snoc cid q p :
  proj cid (q ++ [p]) = proj cid q ++ (if decide (real_for cid p) then [p] else []).
Proof.
  unfold proj. rewrite filter_app. reflexivity.
Qed.

Lemma proj_cons cid p q :
  proj cid (p :: q) = (if decide (real_for cid p) then [p] else []) ++ proj cid q.
Proof. unfold proj. rewrite filter_cons. case_decide; reflexivity. Qed.

(** Steps that do not touch the places that hold payloads of [cid]. *)
Lemma sole_frame cid v v' q :
  sole cid v q →
  (∀ l, loc_ok v' l → proj cid (content v' l) ≠ [] →
        loc_ok v l ∧ proj cid (content v l) = proj cid (content v' l)) →
  (∀ l, loc_ok v l → proj cid (content v l) ≠ [] →
        loc_ok v' l ∧ proj cid (content v' l) = proj cid (content v l)) →
  sole cid v' q.
Proof.
  intros [[-> Hall]|(Hq & l & Hok & Hl & Hoth)] H1 H2.
  - left. split; [reflexivity|]. intros l Hl.
    destruct (proj_nil_dec cid (content v' l)) as [E|E]; [exact E|].
    destruct (H1 l Hl E) as [Hok Heq]. rewrite <- Heq. apply Hall. exact Hok.
  - right. split; [exact Hq|]. exists l.
    destruct (H2 l Hok) as [Hok' Heq]; [rewrite Hl; exact Hq|].
    split; [exact Hok'|]. split; [rewrite Heq; exact Hl|].
    intros l' Hl' Hne.
    destruct (proj_nil_dec cid (content v' l')) as [E|E]; [exact E|].
    destruct (H1 l' Hl' E) as [Hok2 Heq2]. rewrite <- Heq2. apply Hoth; assumption.
Qed.

(** A payload is appended at [l], the only place that may hold payloads
    of [cid]; [base] is what [l] held ([[]] if [l] is new). *)
Lemma sole_append cid v v' q l base p :
  sole cid v q → loc_ok v' l →
  (∀ l', loc_ok v l' → l' ≠ l → proj cid (content v l') = []) →
  (loc_ok v l ∧ base = content v l) ∨ (¬ loc_ok v l ∧ base = []) →
  content v' l = base ++ [p] →
  (∀ l', l' ≠ l → (loc_ok v' l' ↔ loc_ok v l') ∧ content v' l' = content v l') →
  real_for cid p →
  sole cid v' (q ++ [p]).
Proof.
  intros Hs Hok' Hno Hl Hc Hoth Hp.
  assert (Hq : proj cid base = q).
  { destruct Hs as [[-> Hall]|(Hq & l0 & Hok0 & Hl0 & _)].
    - destruct Hl as [[Hl ->]|[_ ->]]; [apply Hall; exact Hl|reflexivity].
    - destruct (decide (l0 = l)) as [->|Hne].
      + destruct Hl as [[_ ->]|[Hl _]]; [exact Hl0|contradiction].
      + rewrite (Hno l0 Hok0 Hne) in Hl0. congruence. }
  right. split; [destruct q; discriminate|]. exists l.
  split; [exact Hok'|]. split.
  - rewrite Hc, proj_snoc, decide_True by assumption. rewrite Hq. reflexivity.
  - intros l' Hl' Hne. destruct (Hoth l' Hne) as [Hok Heq]. rewrite Heq.
    apply Hno; [apply Hok; assumption|assumption].
Qed.

(** A payload of another sequence is appended at [l]. *)
Lemma sole_append_other cid v v' q l base p :
  sole cid v q → loc_ok v' l →
  (loc_ok v l ∧ base = content v l) ∨ (¬ loc_ok v l ∧ base = []) →
  content v' l = base ++ [p] →
  (∀ l', l' ≠ l → (loc_ok v' l' ↔ loc_ok v l') ∧ content v' l' = content v l') →
  ¬ real_for cid p →
  sole cid v' q.
Proof.
  intros Hs Hok' Hl Hc Hoth Hp.
  assert (Hpj : proj cid (content v' l) = proj cid base).
  { rewrite Hc, proj_snoc, decide_False by assumption. apply app_nil_r. }
  apply (sole_frame cid v v' q Hs).
  - intros l0 Hl0 Hne. destruct (decide (l0 = l)) as [->|Hd].
    + destruct Hl as [[Hl ->]|[_ ->]]; [split; [exact Hl|symmetry; exact Hpj]|].
      rewrite Hpj in Hne. contradiction.
    + destruct (Hoth l0 Hd) as [Hok Heq]. rewrite Heq. split; [apply Hok; assumption|reflexivity].
  - intros l0 Hl0 Hne. destruct (decide (l0 = l)) as [->|Hd].
    + split; [exact Hok'|]. destruct Hl as [[_ ->]|[Hl _]]; [exact Hpj|contradiction].
    + destruct (Hoth l0 Hd) as [Hok Heq]. rewrite Heq. split; [apply Hok; assumption|reflexivity].
Qed.



(** A place that holds a payload of [cid], where no payload of [cid] that
    carries END is waiting, is the slot or the backlog queue that a map
    binds to [cid]. *)
Lemma holder_is_bound cid v l :
  InvV None v → no_end_waiting cid v →
  loc_ok v l → proj cid (content v l) ≠ [] →
  match l with
  | LSlot bs => v_sm v !! cid = Some bs
  | LBacklog h => v_bm v !! cid = Some h
  end.
Proof.
  intros [I1 I2 I3 I4 I5 I6 I7 I8 I9 I10 I11 I12 I13] Hno Hok Hpj.
  assert (Hx : ∃ x, x ∈ content v l ∧ payload_cid x = cid).
  { destruct (proj cid (content v l)) as [|x r] eqn:E; [congruence|].
    assert (Hin : x ∈ proj cid (content v l)) by (rewrite E; apply elem_of_cons; left; reflexivity).
    apply list_elem_of_filter in Hin as [[_ Hc] Hin]. eauto. }
  destruct Hx as (x & Hx & Hxc).
  assert (Hlast : ∀ q c p, cid_of c q → x ∈ q → last q = Some p → payload_cid p = cid).
  { intros q c p Hc Hin Hl. unfold cid_of in Hc. rewrite Forall_forall in Hc.
    rewrite <- Hxc, (Hc x Hin). apply Hc.
    rewrite last_Some in Hl. destruct Hl as [l' ->].
    apply elem_of_app. right. apply list_elem_of_singleton. reflexivity. }
  assert (Hlin : ∀ (q : list Payload) p, last q = Some p → p ∈ q).
  { intros q p Hl. rewrite last_Some in Hl. destruct Hl as [l' ->].
    apply elem_of_app. right. apply list_elem_of_singleton. reflexivity. }
  destruct l as [bs|h]; simpl in *.
  - assert (Hne : v_queue v bs ≠ []) by (intros E; rewrite E in Hx; inversion Hx).
    destruct (I10 bs (I13 bs Hne)) as [H|[[c H]|[(p & Hl & Hp)|H]]]; [| | |discriminate].
    + destruct (I7 bs H) as (_ & E & _). contradiction.
    + destruct (I8 _ _ H) as (_ & Hc & _). unfold cid_of in Hc. rewrite Forall_forall in Hc.
      rewrite <- Hxc, (Hc x Hx). exact H.
    + destruct (I11 bs) as [_ [c Hc]].
      rewrite (Hno (LSlot bs) p I (Hlin _ _ Hl) (Hlast _ _ _ Hc Hx Hl)) in Hp. discriminate.
  - destruct (I3 h Hok) as (Hne & _ & _ & [c Hc]).
    destruct (last (v_deque v h)) as [p|] eqn:Hl; [|apply last_None in Hl; contradiction].
    pose proof (Hlast _ _ _ Hc Hx Hl) as Hpc.
    rewrite <- Hpc. apply (I4 h p Hok Hl).
    apply (Hno (LBacklog h) p Hok (Hlin _ _ Hl) Hpc).
Qed.

Section Fifo.
Context {P : Type} `{!ReadyPool P}.
Implicit Types (s : Scheduler P) (sb : SequenceBatch) (bs : BatchSlot).

(** Every payload that waits in a slot queue or in a queue of the
    backlog. *)
Definition pending_payloads (s : Scheduler P) : list Payload :=
  concat (sb ← batchers_ s; queues_ sb) ++
  concat (backlog_deque s <$> backlog_queues_ s).

(** A payload of [cid] that carries END is waiting. *)
Definition end_pending (s : Scheduler P) (cid : Z) : bool :=
  existsb (λ p, (payload_cid p =? cid) && payload_end p) (pending_payloads s).

Lemma slot_queue_pending s bs p : p ∈ slot_queue s bs → p ∈ pending_payloads s.
Proof.
  unfold slot_queue, sb_queue, pending_payloads. intros Hp.
  destruct (batchers_ s !! batcher_idx_ bs) as [sb|] eqn:Eb; [|inversion Hp].
  destruct (queues_ sb !! slot_ bs) as [q|] eqn:Eq; [|inversion Hp].
  simpl in Hp. apply elem_of_app. left. apply list_elem_of_In, in_concat.
  exists q. split; [|apply list_elem_of_In; assumption].
  apply list_elem_of_In, list_elem_of_bind. exists sb.
  split; eapply list_elem_of_lookup_2; eauto.
Qed.

Lemma backlog_deque_pending s h p :
  h ∈ backlog_queues_ s → p ∈ backlog_deque s h → p ∈ pending_payloads s.
Proof.
  intros Hh Hp. unfold pending_payloads. apply elem_of_app. right.
  apply list_elem_of_In, in_concat. exists (backlog_deque s h).
  split; [|apply list_elem_of_In; assumption].
  apply list_elem_of_In, list_elem_of_fmap. eauto.
Qed.

Lemma end_pending_false s cid :
  end_pending s cid = false → no_end_waiting cid (view_of s).
Proof.
  unfold end_pending. intros H l p Hok Hp Hc.
  assert (Hin : p ∈ pending_payloads s).
  { destruct l as [bs|h]; simpl in *;
      [eapply slot_queue_pending|eapply backlog_deque_pending]; eauto. }
  destruct (payload_end p) eqn:Ep; [|reflexivity].
  assert (Ht : existsb (λ p, (payload_cid p =? cid) && payload_end p) (pending_payloads s) = true).
  { apply existsb_exists. exists p. split; [apply list_elem_of_In; assumption|].
    rewrite Ep, andb_true_r. apply Z.eqb_eq. assumption. }
  congruence.
Qed.

Lemma enqueue_to_slot_view rc bsz target cid e p s :
  shape rc bsz s → valid_slot s target →
  let s' := (enqueue_to_slot target cid e p s).1 in
  (∀ bs, slot_queue s' bs = upd (slot_queue s) target (slot_queue s target ++ [p]) bs) ∧
  backlog_queues_ s' = backlog_queues_ s ∧
  (∀ h, backlog_deque s' h = backlog_deque s h).
Proof.
  intros Hsh Hval. unfold enqueue_to_slot.
  set (s1 := if e then set_batchslot_map (delete cid (sequence_to_batchslot_map_ s)) s else s).
  assert (Hb1 : batchers_ s1 = batchers_ s) by (subst s1; destruct e; reflexivity).
  assert (Hsh1 : shape rc bsz s1) by (unfold shape; rewrite Hb1; exact Hsh).
  assert (Hval1 : valid_slot s1 target) by (unfold valid_slot; rewrite Hb1; exact Hval).
  destruct (batcher_Enqueue_view rc bsz target p s1 Hsh1 Hval1) as [_ [_ Hq _ _ Hbl Hdq _ _]].
  simpl in *. split; [|split].
  - intros bs. rewrite Hq. unfold upd, slot_queue. rewrite Hb1. reflexivity.
  - rewrite Hbl. subst s1. destruct e; reflexivity.
  - intros h. rewrite Hdq. subst s1. destruct e; reflexivity.
Qed.

(** What an accepted request changes: its payload is appended at one
    place [l], which is bound to its correlation ID or new, and nothing
    else moves. *)
Lemma Enqueue_effect rc bsz stats rp resp cb s :
  Inv rc bsz None s → accepted s rp = true →
  let v := view_of s in
  let v' := view_of (Enqueue stats rp resp cb s).1 in
  ∃ l base,
    loc_ok v' l ∧
    content v' l = base ++ [request_payload stats rp resp cb] ∧
    ((loc_ok v l ∧ base = content v l) ∨ (¬ loc_ok v l ∧ base = [])) ∧
    (∀ l', l' ≠ l → (loc_ok v' l' ↔ loc_ok v l') ∧ content v' l' = content v l') ∧
    (∀ l', loc_ok v l' → l' ≠ l →
       match l' with
       | LSlot bs => v_sm v !! request_cid rp ≠ Some bs
       | LBacklog h => v_bm v !! request_cid rp ≠ Some h
       end).
Proof.
  intros [Hsh HI] Hacc v v'. subst v v'.
  rewrite (Enqueue_accepted _ _ _ _ _ Hacc). cbv zeta.
  set (cid := request_cid rp). set (p := request_payload stats rp resp cb).
  destruct (sequence_to_batchslot_map_ s !! cid) as [target|] eqn:Esm.
  { destruct (vi_bound _ _ HI cid target Esm) as (Hval & _).
    destruct (enqueue_to_slot_view rc bsz target cid (request_end rp) p s Hsh Hval)
      as (Hq & Hbl & Hdq).
    destruct (enqueue_to_slot target cid (request_end rp) p s) as [s' ev]. simpl in *.
    exists (LSlot target), (slot_queue s target). simpl.
    split; [exact I|]. split; [rewrite Hq; apply upd_eq|]. split; [left; auto|]. split.
    - intros [b|h] Hne; simpl.
      + split; [reflexivity|]. rewrite Hq. apply upd_ne. congruence.
      + rewrite Hbl. split; [reflexivity|apply Hdq].
    - intros [b|h] _ Hne; simpl.
      + rewrite Esm. congruence.
      + pose proof (vi_disj _ _ HI cid target Esm) as Hd. simpl in Hd.
        rewrite Hd. discriminate. }
  destruct (sequence_to_backlog_map_ s !! cid) as [h|] eqn:Ebm.
  { destruct (vi_blmap _ _ HI cid h Ebm) as (Hin & _).
    exists (LBacklog h), (backlog_deque s h).
    assert (Hdq : ∀ h', backlog_deque
              (if request_end rp
               then set_backlog_map (delete cid (sequence_to_backlog_map_ s))
                      (set_backlog_store (<[h := backlog_deque s h ++ [p]]> (backlog_store s)) s)
               else set_backlog_store (<[h := backlog_deque s h ++ [p]]> (backlog_store s)) s) h' =
              upd (backlog_deque s) h (backlog_deque s h ++ [p]) h').
    { intros h'. unfold upd. case_decide as Hd.
      - subst h'. destruct (request_end rp); unfold backlog_deque; simpl;
          rewrite lookup_insert_eq; reflexivity.
      - destruct (request_end rp); unfold backlog_deque; simpl;
          rewrite lookup_insert_ne by congruence; reflexivity. }
    simpl. split; [destruct (request_end rp); exact Hin|].
    split; [rewrite Hdq; apply upd_eq|]. split; [left; auto|]. split.
    - intros [b|h'] Hne; simpl.
      + split; destruct (request_end rp); reflexivity.
      + split; [destruct (request_end rp); reflexivity|].
        rewrite Hdq. apply upd_ne. congruence.
    - intros [b|h'] _ Hne; simpl.
      + rewrite Esm. discriminate.
      + rewrite Ebm. congruence. }
  destruct (pool_top (ready_batch_slots_ s)) as [slot|] eqn:Etop.
  { set (s2 := set_ready_slots _ _).
    assert (Hin : slot ∈ pool_slots (ready_batch_slots_ s)).
    { rewrite (pool_top_pop _ _ Etop). apply elem_of_cons. left; reflexivity. }
    destruct (vi_pool _ _ HI slot Hin) as (Hval & _).
    destruct (enqueue_to_slot_view rc bsz slot cid (request_end rp) p s2 Hsh Hval)
      as (Hq & Hbl & Hdq).
    destruct (enqueue_to_slot slot cid (request_end rp) p s2) as [s' ev]. simpl in *.
    exists (LSlot slot), (slot_queue s slot). simpl.
    split; [exact I|]. split; [rewrite Hq; apply upd_eq|]. split; [left; auto|]. split.
    - intros [b|h] Hne; simpl.
      + split; [reflexivity|]. rewrite Hq. apply upd_ne. congruence.
      + rewrite Hbl. split; [reflexivity|apply Hdq].
    - intros [b|h] _ Hne; simpl; [rewrite Esm|rewrite Ebm]; discriminate. }
  assert (Hfresh : next_backlog s ∉ backlog_queues_ s).
  { intros Hin. destruct (vi_bl _ _ HI _ Hin) as (_ & Hlt & _). simpl in Hlt. lia. }
  exists (LBacklog (next_backlog s)), [].
  assert (Hdq : ∀ h', backlog_deque
            (if request_end rp
             then set_backlog_store (<[next_backlog s := [p]]> (backlog_store s))
                    (set_backlog_queues (backlog_queues_ s ++ [next_backlog s])
                       (set_next_backlog (S (next_backlog s)) s))
             else set_backlog_map (<[cid := next_backlog s]> (sequence_to_backlog_map_ s))
                    (set_backlog_store (<[next_backlog s := [p]]> (backlog_store s))
                       (set_backlog_queues (backlog_queues_ s ++ [next_backlog s])
                          (set_next_backlog (S (next_backlog s)) s)))) h' =
            upd (backlog_deque s) (next_backlog s) [p] h').
  { intros h'. unfold upd. case_decide as Hd.
    - subst h'. destruct (request_end rp); unfold backlog_deque; simpl;
        rewrite lookup_insert_eq; reflexivity.
    - destruct (request_end rp); unfold backlog_deque; simpl;
        rewrite lookup_insert_ne by congruence; reflexivity. }
  simpl. split.
  { destruct (request_end rp); simpl; apply elem_of_app; right;
      apply list_elem_of_singleton; reflexivity. }
  split; [rewrite Hdq; apply upd_eq|]. split; [right; auto|]. split.
  - intros [b|h'] Hne; simpl.
    + split; destruct (request_end rp); reflexivity.
    + split.
      * assert (Hn : h' ≠ next_backlog s) by congruence.
        destruct (request_end rp); simpl; rewrite elem_of_app, list_elem_of_singleton; tauto.
      * rewrite Hdq. apply upd_ne. congruence.
  - intros [b|h'] _ Hne; simpl; [rewrite Esm|rewrite Ebm]; discriminate.
Qed.

(** The payloads of the sequence [cid]: [S] were submitted, [D] were
    delivered, and the rest waits in one place (all lists with the
    payloads as submitted, see [strip]). *)
Definition JC (cid : Z) (s : Scheduler P) (S D : list Payload) : Prop :=
  ∃ q, S = D ++ (strip <$> q) ∧ sole cid (view_of s) q.

(** The payload that an operation submits, if it is accepted. *)
Definition enqueued (s : Scheduler P) (o : Op) : list Payload :=
  match o with
  | OpEnqueue stats rp resp cb =>
    if accepted s rp then [request_payload stats rp resp cb] else []
  | OpSchedulerThread _ => []
  end.

(** The operation does not start a sequence [cid] while a payload of
    [cid] that carries END is still waiting. *)
Definition no_restart_step (cid : Z) (s : Scheduler P) (o : Op) : bool :=
  match o with
  | OpEnqueue _ rp _ _ =>
    negb (accepted s rp && (request_cid rp =? cid) && end_pending s cid)
  | OpSchedulerThread _ => true
  end.

Lemma Enqueue_fifo rc bsz cid stats rp resp cb s S D :
  Inv rc bsz None s → JC cid s S D →
  no_restart_step cid s (OpEnqueue stats rp resp cb) = true →
  JC cid (Enqueue stats rp resp cb s).1
    (S ++ (strip <$> proj cid (enqueued s (OpEnqueue stats rp resp cb)))) D.
Proof.
  intros HI (q & HS & Hsole) Hnr. simpl in *.
  destruct (accepted s rp) eqn:Hacc.
  2:{ destruct (Enqueue_not_accepted stats rp resp cb s Hacc) as [msg ->]. simpl.
      rewrite app_nil_r. exists q. auto. }
  destruct (Enqueue_effect rc bsz stats rp resp cb s HI Hacc)
    as (l & base & Hok' & Hc & Hl & Hoth & Hbound).
  set (p := request_payload stats rp resp cb) in *.
  simpl in Hnr. rewrite proj_cons. case_decide as Hp.
  - destruct Hp as [_ Hcid]. change (payload_cid p) with (request_cid rp) in Hcid.
    rewrite Hcid, Z.eqb_refl in Hnr. simpl in Hnr. apply negb_true_iff in Hnr.
    pose proof (end_pending_false s cid Hnr) as Hno.
    exists (q ++ [p]). split.
    { change (proj cid []) with (@nil Payload). rewrite (app_nil_r [p]).
      rewrite HS, (fmap_app strip q [p]), <- app_assoc. reflexivity. }
    eapply (sole_append cid (view_of s)); eauto.
    + intros l' Hl' Hne.
      destruct (proj_nil_dec cid (content (view_of s) l')) as [E|E]; [exact E|].
      pose proof (holder_is_bound cid _ l' (proj2 HI) Hno Hl' E) as Hb.
      specialize (Hbound l' Hl' Hne). rewrite Hcid in Hbound.
      destruct l'; contradiction.
    + split; [discriminate|exact Hcid].
  - change (proj cid []) with (@nil Payload). simpl. rewrite app_nil_r.
    exists q. split; [exact HS|].
    eapply (sole_append_other cid (view_of s)); eauto.
Qed.

Lemma put_queue_view rc bsz b slot sb q' (a : list bool) s s1 :
  shape rc bsz s → batchers_ s1 = batchers_ s →
  batchers_ s !! b = Some sb → (slot < length (queues_ sb))%nat →
  length a = length (active_slots_ sb) →
  ∀ x, slot_queue
         (put_batcher b (sb_set_active a (sb_set_queues (<[slot := q']> (queues_ sb)) sb)) s1) x =
       upd (slot_queue s) (mkSlot b slot) q' x.
Proof.
  intros Hsh Hb1 Hsb Hlt Ha x.
  destruct (proj2 Hsh _ _ Hsb) as (Hidx & Hql & Hal & Hmax).
  edestruct (put_batcher_view rc bsz b slot sb
               (sb_set_active a (sb_set_queues (<[slot := q']> (queues_ sb)) sb)) s s1 Hsh Hb1 Hsb)
    as (_ & _ & H3); try (simpl; rewrite ?length_insert; try reflexivity; assumption).
  { intros j Hj. unfold sb_queue. simpl.
    rewrite list_lookup_insert_ne by congruence. reflexivity. }
  rewrite H3. unfold sb_queue at 1. simpl.
  rewrite list_lookup_insert_eq by assumption. reflexivity.
Qed.

(** What the worker changes when it handles one slot: it pops the head of
    the queue and, if the head carries END, the queue is replaced by the
    head queue of the backlog, if there is one. *)
Lemma process_slot_effect rc bsz b w slot sb :
  shape rc bsz (sw_sched w) → batchers_ (sw_sched w) !! b = Some sb →
  let s := sw_sched w in
  let s' := sw_sched (process_slot b w slot) in
  let bs := mkSlot b slot in
  slot_queue s bs = sb_queue sb slot ∧
  match sb_queue sb slot with
  | [] => s' = s
  | p :: rest =>
    if payload_end p then
      match backlog_queues_ s with
      | [] =>
        (∀ x, slot_queue s' x = upd (slot_queue s) bs rest x) ∧
        backlog_queues_ s' = [] ∧ (∀ h, backlog_deque s' h = backlog_deque s h)
      | h :: t =>
        (∀ x, slot_queue s' x = upd (slot_queue s) bs (backlog_deque s h) x) ∧
        backlog_queues_ s' = t ∧
        (∀ h', h' ≠ h → backlog_deque s' h' = backlog_deque s h')
      end
    else
      (∀ x, slot_queue s' x = upd (slot_queue s) bs rest x) ∧
      backlog_queues_ s' = backlog_queues_ s ∧
      (∀ h, backlog_deque s' h = backlog_deque s h)
  end.
Proof.
  intros Hsh Hsb s s' bs. subst s s'. unfold process_slot. rewrite Hsb.
  set (s := sw_sched w) in *.
  split; [apply (sb_queue_slot_queue s b sb slot Hsb)|].
  destruct (sb_queue sb slot) as [|p rest] eqn:Eq; [reflexivity|].
  assert (Hlt : (slot < length (queues_ sb))%nat).
  { unfold sb_queue in Eq. destruct (queues_ sb !! slot) eqn:E; [|discriminate].
    eapply lookup_lt_Some; eauto. }
  destruct (proj2 Hsh _ _ Hsb) as (Hidx & _).
  pose proof (put_queue_view rc bsz b slot sb) as Hput.
  destruct (payload_end p) eqn:Eend.
  - rewrite Hidx. fold bs. unfold ReleaseBatchSlot.
    destruct (backlog_queues_ s) as [|h t] eqn:Ebl.
    + simpl. split; [|split; [exact Ebl|reflexivity]].
      apply (Hput rest (<[slot := false]> (active_slots_ sb)) s
               (set_ready_slots (pool_push bs (ready_batch_slots_ s)) s) Hsh eq_refl Hsb Hlt).
      apply length_insert.
    + assert (Hdq : ∀ (m : gmap nat (list Payload)) h',
                h' ≠ h → default [] (<[h := []]> m !! h') = default [] (m !! h')).
      { intros m h' Hne. rewrite lookup_insert_ne by congruence. reflexivity. }
      destruct (last (backlog_deque s h)) as [back|] eqn:Elast.
      * destruct (payload_end back); simpl;
          (split; [|split; [reflexivity|intros h' Hne; apply Hdq; exact Hne]]).
        -- destruct sb. apply (Hput (backlog_deque s h) _ s _ Hsh eq_refl Hsb Hlt eq_refl).
        -- destruct sb. apply (Hput (backlog_deque s h) _ s _ Hsh eq_refl Hsb Hlt eq_refl).
      * simpl. split; [|split; [reflexivity|intros h' Hne; apply Hdq; exact Hne]].
        apply (Hput (backlog_deque s h) (<[slot := false]> (active_slots_ sb)) s _ Hsh eq_refl Hsb Hlt).
        apply length_insert.
  - simpl. split; [|split; reflexivity].
    destruct sb. apply (Hput rest _ s _ Hsh eq_refl Hsb Hlt eq_refl).
Qed.


Lemma real_for_real_payload cid sb p : real_for cid (real_payload sb p) ↔ real_for cid p.
Proof. reflexivity. Qed.





(** The payloads handed to the runner, batch after batch, each batch in
    slot order. *)
Definition delivered (evs : list Event) : list Payload :=
  e ← evs; match e with EvOnSchedule _ payloads => payloads | _ => [] end.

Lemma delivered_app evs1 evs2 : delivered (evs1 ++ evs2) = delivered evs1 ++ delivered evs2.
Proof. unfold delivered. apply bind_app. Qed.


Lemma batcher_Enqueue_delivered target payload s :
  delivered (batcher_Enqueue target payload s).2 = [].
Proof.
  unfold batcher_Enqueue. destruct (batchers_ s !! batcher_idx_ target) as [sb|]; simpl;
    [destruct (scheduler_idle_ sb)|]; reflexivity.
Qed.

Lemma Enqueue_delivered stats rp resp cb s :
  delivered (Enqueue stats rp resp cb s).2 = [].
Proof.
  destruct (accepted s rp) eqn:Hacc.
  2:{ destruct (Enqueue_not_accepted stats rp resp cb s Hacc) as [msg ->]. reflexivity. }
  rewrite (Enqueue_accepted _ _ _ _ _ Hacc). cbv zeta.
  assert (Hw : delivered (conflict_warning s rp) = []).
  { unfold conflict_warning. destruct (_ && _); reflexivity. }
  assert (Hs : ∀ t e p (x : Scheduler P),
            delivered (conflict_warning s rp ++
                       (enqueue_to_slot t (request_cid rp) e p x).2) = []).
  { intros t e p x. rewrite delivered_app, Hw. unfold enqueue_to_slot.
    apply batcher_Enqueue_delivered. }
  destruct (sequence_to_batchslot_map_ s !! request_cid rp) as [target|].
  { specialize (Hs target (request_end rp) (request_payload stats rp resp cb) s).
    destruct (enqueue_to_slot _ _ _ _ s). exact Hs. }
  destruct (sequence_to_backlog_map_ s !! request_cid rp); [exact Hw|].
  destruct (pool_top (ready_batch_slots_ s)) as [slot|]; [|exact Hw].
  match goal with |- context [enqueue_to_slot slot ?c ?e ?p ?x] =>
    specialize (Hs slot e p x); destruct (enqueue_to_slot slot c e p x) end.
  exact Hs.
Qed.









Lemma Create_empty max_batch_size runner_cnt start_ctl ready_ctl backlog_delay delay s :
  Create max_batch_size runner_cnt start_ctl ready_ctl backlog_delay delay = inr s →
  backlog_queues_ s = [] ∧ ∀ bs, slot_queue s bs = [].
Proof.
  unfold Create. destruct (CreateControlTensors start_ctl ready_ctl) as [e|ct]; [discriminate|].
  intros [= <-]. split; [reflexivity|].
  intros bs. unfold slot_queue, sb_queue. simpl. rewrite list_lookup_fmap.
  destruct (seq 0 runner_cnt !! batcher_idx_ bs); simpl; [|reflexivity].
  destruct (replicate _ _ !! slot_ bs) as [q|] eqn:Er; [|reflexivity].
  apply lookup_replicate in Er as [-> _]. reflexivity.
Qed.






End Fifo.

(** * Examples: executions on schedulers with a stack as pool *)

Definition example_control (name : string) : Status + ControlProperties :=
  inr (mkControl name 8 0 1).

Definition example_create (max_batch_size : Z) (runner_cnt : nat)
  : Status + Scheduler (list BatchSlot) :=
  Create max_batch_size runner_cnt
    (example_control "START") (example_control "READY") 0 0.

Definition example_scheduler (max_batch_size : Z) (runner_cnt : nat)
  : Scheduler (list BatchSlot) :=
  match example_create max_batch_size runner_cnt with
  | inr s => s
  | inl _ => mkSched ∅ ∅ [] ∅ 0%nat [] [] 0%nat []
  end.

(** Request number [n] of a client: correlation ID [cid], flags [fl]. *)
Definition example_request (cid fl : Z) : InferRequestProvider :=
  mkProvider "m" (mkHeader 1 cid fl) false None.
Definition enq (n : nat) (cid fl : Z) : Op :=
  OpEnqueue n (example_request cid fl) n n.

Definition after (max_batch_size : Z) (runner_cnt : nat) (ops : list Op)
  : Scheduler (list BatchSlot) :=
  (run (example_scheduler max_batch_size runner_cnt) ops).1.

Definition example_batcher (s : Scheduler (list BatchSlot)) (b : nat) : SequenceBatch :=
  default (new_batch 0 0 (mkControlTensors ∅ ∅ ∅) 0) (batchers_ s !! b).

(** One batcher of one slot; sequence 1 has the slot, sequence 2 waits in
    the backlog. *)
Definition backlogged : Scheduler (list BatchSlot) :=
  after 1 1 [enq 0 1 1; enq 1 2 1].

(** One batcher of two slots, both bound, after their first batch; the
    sequence in slot 0 has sent its next request. *)
Definition lower_slot_busy : Scheduler (list BatchSlot) :=
  after 2 1 [enq 0 1 1; enq 1 2 1; OpSchedulerThread 0; enq 2 2 0].

Example Enqueue_rejects_witness :
  ∃ msg, Enqueue 0 (example_request 9 0) 0 5 (example_scheduler 1 1) =
         (example_scheduler 1 1, [EvOnComplete 5 (InvalidArgument msg)])
         ∧ code (InvalidArgument msg) = 3.
Proof.
  apply (Enqueue_rejects 0 (example_request 9 0) 0 5 (example_scheduler 1 1)).
  right; right. repeat split; reflexivity.
Defined.



Example ReleaseBatchSlot_spec_witness :
  (ReleaseBatchSlot (mkSlot 0 0) [] backlogged).1.1.1 = false ∧
  (ReleaseBatchSlot (mkSlot 0 0) [] backlogged).1.1.2 = backlog_deque backlogged 0.
Proof.
  assert (Hc : example_create 1 1 = inr (example_scheduler 1 1)) by (vm_compute; reflexivity).
  pose proof (ReleaseBatchSlot_spec 1 1 (example_control "START") (example_control "READY")
                0 0 (example_scheduler 1 1) backlogged (mkSlot 0 0) [] Hc
                (observable_run (example_scheduler 1 1) [enq 0 1 1; enq 1 2 1])) as H.
  destruct (ReleaseBatchSlot (mkSlot 0 0) [] backlogged) as [[[released payloads'] s'] log].
  change (backlog_queues_ backlogged) with [0%nat] in H.
  destruct H as (H1 & H2 & _). split; assumption.
Defined.

(** C10 on a state whose head queue is empty (no execution reaches one). *)
Example ReleaseBatchSlot_empty_head :
  let s := set_backlog_queues [5%nat; 6%nat]
             (set_backlog_store {[ 6%nat := [request_payload 0 (example_request 3 1) 0 0] ]}
                (example_scheduler 1 1)) in
  ReleaseBatchSlot (mkSlot 0 0) [] (set_ready_slots [] s) =
  (true, [],
   set_ready_slots [mkSlot 0 0]
     (set_backlog_queues [6%nat]
        (set_backlog_store
           (<[5%nat := []]> {[ 6%nat := [request_payload 0 (example_request 3 1) 0 0] ]}) s)),
   []).
Proof. reflexivity. Qed.

(** The batch that the worker of batcher 0 sends in [lower_slot_busy]. *)
Definition lower_slot_batch : list Payload :=
  slot_output (example_batcher lower_slot_busy 0) <$> seq 0 1.

Lemma lower_slot_batcher :
  batchers_ lower_slot_busy !! 0%nat = Some (example_batcher lower_slot_busy 0).
Proof. vm_compute. reflexivity. Qed.

Lemma lower_slot_batch_sent :
  EvOnSchedule 0 lower_slot_batch ∈ (SchedulerThread 0 lower_slot_busy).2.
Proof. apply list_elem_of_In. vm_compute. left. reflexivity. Qed.

Example batch_shape_witness :
  Z.of_nat (length lower_slot_batch) =
    find_max_slot (example_batcher lower_slot_busy 0) + 1 ∧
  find_max_slot (example_batcher lower_slot_busy 0) ≤
    max_active_slot_ (example_batcher lower_slot_busy 0).
Proof.
  destruct (batch_shape 0 lower_slot_busy (example_batcher lower_slot_busy 0) 0%nat
              lower_slot_batch) as (_ & H2 & H3 & _).
  - vm_compute. reflexivity.
  - apply list_elem_of_In. vm_compute. left. reflexivity.
  - split; [exact H3|apply H2].
Defined.

(** The claim C6, as the specification words it: a batch is as long as
    [max_active_slot_ + 1]. *)
Definition full_width_batches {P : Type} `{!ReadyPool P} (s : Scheduler P) (b : nat)
  : Prop :=
  ∀ sb idx batch,
    batchers_ s !! b = Some sb →
    EvOnSchedule idx batch ∈ (SchedulerThread b s).2 →
    Z.of_nat (length batch) = max_active_slot_ sb + 1.

(** Two slots are active, the queue of the upper one is empty: the batch
    has one payload while [max_active_slot_] is 1, before and after the
    iteration. *)
Lemma batch_shorter_than_active_extent :
  max_active_slot_ (example_batcher lower_slot_busy 0) = 1 ∧
  max_active_slot_ (example_batcher (SchedulerThread 0 lower_slot_busy).1 0) = 1 ∧
  length lower_slot_batch = 1%nat ∧
  ¬ full_width_batches lower_slot_busy 0.
Proof.
  split; [vm_compute; reflexivity|]. split; [vm_compute; reflexivity|].
  split; [vm_compute; reflexivity|].
  intros H.
  specialize (H (example_batcher lower_slot_busy 0) 0%nat lower_slot_batch
                lower_slot_batcher lower_slot_batch_sent).
  vm_compute in H. discriminate.
Qed.

Example batch_overrides_witness :
  ∃ p, lower_slot_batch !! 0%nat = Some p ∧
       input_override (request_provider_ p) =
         Some (continue_input_overrides
                 (sb_overrides_ (example_batcher lower_slot_busy 0))).
Proof.
  exists (slot_output (example_batcher lower_slot_busy 0) 0).
  split; [vm_compute; reflexivity|].
  assert (Hb : batchers_ lower_slot_busy !! 0%nat =
               Some (example_batcher lower_slot_busy 0)) by (vm_compute; reflexivity).
  assert (Hev : EvOnSchedule 0 lower_slot_batch ∈ (SchedulerThread 0 lower_slot_busy).2)
    by (apply list_elem_of_In; vm_compute; left; reflexivity).
  assert (Hp : lower_slot_batch !! 0%nat =
               Some (slot_output (example_batcher lower_slot_busy 0) 0))
    by (vm_compute; reflexivity).
  pose proof (batch_overrides 0 lower_slot_busy (example_batcher lower_slot_busy 0) 0%nat
                lower_slot_batch Hb Hev 0%nat _ Hp) as H.
  assert (Hq : sb_queue (example_batcher lower_slot_busy 0) 0 =
               [request_payload 2 (example_request 2 0) 2 2]) by (vm_compute; reflexivity).
  rewrite Hq in H. destruct H as (_ & _ & H). rewrite H. vm_compute. reflexivity.
Defined.






(** C8: a batch that fails marks no payload. *)
Lemma failed_batch_counts_nothing :
  execution_counts
    (OnCompleteQueuedPayloads [request_payload 0 (example_request 7 3) 0 0]
       (mkStatus 13 "failed")) = [] ∧
  ¬ exactly_one_counted [request_payload 0 (example_request 7 3) 0 0]
      (mkStatus 13 "failed").
Proof.
  split; [vm_compute; reflexivity|]. intros [st H]. vm_compute in H. discriminate.
Qed.

(** C4: a correlation ID is used again while the END of its previous
    sequence is still queued.  The new sequence gets another slot, and its
    START is in the first batch, ahead of two requests that were
    submitted before it. *)
Definition restart_ops : list Op :=
  [enq 0 5 1; enq 1 5 0; enq 2 5 2; enq 3 5 1; OpSchedulerThread 0].


(** Backlog promotion: sequence 2 waits in the backlog until sequence 1
    has ended, then takes its slot. *)
Definition promotion_ops : list Op :=
  [enq 0 1 1; enq 1 2 1; enq 2 2 2; enq 3 1 2;
   OpSchedulerThread 0; OpSchedulerThread 0; OpSchedulerThread 0].


Lemma promotion_delivers :
  stats_ <$> proj 2 (delivered (run (example_scheduler 1 1) promotion_ops).2) =
    [Some 1%nat].
Proof. vm_compute. reflexivity. Qed.

(** * Further properties of the code *)

(** ** The control tensors *)

Section ControlTensors.

(** The value that four bytes hold, least significant first. *)
Definition bytes_value (bs : list Z) : Z :=
  foldr (λ b acc, b + 256 * acc) 0 bs.

Lemma int32_bytes_value v : bytes_value (int32_bytes v) = v mod 2 ^ 32.
Proof.
  unfold int32_bytes, bytes_value. simpl.
  change 255 with (Z.ones 8).
  rewrite !Z.land_ones, !Z.shiftr_div_pow2 by lia.
  change (2 ^ (8 * 0)) with 1. change (2 ^ (8 * 1)) with 256.
  change (2 ^ (8 * 2)) with 65536. change (2 ^ (8 * 3)) with 16777216.
  change (2 ^ 8) with 256. change (2 ^ 32) with 4294967296. rewrite Z.div_1_r.
  pose proof (Z.div_mod v 256 ltac:(lia)).
  pose proof (Z.div_mod (v / 256) 256 ltac:(lia)).
  pose proof (Z.div_mod (v / 65536) 256 ltac:(lia)).
  pose proof (Z.div_mod (v / 16777216) 256 ltac:(lia)).
  pose proof (Z.div_mod v 4294967296 ltac:(lia)).
  pose proof (Z.mod_pos_bound v 4294967296 ltac:(lia)).
  pose proof (Z.mod_pos_bound v 256 ltac:(lia)).
  pose proof (Z.mod_pos_bound (v / 256) 256 ltac:(lia)).
  pose proof (Z.mod_pos_bound (v / 65536) 256 ltac:(lia)).
  pose proof (Z.mod_pos_bound (v / 16777216) 256 ltac:(lia)).
  assert (E1 : v / 65536 = v / 256 / 256) by (rewrite Z.div_div by lia; reflexivity).
  assert (E2 : v / 16777216 = v / 65536 / 256) by (rewrite Z.div_div by lia; reflexivity).
  assert (E3 : v / 4294967296 = v / 16777216 / 256) by (rewrite Z.div_div by lia; reflexivity).
  pose proof (Z.div_mod (v / 16777216) 256 ltac:(lia)).
  lia.
Qed.

Lemma land_255_bound x : 0 ≤ Z.land x 255 < 256.
Proof.
  change 255 with (Z.ones 8). rewrite Z.land_ones by lia.
  apply Z.mod_pos_bound. lia.
Qed.

(** X1.  The content of an override is the four bytes of its [int32_t]
    value, least significant first: four numbers below 256 that hold the
    value modulo [2^32]; its shape is [[1]] and its datatype the declared
    one.  Two values of the [int32_t] range give the same override only if
    they are equal, so the overrides for "true" and "false" differ
    whenever the configured values do. *)
Theorem make_override_bytes dt v :
  dims_ (make_override dt v) = [1] ∧
  datatype_ (make_override dt v) = dt ∧
  length (content_ (make_override dt v)) = 4%nat ∧
  Forall (λ b, 0 ≤ b < 256) (content_ (make_override dt v)) ∧
  bytes_value (content_ (make_override dt v)) = v mod 2 ^ 32 ∧
  (∀ w, - 2 ^ 31 ≤ v < 2 ^ 31 → - 2 ^ 31 ≤ w < 2 ^ 31 →
        make_override dt v = make_override dt w → v = w).
Proof.
  split; [reflexivity|]. split; [reflexivity|]. split; [reflexivity|]. split; [|split].
  - unfold make_override, int32_bytes. simpl.
    repeat (constructor; [apply land_255_bound|]). constructor.
  - apply int32_bytes_value.
  - intros w Hv Hw Heq.
    assert (Hb : bytes_value (int32_bytes v) = bytes_value (int32_bytes w)).
    { apply (f_equal (λ o, bytes_value (content_ o))) in Heq. exact Heq. }
    rewrite !int32_bytes_value in Hb.
    change (2 ^ 31) with 2147483648 in *. change (2 ^ 32) with 4294967296 in *.
    pose proof (Z.div_mod v 4294967296 ltac:(lia)).
    pose proof (Z.div_mod w 4294967296 ltac:(lia)).
    pose proof (Z.mod_pos_bound v 4294967296 ltac:(lia)).
    pose proof (Z.mod_pos_bound w 4294967296 ltac:(lia)).
    lia.
Qed.

(** X2.  [CreateControlTensors] fails exactly when the lookup of one of
    the two controls fails, with the status of that lookup, the one of
    SEQUENCE_START first. *)
Theorem CreateControlTensors_error start_ctl ready_ctl e :
  CreateControlTensors start_ctl ready_ctl = inl e ↔
  start_ctl = inl e ∨ (∃ s, start_ctl = inr s ∧ ready_ctl = inl e).
Proof.
  unfold CreateControlTensors. destruct start_ctl as [e1|s], ready_ctl as [e2|r]; split.
  - intros [= ->]. left; reflexivity.
  - intros [[= ->]|(s & [=] & _)]. reflexivity.
  - intros [= ->]. left; reflexivity.
  - intros [[= ->]|(s & [=] & _)]. reflexivity.
  - intros [= ->]. right. eauto.
  - intros [[=]|(s' & _ & [= ->])]. reflexivity.
  - intros [=].
  - intros [[=]|(s' & _ & [=])].
Qed.

(** X3.  With two controls on tensors of different names, the three
    override sets have exactly these two tensors: START and READY are
    "true" and "true" in the START set, "false" and "true" in the CONTINUE
    set, "false" and "false" in the NOT-READY set. *)
Theorem CreateControlTensors_table s r :
  tensor_name s ≠ tensor_name r →
  let t c v := make_override (tensor_datatype c) v in
  CreateControlTensors (inr s) (inr r) =
  inr (mkControlTensors
         (<[tensor_name r := t r (true_value r)]> {[ tensor_name s := t s (true_value s) ]})
         (<[tensor_name r := t r (true_value r)]> {[ tensor_name s := t s (false_value s) ]})
         (<[tensor_name r := t r (false_value r)]> {[ tensor_name s := t s (false_value s) ]})).
Proof.
  intros Hne t. unfold CreateControlTensors, override_insert.
  rewrite !lookup_empty. rewrite !insert_empty.
  rewrite !lookup_singleton_ne by congruence. reflexivity.
Qed.

(** X4.  If both controls name the same tensor, the second [insert] finds
    the key taken and changes nothing: each set holds the override of
    SEQUENCE_START only, and the CONTINUE set and the NOT-READY set are the
    same. *)
Theorem CreateControlTensors_same_tensor s r :
  tensor_name s = tensor_name r →
  let t v := make_override (tensor_datatype s) v in
  CreateControlTensors (inr s) (inr r) =
  inr (mkControlTensors
         {[ tensor_name s := t (true_value s) ]}
         {[ tensor_name s := t (false_value s) ]}
         {[ tensor_name s := t (false_value s) ]}).
Proof.
  intros Heq t. unfold CreateControlTensors, override_insert.
  rewrite !lookup_empty. rewrite !insert_empty. rewrite <- Heq.
  rewrite !lookup_singleton_eq. reflexivity.
Qed.

End ControlTensors.

Example CreateControlTensors_table_witness :
  CreateControlTensors (inr (mkControl "START" 8 0 1)) (inr (mkControl "READY" 9 0 (-1))) =
  inr (mkControlTensors
         (<["READY" := make_override 9 (-1)]> {[ "START" := make_override 8 1 ]})
         (<["READY" := make_override 9 (-1)]> {[ "START" := make_override 8 0 ]})
         (<["READY" := make_override 9 0]> {[ "START" := make_override 8 0 ]})).
Proof.
  apply (CreateControlTensors_table (mkControl "START" 8 0 1) (mkControl "READY" 9 0 (-1))).
  discriminate.
Defined.

Example CreateControlTensors_same_tensor_witness :
  CreateControlTensors (inr (mkControl "CTRL" 8 0 1)) (inr (mkControl "CTRL" 8 0 1)) =
  inr (mkControlTensors
         {[ "CTRL" := make_override 8 1 ]}
         {[ "CTRL" := make_override 8 0 ]}
         {[ "CTRL" := make_override 8 0 ]}).
Proof.
  apply (CreateControlTensors_same_tensor (mkControl "CTRL" 8 0 1) (mkControl "CTRL" 8 0 1)).
  reflexivity.
Defined.

(** ** The scheduler that [Create] builds *)

Section Creation.
Context {P : Type} `{!ReadyPool P}.

(** X5.  A scheduler that [Create] returns has [runner_cnt] batchers of
    [max(1, max_batch_size)] slots each, at least one slot even for a model
    that does not batch; batcher [b] knows its index, its queues are empty,
    no slot is active, [max_active_slot_] is [-1] and it holds the three
    override sets of [CreateControlTensors]; both maps and the backlog are
    empty; and the pool holds every slot of every batcher exactly once. *)
Theorem Create_initial_state max_batch_size runner_cnt start_ctl ready_ctl
    backlog_delay delay (s : Scheduler P) :
  Create max_batch_size runner_cnt start_ctl ready_ctl backlog_delay delay = inr s →
  let bsz := Z.to_nat (Z.max 1 max_batch_size) in
  (1 ≤ bsz)%nat ∧
  length (batchers_ s) = runner_cnt ∧
  (∀ b sb, batchers_ s !! b = Some sb →
     sb_batcher_idx_ sb = b ∧
     queues_ sb = replicate bsz [] ∧
     active_slots_ sb = replicate bsz false ∧
     max_active_slot_ sb = -1 ∧
     scheduler_idle_ sb = false ∧
     delay_cnt sb = delay ∧
     CreateControlTensors start_ctl ready_ctl = inr (sb_overrides_ sb)) ∧
  sequence_to_batchslot_map_ s = ∅ ∧
  sequence_to_backlog_map_ s = ∅ ∧
  backlog_queues_ s = [] ∧
  queue_request_cnts_ s = replicate runner_cnt 0%nat ∧
  backlog_delay_cnt_ s = backlog_delay ∧
  NoDup (pool_slots (ready_batch_slots_ s)) ∧
  length (pool_slots (ready_batch_slots_ s)) = (runner_cnt * bsz)%nat ∧
  (∀ bs, bs ∈ pool_slots (ready_batch_slots_ s) ↔
         (batcher_idx_ bs < runner_cnt)%nat ∧ (slot_ bs < bsz)%nat).
Proof.
  unfold Create. destruct (CreateControlTensors start_ctl ready_ctl) as [e|ct]; [discriminate|].
  intros Heq. injection Heq as <-. simpl.
  set (bsz := Z.to_nat (Z.max 1 max_batch_size)).
  assert (Hpool : pool_slots
            (foldl (λ p c, foldl (λ p b, pool_push (mkSlot c b) p) p (seq 0 bsz))
               (pool_new : P) (seq 0 runner_cnt)) ≡ₚ all_slots runner_cnt bsz).
  { rewrite Create_pool, pool_push_all, pool_new_slots, app_nil_r. reflexivity. }
  split; [subst bsz; lia|]. split; [rewrite length_fmap, length_seq; reflexivity|].
  split.
  { intros b sb Hb. rewrite list_lookup_fmap in Hb.
    destruct (seq 0 runner_cnt !! b) as [c|] eqn:Ec; [|discriminate].
    apply lookup_seq in Ec as [-> Hlt]. simpl in Hb. injection Hb as <-.
    repeat split; reflexivity. }
  do 5 (split; [reflexivity|]).
  split; [rewrite Hpool; apply NoDup_all_slots|]. split.
  - rewrite Hpool. unfold all_slots. clear Hpool.
    induction runner_cnt as [|n IH]; [reflexivity|].
    rewrite seq_S, bind_app, length_app, IH. simpl.
    rewrite app_nil_r, length_fmap, length_seq. lia.
  - intros bs. rewrite Hpool. apply elem_of_all_slots.
Qed.

End Creation.

Example Create_initial_state_witness :
  length (batchers_ (example_scheduler 0 2)) = 2%nat ∧
  length (pool_slots (ready_batch_slots_ (example_scheduler 0 2))) = (2 * 1)%nat.
Proof.
  destruct (Create_initial_state 0 2 (example_control "START") (example_control "READY")
              0 0 (example_scheduler 0 2) eq_refl) as (_ & H2 & _ & _ & _ & _ & _ & _ & _ & H10 & _).
  split; [exact H2|exact H10].
Defined.

(** ** What the completion closure reports *)

Section CompletionCalls.

(** The calls of completion functions among the events. *)
Definition completions (evs : list Event) : list (nat * Status) :=
  omap (M := list)
    (λ e, match e with
          | EvOnComplete cb st => Some (cb, st)
          | _ => None
          end) evs.

(** A payload that cannot report its error: it has no completion function
    and its status, or else its compute status, is not OK. *)
Definition silent_failure (p : Payload) : bool :=
  bool_decide (complete_function_ p = None) && negb (ok (no_complete_status p)).

Lemma completions_app evs1 evs2 :
  completions (evs1 ++ evs2) = completions evs1 ++ completions evs2.
Proof. unfold completions. apply omap_app. Qed.

Lemma completions_count (count : bool) (o : option nat) :
  completions (if count
               then match o with Some st => [EvSetModelExecutionCount st 1] | None => [] end
               else []) = [].
Proof. destruct count, o; reflexivity. Qed.

Lemma complete_payloads_completions status payloads : ∀ found,
  completions (complete_payloads status found payloads) =
  omap (λ p, (λ cb, (cb, final_status status p)) <$> complete_function_ p) payloads.
Proof.
  induction payloads as [|p rest IH]; intros found; simpl; [reflexivity|].
  rewrite !completions_app, completions_count, IH.
  destruct (complete_function_ p); reflexivity.
Qed.

Lemma complete_payloads_events status payloads : ∀ found e,
  e ∈ complete_payloads status found payloads →
  (∃ p cb, p ∈ payloads ∧ complete_function_ p = Some cb ∧
           e = EvOnComplete cb (final_status status p)) ∨
  (∃ p st, p ∈ payloads ∧ stats_ p = Some st ∧ ok (final_status status p) = true ∧
           e = EvSetModelExecutionCount st 1).
Proof.
  induction payloads as [|p rest IH]; intros found e He; simpl in He; [inversion He|].
  rewrite !elem_of_app in He. destruct He as [He|[He|He]].
  - right. destruct (negb found && ok (final_status status p) &&
                     bool_decide (stats_ p ≠ None)) eqn:Ec; [|inversion He].
    apply andb_prop in Ec as [Ec _]. apply andb_prop in Ec as [_ Hok].
    destruct (stats_ p) as [st|] eqn:Est; [|inversion He].
    apply list_elem_of_singleton in He as ->.
    exists p, st. split; [apply elem_of_cons; left; reflexivity|auto].
  - left. destruct (complete_function_ p) as [cb|] eqn:Ecb; [|inversion He].
    apply list_elem_of_singleton in He as ->.
    exists p, cb. split; [apply elem_of_cons; left; reflexivity|auto].
  - destruct (IH _ _ He) as [(q & cb & Hq & H)|(q & st & Hq & H)]; [left|right];
      eexists q, _; (split; [apply elem_of_cons; right; exact Hq|exact H]).
Qed.

Lemma elevate_status_find payloads status :
  elevate_status payloads status =
  match find silent_failure payloads with
  | Some q => no_complete_status q
  | None => status
  end.
Proof.
  induction payloads as [|p rest IH]; simpl; [reflexivity|].
  unfold silent_failure at 1.
  destruct (complete_function_ p) as [cb|]; simpl.
  - exact IH.
  - destruct (ok (no_complete_status p)); simpl; [exact IH|reflexivity].
Qed.

(** X6.  One completion of a batch calls the completion function of every
    payload that has one exactly once, in slot order, with the effective
    status of that payload, and calls nothing else: every event of the
    closure is such a call or a [SetModelExecutionCount(1)] on the
    statistics of a payload of the batch whose effective status is OK. *)
Theorem completion_calls payloads status :
  completions (OnCompleteQueuedPayloads payloads status) =
    omap (λ p, (λ cb, (cb, effective_status payloads status p)) <$> complete_function_ p)
      payloads ∧
  (∀ e, e ∈ OnCompleteQueuedPayloads payloads status →
     (∃ p cb, p ∈ payloads ∧ complete_function_ p = Some cb ∧
              e = EvOnComplete cb (effective_status payloads status p)) ∨
     (∃ p st, p ∈ payloads ∧ stats_ p = Some st ∧
              ok (effective_status payloads status p) = true ∧
              e = EvSetModelExecutionCount st 1)).
Proof.
  unfold OnCompleteQueuedPayloads, effective_status.
  fold (batch_status payloads status). split.
  - apply complete_payloads_completions.
  - intros e He. eapply complete_payloads_events. exact He.
Qed.

(** X7.  The status that a payload is completed with.  If the batch
    failed, it is the status of the batch, for every payload.  If the batch
    succeeded but a payload without completion function holds an error,
    it is the error of the first such payload, for every payload.
    Otherwise it is the payload's own: its [status_] if that is an error,
    else its [compute_status_].  So a payload is completed with OK only if
    the batch succeeded, no payload without completion function holds an
    error, and both statuses of the payload are OK. *)
Theorem status_elevation payloads status p :
  effective_status payloads status p =
    (if ok status then
       match find silent_failure payloads with
       | Some q => no_complete_status q
       | None => no_complete_status p
       end
     else status) ∧
  (ok (effective_status payloads status p) = true →
   ok status = true ∧ find silent_failure payloads = None ∧
   ok (status_ p) = true ∧ ok (compute_status_ p) = true).
Proof.
  assert (Heq : effective_status payloads status p =
    if ok status then
      match find silent_failure payloads with
      | Some q => no_complete_status q
      | None => no_complete_status p
      end
    else status).
  { unfold effective_status, batch_status, final_status.
    destruct (ok status) eqn:Eok; [|rewrite Eok; reflexivity].
    rewrite elevate_status_find.
    destruct (find silent_failure payloads) as [q|] eqn:Ef.
    - apply find_some in Ef as [_ Hq]. unfold silent_failure in Hq.
      apply andb_prop in Hq as [_ Hq]. apply negb_true_iff in Hq. rewrite Hq. reflexivity.
    - rewrite Eok. reflexivity. }
  split; [exact Heq|]. rewrite Heq. intros Hok.
  destruct (ok status) eqn:Eok; [|congruence].
  destruct (find silent_failure payloads) as [q|] eqn:Ef.
  - apply find_some in Ef as [_ Hq]. unfold silent_failure in Hq.
    apply andb_prop in Hq as [_ Hq]. apply negb_true_iff in Hq. congruence.
  - unfold no_complete_status in Hok.
    destruct (ok (status_ p)) eqn:Es; [auto|congruence].
Qed.

End CompletionCalls.

(** ** What [Enqueue] does to the outside world *)

Section EnqueueEvents.
Context {P : Type} `{!ReadyPool P}.
Implicit Types (s : Scheduler P) (rp : InferRequestProvider).

(** The message of the first check that a request fails. *)
Definition reject_message (rp : InferRequestProvider) : string :=
  if negb (batch_size (RequestHeader rp) =? 1) then msg_batch_size rp
  else if request_cid rp =? 0 then msg_no_correlation rp
  else msg_no_start rp.

(** The notification of the worker of the slot that takes a payload. *)
Definition wake (s : Scheduler P) (target : option BatchSlot) : list Event :=
  match target with
  | Some t =>
    match batchers_ s !! batcher_idx_ t with
    | Some sb => if scheduler_idle_ sb then [EvNotify (batcher_idx_ t)] else []
    | None => []
    end
  | None => []
  end.

Lemma enqueue_to_slot_events target cid e payload s :
  (enqueue_to_slot target cid e payload s).2 = wake s (Some target).
Proof.
  unfold enqueue_to_slot, batcher_Enqueue, wake.
  destruct e; simpl; destruct (batchers_ s !! batcher_idx_ target); reflexivity.
Qed.

Lemma Enqueue_events_eq stats rp resp cb s :
  (Enqueue stats rp resp cb s).2 =
  if accepted s rp
  then conflict_warning s rp ++ wake s (routed_slot s (request_cid rp))
  else [EvOnComplete cb (InvalidArgument (reject_message rp))].
Proof.
  destruct (accepted s rp) eqn:Hacc.
  - rewrite (Enqueue_accepted _ _ _ _ _ Hacc). cbv zeta. unfold routed_slot.
    destruct (sequence_to_batchslot_map_ s !! request_cid rp) as [target|].
    { pose proof (enqueue_to_slot_events target (request_cid rp) (request_end rp)
                    (request_payload stats rp resp cb) s) as He.
      destruct (enqueue_to_slot _ _ _ _ s). simpl in *. rewrite He. reflexivity. }
    destruct (sequence_to_backlog_map_ s !! request_cid rp).
    { simpl. rewrite app_nil_r. reflexivity. }
    destruct (pool_top (ready_batch_slots_ s)) as [slot|].
    2:{ simpl. rewrite app_nil_r. reflexivity. }
    match goal with |- context [enqueue_to_slot slot ?c ?e ?p ?x] =>
      pose proof (enqueue_to_slot_events slot c e p x) as He;
      destruct (enqueue_to_slot slot c e p x) end.
    simpl in *. rewrite He. reflexivity.
  - unfold accepted, Enqueue, reject_message, request_cid, request_start in *.
    destruct (batch_size (RequestHeader rp) =? 1); simpl in *; [|reflexivity].
    destruct (correlation_id (RequestHeader rp) =? 0); simpl in *; [reflexivity|].
    apply orb_false_iff in Hacc as [Hst Hk].
    apply known_sequence_false in Hk as [Hsb Hbl].
    rewrite Hst, Hsb, Hbl. reflexivity.
Qed.

(** X8.  The events of a call of [Enqueue], as a function of the state it
    finds.  A rejected request gives one call of its completion function,
    with the message of the first check that fails (batch size, then
    correlation ID, then the START flag).  An accepted request gives the
    conflict warning, if it carries START on a sequence that is in
    progress, and then the notification of the worker if the payload goes
    to a slot of a batcher that is idle.  [Enqueue] calls the completion
    function of no accepted request. *)
Theorem Enqueue_events stats rp resp cb s :
  (Enqueue stats rp resp cb s).2 =
    (if accepted s rp
     then conflict_warning s rp ++ wake s (routed_slot s (request_cid rp))
     else [EvOnComplete cb (InvalidArgument (reject_message rp))]) ∧
  (∀ cb' st, EvOnComplete cb' st ∈ (Enqueue stats rp resp cb s).2 ↔
     accepted s rp = false ∧ cb' = cb ∧ st = InvalidArgument (reject_message rp)) ∧
  (∀ m, EvLogWarning m ∈ (Enqueue stats rp resp cb s).2 ↔
     accepted s rp = true ∧ request_start rp = true ∧
     known_sequence s (request_cid rp) = true ∧ m = msg_conflict rp).
Proof.
  rewrite Enqueue_events_eq. split; [reflexivity|].
  assert (Hw : ∀ e t, e ∈ wake s t → ∃ b, e = EvNotify b).
  { intros e [t|] He; simpl in He; [|inversion He].
    destruct (batchers_ s !! batcher_idx_ t) as [sb|]; [|inversion He].
    destruct (scheduler_idle_ sb); [|inversion He].
    apply list_elem_of_singleton in He. eauto. }
  assert (Hc : ∀ e, e ∈ conflict_warning s rp →
            request_start rp = true ∧ known_sequence s (request_cid rp) = true ∧
            e = EvLogWarning (msg_conflict rp)).
  { intros e He. unfold conflict_warning in He.
    destruct (request_start rp); [|inversion He].
    destruct (known_sequence s (request_cid rp)); [|inversion He].
    apply list_elem_of_singleton in He. auto. }
  destruct (accepted s rp); split.
  - intros cb' st. split; [|intros [[=] _]].
    rewrite elem_of_app. intros [He|He].
    + apply Hc in He as (_ & _ & [=]).
    + apply Hw in He as [b [=]].
  - intros m. rewrite elem_of_app. split.
    + intros [He|He].
      * apply Hc in He as (H1 & H2 & [= ->]). auto.
      * apply Hw in He as [b [=]].
    + intros (_ & H1 & H2 & ->). left. unfold conflict_warning. rewrite H1, H2.
      apply list_elem_of_singleton. reflexivity.
  - intros cb' st. rewrite list_elem_of_singleton. split.
    + intros [= -> ->]. auto.
    + intros (_ & -> & ->). reflexivity.
  - intros m. rewrite list_elem_of_singleton. split; [intros [=]|intros [[=] _]].
Qed.

End EnqueueEvents.

(** * Properties of the states that executions reach *)

Section Reached.
Context {P : Type} `{!ReadyPool P}.
Implicit Types (s : Scheduler P) (sb : SequenceBatch) (bs : BatchSlot) (w : Sweep P).

(** ** The two internal errors are never logged *)

Lemma ReleaseBatchSlot_quiet rc bsz bs payloads s :
  Inv rc bsz None s → (ReleaseBatchSlot bs payloads s).2 = [].
Proof.
  intros [_ HI]. unfold ReleaseBatchSlot.
  destruct (backlog_queues_ s) as [|h t] eqn:Ebl; [reflexivity|].
  destruct (last (backlog_deque s h)) as [back|] eqn:El; [|reflexivity].
  destruct (payload_end back) eqn:Ee; [reflexivity|]. simpl.
  assert (Hin : h ∈ backlog_queues_ s) by (rewrite Ebl; apply elem_of_cons; left; reflexivity).
  pose proof (vi_bl_open _ _ HI h back Hin El Ee) as Hbm. simpl in Hbm.
  destruct (sequence_to_batchslot_map_ s !! payload_cid back) as [x|] eqn:Esm.
  - pose proof (vi_disj _ _ HI _ _ Esm) as Hd. simpl in Hd. congruence.
  - rewrite bool_decide_eq_false_2; [reflexivity|]. intros Hx. apply Hx. reflexivity.
Qed.

(** The payload after an END payload: there is none. *)
Lemma end_is_last rc bsz b slot sb p rest s :
  Inv rc bsz None s → batchers_ s !! b = Some sb →
  sb_queue sb slot = p :: rest → payload_end p = true → rest = [].
Proof.
  intros [_ HI] Hsb Eq Ee.
  destruct (vi_queue _ _ HI (mkSlot b slot)) as [Hel _]. simpl in Hel.
  rewrite (sb_queue_slot_queue _ _ _ _ Hsb), Eq in Hel. apply Hel. exact Ee.
Qed.

Lemma process_slot_quiet rc bsz b w slot :
  Inv rc bsz None (sw_sched w) → sw_log (process_slot b w slot) = sw_log w.
Proof.
  intros HI. unfold process_slot.
  destruct (batchers_ (sw_sched w) !! b) as [sb|] eqn:Hsb; [|reflexivity].
  destruct (sb_queue sb slot) as [|p rest] eqn:Eq; [reflexivity|].
  destruct (payload_end p) eqn:Ee; [|reflexivity].
  pose proof (end_is_last rc bsz b slot sb p rest _ HI Hsb Eq Ee) as ->.
  pose proof (ReleaseBatchSlot_quiet rc bsz (mkSlot (sb_batcher_idx_ sb) slot) []
                (sw_sched w) HI) as Hq.
  destruct (ReleaseBatchSlot _ [] (sw_sched w)) as [[[released queue'] s1] log2].
  simpl in *. subst log2. apply app_nil_r.
Qed.

Lemma sweep_quiet rc bsz b slots : ∀ w,
  Inv rc bsz None (sw_sched w) →
  sw_log (foldl (process_slot b) w slots) = sw_log w.
Proof.
  induction slots as [|slot slots IH]; intros w HI; simpl; [reflexivity|].
  rewrite IH by (apply process_slot_inv; exact HI).
  apply (process_slot_quiet rc bsz). exact HI.
Qed.

(** The events of one iteration of a worker, at a state that satisfies the
    invariant: one wait, or one call of the runner. *)
Lemma SchedulerThread_events rc bsz b s sb :
  Inv rc bsz None s → batchers_ s !! b = Some sb →
  (SchedulerThread b s).2 =
  if (0 <? delay_cnt sb)%nat then [EvWait b (10 * 1000)]
  else if find_max_slot sb <? 0 then [EvWait b default_wait_microseconds]
  else [EvOnSchedule b (slot_output sb <$> seq 0 (Z.to_nat (find_max_slot sb + 1)))].
Proof.
  intros HI Hsb. unfold SchedulerThread. rewrite Hsb.
  destruct (proj2 (proj1 HI) _ _ Hsb) as (Hidx & _). rewrite Hidx.
  destruct (0 <? delay_cnt sb)%nat.
  { destruct (DelayScheduler _ _ _ s). reflexivity. }
  destruct (find_max_slot sb <? 0) eqn:Em; [reflexivity|]. apply Z.ltb_ge in Em.
  destruct (sweep_spec b (find_max_slot sb) s sb Hsb) as (_ & _ & _ & Hp & _).
  simpl. rewrite Hp. unfold sweep.
  rewrite (sweep_quiet rc bsz) by exact HI. simpl.
  destruct (Z.to_nat (find_max_slot sb + 1)) as [|n] eqn:En; [lia|]. reflexivity.
Qed.




(** ** One sequence per queue *)


(** ** What a worker changes of the facade *)

(** One slot of a sweep: the facade is left alone, or the slot goes to the
    pool (the backlog is empty), or the head queue of the backlog is
    taken. *)
Lemma process_slot_facade rc bsz b w slot :
  Inv rc bsz None (sw_sched w) →
  let s := sw_sched w in
  let s' := sw_sched (process_slot b w slot) in
  next_backlog s' = next_backlog s ∧
  ((sequence_to_batchslot_map_ s' = sequence_to_batchslot_map_ s ∧
    sequence_to_backlog_map_ s' = sequence_to_backlog_map_ s ∧
    backlog_queues_ s' = backlog_queues_ s ∧
    ready_batch_slots_ s' = ready_batch_slots_ s) ∨
   (backlog_queues_ s = [] ∧ backlog_queues_ s' = [] ∧
    sequence_to_batchslot_map_ s' = sequence_to_batchslot_map_ s ∧
    sequence_to_backlog_map_ s' = sequence_to_backlog_map_ s ∧
    ready_batch_slots_ s' = pool_push (mkSlot b slot) (ready_batch_slots_ s)) ∨
   (∃ h t back,
      backlog_queues_ s = h :: t ∧ backlog_queues_ s' = t ∧
      last (backlog_deque s h) = Some back ∧
      ready_batch_slots_ s' = ready_batch_slots_ s ∧
      if payload_end back then
        sequence_to_batchslot_map_ s' = sequence_to_batchslot_map_ s ∧
        sequence_to_backlog_map_ s' = sequence_to_backlog_map_ s
      else
        sequence_to_batchslot_map_ s !! payload_cid back = None ∧
        sequence_to_backlog_map_ s !! payload_cid back = Some h ∧
        sequence_to_batchslot_map_ s' =
          <[payload_cid back := mkSlot b slot]> (sequence_to_batchslot_map_ s) ∧
        sequence_to_backlog_map_ s' =
          delete (payload_cid back) (sequence_to_backlog_map_ s))).
Proof.
  intros HI s s'. subst s s'. unfold process_slot.
  destruct (batchers_ (sw_sched w) !! b) as [sb|] eqn:Hsb; [|split; [reflexivity|left; auto]].
  destruct (sb_queue sb slot) as [|p rest] eqn:Eq; [split; [reflexivity|left; auto]|].
  destruct (payload_end p) eqn:Ee; [|split; [reflexivity|left; auto]].
  destruct (proj2 (proj1 HI) _ _ Hsb) as (Hidx & _). rewrite Hidx.
  set (s := sw_sched w) in *. destruct HI as [_ HI].
  unfold ReleaseBatchSlot.
  destruct (backlog_queues_ s) as [|h t] eqn:Ebl.
  { simpl. split; [reflexivity|]. right; left. rewrite Ebl. repeat split; reflexivity. }
  assert (Hin : h ∈ backlog_queues_ s) by (rewrite Ebl; apply elem_of_cons; left; reflexivity).
  destruct (vi_bl _ _ HI h Hin) as (Hne & _). simpl in Hne.
  destruct (last (backlog_deque s h)) as [back|] eqn:El.
  2:{ apply last_None in El. contradiction. }
  destruct (payload_end back) eqn:Eb; simpl.
  - split; [reflexivity|]. right; right. exists h, t, back. rewrite Eb.
    repeat split; try reflexivity; assumption.
  - split; [reflexivity|]. right; right. exists h, t, back. rewrite Eb.
    pose proof (vi_bl_open _ _ HI h back Hin El Eb) as Hbm. simpl in Hbm.
    repeat split; try reflexivity; try assumption.
    destruct (sequence_to_batchslot_map_ s !! payload_cid back) as [x|] eqn:Esm; [|reflexivity].
    pose proof (vi_disj _ _ HI _ _ Esm) as Hd. simpl in Hd. congruence.
Qed.

(** What a worker never does: it takes no slot from the pool, it unbinds
    no sequence and binds none that was not in the backlog, and it adds
    nothing to the backlog. *)
Definition only_promotes (b : nat) (s s' : Scheduler P) : Prop :=
  (∀ cid bs, sequence_to_batchslot_map_ s !! cid = Some bs →
     sequence_to_batchslot_map_ s' !! cid = Some bs) ∧
  (∀ cid bs, sequence_to_batchslot_map_ s' !! cid = Some bs →
     sequence_to_batchslot_map_ s !! cid = Some bs ∨
     (is_Some (sequence_to_backlog_map_ s !! cid) ∧ batcher_idx_ bs = b)) ∧
  (∀ cid h, sequence_to_backlog_map_ s' !! cid = Some h →
     sequence_to_backlog_map_ s !! cid = Some h) ∧
  backlog_queues_ s' `suffix_of` backlog_queues_ s ∧
  (∀ bs, bs ∈ pool_slots (ready_batch_slots_ s) →
     bs ∈ pool_slots (ready_batch_slots_ s')) ∧
  (∀ bs, bs ∈ pool_slots (ready_batch_slots_ s') →
     bs ∈ pool_slots (ready_batch_slots_ s) ∨ batcher_idx_ bs = b) ∧
  next_backlog s' = next_backlog s.

Lemma only_promotes_refl b s : only_promotes b s s.
Proof. unfold only_promotes. repeat split; auto. Qed.

Lemma only_promotes_trans b s1 s2 s3 :
  only_promotes b s1 s2 → only_promotes b s2 s3 → only_promotes b s1 s3.
Proof.
  intros (A1 & A2 & A3 & A4 & A5 & A6 & A7) (B1 & B2 & B3 & B4 & B5 & B6 & B7).
  split; [|split; [|split; [|split; [|split; [|split]]]]].
  - auto.
  - intros cid bs H. destruct (B2 _ _ H) as [H'|[[h H'] Hb]]; [auto|].
    right. split; [|exact Hb]. exists h. auto.
  - auto.
  - etransitivity; eauto.
  - auto.
  - intros bs H. destruct (B6 _ H) as [H'|H']; auto.
  - congruence.
Qed.

Lemma only_promotes_same b s s' :
  sequence_to_batchslot_map_ s' = sequence_to_batchslot_map_ s →
  sequence_to_backlog_map_ s' = sequence_to_backlog_map_ s →
  backlog_queues_ s' = backlog_queues_ s →
  ready_batch_slots_ s' = ready_batch_slots_ s →
  next_backlog s' = next_backlog s →
  only_promotes b s s'.
Proof.
  intros H1 H2 H3 H4 H5. unfold only_promotes. rewrite H1, H2, H3, H4, H5.
  apply only_promotes_refl.
Qed.

Lemma process_slot_only_promotes rc bsz b w slot :
  Inv rc bsz None (sw_sched w) →
  only_promotes b (sw_sched w) (sw_sched (process_slot b w slot)).
Proof.
  intros HI. destruct (process_slot_facade rc bsz b w slot HI) as [Hn Hc].
  destruct Hc as [(H1 & H2 & H3 & H4)|[(H0 & H1 & H2 & H3 & H4)|(h & t & back & H1 & H2 & H3 & H4 & H5)]].
  - apply only_promotes_same; assumption.
  - unfold only_promotes. rewrite H0, H1, H2, H3, H4, Hn.
    repeat split; auto.
    + intros bs Hbs. rewrite pool_push_slots. apply elem_of_cons. right. exact Hbs.
    + intros bs Hbs. rewrite pool_push_slots in Hbs.
      apply elem_of_cons in Hbs as [->|Hbs]; [right; reflexivity|left; exact Hbs].
  - unfold only_promotes. rewrite H1, H2, H4, Hn.
    assert (Hsuf : t `suffix_of` h :: t) by (exists [h]; reflexivity).
    destruct (payload_end back).
    + destruct H5 as [-> ->]. repeat split; auto.
    + destruct H5 as (Hsm & Hbm & -> & ->).
      split; [|split; [|split; [|split; [|split; [|split]]]]]; auto.
      * intros cid bs Hb. rewrite lookup_insert_ne; [exact Hb|]. congruence.
      * intros cid bs Hb. apply lookup_insert_Some in Hb as [[<- <-]|[_ Hb]]; [|left; exact Hb].
        right. split; [eauto|reflexivity].
      * intros cid h' Hb. apply lookup_delete_Some in Hb as [_ Hb]. exact Hb.
Qed.

Lemma sweep_only_promotes rc bsz b slots : ∀ w,
  Inv rc bsz None (sw_sched w) →
  only_promotes b (sw_sched w) (sw_sched (foldl (process_slot b) w slots)).
Proof.
  induction slots as [|slot slots IH]; intros w HI; simpl; [apply only_promotes_refl|].
  eapply only_promotes_trans; [apply (process_slot_only_promotes rc bsz); exact HI|].
  apply IH. apply process_slot_inv. exact HI.
Qed.

Lemma SchedulerThread_only_promotes rc bsz b s :
  Inv rc bsz None s → only_promotes b s (SchedulerThread b s).1.
Proof.
  intros HI. unfold SchedulerThread.
  destruct (batchers_ s !! b) as [sb|] eqn:Hsb; [|apply only_promotes_refl].
  destruct (0 <? delay_cnt sb)%nat.
  { pose proof (DelayScheduler_state (sb_batcher_idx_ sb)
                  (sum_list (length <$> queues_ sb)) (delay_cnt sb) s) as Hd.
    destruct (DelayScheduler _ _ _ s) as [wait s1]. simpl in Hd. subst s1. simpl.
    apply only_promotes_same; reflexivity. }
  destruct (find_max_slot sb <? 0); [apply only_promotes_refl|].
  simpl. unfold sweep.
  pose proof (sweep_only_promotes rc bsz b (seq 0 (Z.to_nat (find_max_slot sb + 1)))
                (mkSweep s [] false []) HI) as Hs. simpl in Hs.
  set (w := foldl (process_slot b) _ _) in *.
  destruct (sw_adjust w); [|exact Hs].
  destruct (batchers_ (sw_sched w) !! b); [|exact Hs].
  eapply only_promotes_trans; [exact Hs|]. apply only_promotes_same; reflexivity.
Qed.

(** X11.  What a worker never does to the facade.  One iteration of the
    worker of batcher [b], at any observable point: every binding of a
    correlation ID to a slot stays as it is; a new binding is to a slot of
    batcher [b], for a correlation ID that was in the backlog map; the
    backlog map and the backlog only lose entries, the backlog from its
    head; the pool only gains slots, and slots of batcher [b] only; no
    backlog queue is created. *)
Theorem worker_only_promotes max_batch_size runner_cnt start_ctl ready_ctl
    backlog_delay delay (s0 s : Scheduler P) b :
  Create max_batch_size runner_cnt start_ctl ready_ctl backlog_delay delay = inr s0 →
  observable s0 s →
  let s' := (SchedulerThread b s).1 in
  (∀ cid bs, sequence_to_batchslot_map_ s !! cid = Some bs →
     sequence_to_batchslot_map_ s' !! cid = Some bs) ∧
  (∀ cid bs, sequence_to_batchslot_map_ s' !! cid = Some bs →
     sequence_to_batchslot_map_ s !! cid = Some bs ∨
     (is_Some (sequence_to_backlog_map_ s !! cid) ∧ batcher_idx_ bs = b)) ∧
  (∀ cid h, sequence_to_backlog_map_ s' !! cid = Some h →
     sequence_to_backlog_map_ s !! cid = Some h) ∧
  backlog_queues_ s' `suffix_of` backlog_queues_ s ∧
  (∀ bs, bs ∈ pool_slots (ready_batch_slots_ s) →
     bs ∈ pool_slots (ready_batch_slots_ s')) ∧
  (∀ bs, bs ∈ pool_slots (ready_batch_slots_ s') →
     bs ∈ pool_slots (ready_batch_slots_ s) ∨ batcher_idx_ bs = b) ∧
  next_backlog s' = next_backlog s.
Proof.
  intros Hc Hobs s'.
  pose proof (observable_inv _ _ _ _ (Create_inv _ _ _ _ _ _ _ Hc) Hobs) as HI.
  exact (SchedulerThread_only_promotes _ _ b s HI).
Qed.


(** ** The backlog is kept in the order of creation *)

(** Handles are numbered as the queues are created: a list of handles is
    in the order of creation when it is increasing. *)
Definition creation_order (l : list nat) : Prop :=
  ∀ i j x y, l !! i = Some x → l !! j = Some y → (i < j)%nat → (x < y)%nat.

Lemma creation_order_suffix l l' :
  l' `suffix_of` l → creation_order l → creation_order l'.
Proof.
  intros [k ->] Ho i j x y Hi Hj Hlt.
  apply (Ho (length k + i)%nat (length k + j)%nat).
  - rewrite lookup_app_r by lia. replace (length k + i - length k)%nat with i by lia. exact Hi.
  - rewrite lookup_app_r by lia. replace (length k + j - length k)%nat with j by lia. exact Hj.
  - lia.
Qed.

Lemma creation_order_snoc l n :
  creation_order l → (∀ h, h ∈ l → (h < n)%nat) → creation_order (l ++ [n]).
Proof.
  intros Ho Hlt i j x y Hi Hj Hij.
  assert (Hjl : (j < length (l ++ [n]))%nat) by (eapply lookup_lt_Some; eauto).
  rewrite length_app in Hjl. simpl in Hjl.
  rewrite lookup_app_l in Hi by lia.
  destruct (decide (j < length l)%nat) as [Hj'|Hj'].
  - rewrite lookup_app_l in Hj by lia. eapply Ho; eauto.
  - rewrite lookup_app_r in Hj by lia.
    replace (j - length l)%nat with 0%nat in Hj by lia. injection Hj as <-.
    apply Hlt. eapply list_elem_of_lookup_2. exact Hi.
Qed.

(** [Enqueue] leaves the backlog alone or appends the queue it creates. *)
Lemma Enqueue_backlog_queues stats rp resp cb s :
  let s' := (Enqueue stats rp resp cb s).1 in
  (backlog_queues_ s' = backlog_queues_ s ∧ next_backlog s' = next_backlog s) ∨
  (backlog_queues_ s' = backlog_queues_ s ++ [next_backlog s] ∧
   next_backlog s' = S (next_backlog s)).
Proof.
  intros s'. subst s'. destruct (accepted s rp) eqn:Hacc.
  2:{ destruct (Enqueue_not_accepted stats rp resp cb s Hacc) as [msg ->]. left; auto. }
  rewrite (Enqueue_accepted _ _ _ _ _ Hacc). cbv zeta.
  destruct (sequence_to_batchslot_map_ s !! request_cid rp) as [target|].
  { pose proof (enqueue_to_slot_frame target (request_cid rp) (request_end rp)
                  (request_payload stats rp resp cb) s) as Hf.
    destruct (enqueue_to_slot _ _ _ _ s). simpl in *. left. tauto. }
  destruct (sequence_to_backlog_map_ s !! request_cid rp).
  { left. destruct (request_end rp); auto. }
  destruct (pool_top (ready_batch_slots_ s)) as [slot|].
  2:{ right. destruct (request_end rp); auto. }
  match goal with |- context [enqueue_to_slot slot ?c ?e ?p ?x] =>
    pose proof (enqueue_to_slot_frame slot c e p x) as Hf;
    destruct (enqueue_to_slot slot c e p x) end.
  simpl in *. left. tauto.
Qed.

Lemma observable_creation_order rc bsz s0 s :
  Inv rc bsz None s0 → creation_order (backlog_queues_ s0) →
  observable s0 s → creation_order (backlog_queues_ s).
Proof.
  intros HI0 H0.
  induction 1 as [|s stats rp resp cb Hobs IH|s b payloads adjust log slot Hobs IH|s b Hobs IH].
  - exact H0.
  - pose proof (observable_inv _ _ _ _ HI0 Hobs) as [_ HI].
    destruct (Enqueue_backlog_queues stats rp resp cb s) as [[-> _]|[-> _]]; [exact IH|].
    apply creation_order_snoc; [exact IH|].
    intros h Hh. apply (vi_bl _ _ HI h Hh).
  - pose proof (observable_inv _ _ _ _ HI0 Hobs) as HI.
    destruct (process_slot_only_promotes rc bsz b (mkSweep s payloads adjust log) slot HI)
      as (_ & _ & _ & Hsuf & _).
    eapply creation_order_suffix; [exact Hsuf|exact IH].
  - pose proof (observable_inv _ _ _ _ HI0 Hobs) as HI.
    destruct (SchedulerThread_only_promotes rc bsz b s HI) as (_ & _ & _ & Hsuf & _).
    eapply creation_order_suffix; [exact Hsuf|exact IH].
Qed.

(** X12.  The backlog is first in, first out.  At every observable point
    the queues of the backlog are in the order in which [Enqueue] created
    them, each once, and all older than the queue that [Enqueue] creates
    next; so the queue that [ReleaseBatchSlot] hands to a free slot is the
    oldest of the backlog. *)
Theorem backlog_is_fifo max_batch_size runner_cnt start_ctl ready_ctl
    backlog_delay delay (s0 s : Scheduler P) :
  Create max_batch_size runner_cnt start_ctl ready_ctl backlog_delay delay = inr s0 →
  observable s0 s →
  creation_order (backlog_queues_ s) ∧
  NoDup (backlog_queues_ s) ∧
  (∀ h, h ∈ backlog_queues_ s → (h < next_backlog s)%nat) ∧
  (∀ bs payloads h, head (backlog_queues_ s) = Some h →
     (ReleaseBatchSlot bs payloads s).1.1.2 = backlog_deque s h ∧
     backlog_queues_ (ReleaseBatchSlot bs payloads s).1.2 = tail (backlog_queues_ s) ∧
     ∀ h', h' ∈ tail (backlog_queues_ s) → (h < h')%nat).
Proof.
  intros Hc Hobs. pose proof (Create_inv _ _ _ _ _ _ _ Hc) as HI0.
  pose proof (observable_inv _ _ _ _ HI0 Hobs) as [_ HI].
  assert (Ho : creation_order (backlog_queues_ s)).
  { apply (observable_creation_order _ _ s0 s HI0); [|exact Hobs].
    destruct (Create_empty _ _ _ _ _ _ _ Hc) as [-> _]. intros i j x y Hi. discriminate. }
  split; [exact Ho|]. split; [exact (vi_bl_nodup _ _ HI)|]. split.
  { intros h Hh. apply (vi_bl _ _ HI h Hh). }
  intros bs payloads h Hh.
  destruct (backlog_queues_ s) as [|h0 t] eqn:Ebl; [discriminate|]. injection Hh as ->.
  unfold ReleaseBatchSlot. rewrite Ebl.
  split; [|split].
  - destruct (last (backlog_deque s h)) as [back|]; [destruct (payload_end back)|]; reflexivity.
  - destruct (last (backlog_deque s h)) as [back|]; [destruct (payload_end back)|]; reflexivity.
  - simpl. intros h' Hh'. apply list_elem_of_lookup in Hh' as [j Hj].
    apply (Ho 0%nat (S j) h h'); [reflexivity|exact Hj|lia].
Qed.


(** ** Which slots are active *)










(** The batchers and the pool after [Enqueue]. *)
Lemma Enqueue_batchers_pool stats rp resp cb s :
  accepted s rp = true →
  let s' := (Enqueue stats rp resp cb s).1 in
  match routed_slot s (request_cid rp) with
  | Some target =>
    delivered_to target (request_payload stats rp resp cb) s s' ∧
    ready_batch_slots_ s' =
      (match sequence_to_batchslot_map_ s !! request_cid rp with
       | Some _ => ready_batch_slots_ s
       | None => pool_pop (ready_batch_slots_ s)
       end)
  | None => batchers_ s' = batchers_ s ∧ ready_batch_slots_ s' = ready_batch_slots_ s
  end.
Proof.
  intros Hacc s'. destruct (routed_slot s (request_cid rp)) as [target|] eqn:Hrt.
  { destruct (Enqueue_to_routed_slot stats rp resp cb s target Hacc Hrt)
      as (_ & _ & _ & _ & Hp & Hd). split; assumption. }
  subst s'. rewrite (Enqueue_accepted _ _ _ _ _ Hacc). cbv zeta.
  unfold routed_slot in Hrt.
  destruct (sequence_to_batchslot_map_ s !! request_cid rp); [discriminate|].
  destruct (sequence_to_backlog_map_ s !! request_cid rp).
  { destruct (request_end rp); split; reflexivity. }
  rewrite Hrt. destruct (request_end rp); split; reflexivity.
Qed.
















(** ** The headers of the payloads of a batch *)

(** The header of a request that [Enqueue] accepts. *)
Definition good_header (h : InferRequestHeader) : Prop :=
  batch_size h = 1 ∧ correlation_id h ≠ 0.

(** A payload that [Enqueue] built from an accepted request. *)
Definition from_request (p : Payload) : Prop :=
  good_header (payload_header p) ∧ complete_function_ p ≠ None ∧ stats_ p ≠ None.

(** Every payload that waits is from an accepted request, and a batcher
    that has an active slot has cached the header of one. *)
Definition Hdr (s : Scheduler P) : Prop :=
  (∀ bs p, p ∈ slot_queue s bs → from_request p) ∧
  (∀ h p, h ∈ backlog_queues_ s → p ∈ backlog_deque s h → from_request p) ∧
  (∀ b sb, batchers_ s !! b = Some sb →
     max_active_slot_ sb ≠ -1 → good_header (null_request_header_ sb)).

Lemma accepted_from_request stats rp resp cb s :
  accepted s rp = true → from_request (request_payload stats rp resp cb).
Proof.
  unfold accepted, from_request, good_header, request_cid. intros Hacc.
  apply andb_prop in Hacc as [Hacc _]. apply andb_prop in Hacc as [Hb Hc].
  apply Z.eqb_eq in Hb. apply negb_true_iff, Z.eqb_neq in Hc.
  repeat split; try assumption; discriminate.
Qed.

(** A sweep of batcher [b] leaves the other batchers alone. *)
Lemma process_slot_other b w slot b' :
  b' ≠ b →
  batchers_ (sw_sched (process_slot b w slot)) !! b' = batchers_ (sw_sched w) !! b'.
Proof.
  intros Hne. unfold process_slot.
  destruct (batchers_ (sw_sched w) !! b) as [sb|]; [|reflexivity].
  destruct (sb_queue sb slot) as [|p rest]; [reflexivity|].
  destruct (payload_end p).
  - pose proof (ReleaseBatchSlot_batchers (mkSlot (sb_batcher_idx_ sb) slot) rest (sw_sched w))
      as Hb.
    destruct (ReleaseBatchSlot _ rest (sw_sched w)) as [[[released queue'] s1] log2].
    simpl in *. rewrite Hb. apply list_lookup_insert_ne. congruence.
  - simpl. apply list_lookup_insert_ne. congruence.
Qed.

Lemma sweep_other b slots b' : ∀ w,
  b' ≠ b →
  batchers_ (sw_sched (foldl (process_slot b) w slots)) !! b' = batchers_ (sw_sched w) !! b'.
Proof.
  induction slots as [|slot slots IH]; intros w Hne; simpl; [reflexivity|].
  rewrite IH by assumption. apply process_slot_other. assumption.
Qed.

Lemma SchedulerThread_other b s b' :
  b' ≠ b → batchers_ (SchedulerThread b s).1 !! b' = batchers_ s !! b'.
Proof.
  intros Hne. unfold SchedulerThread.
  destruct (batchers_ s !! b) as [sb|] eqn:Hsb; [|reflexivity].
  destruct (0 <? delay_cnt sb)%nat.
  { pose proof (DelayScheduler_state (sb_batcher_idx_ sb)
                  (sum_list (length <$> queues_ sb)) (delay_cnt sb) s) as Hd.
    destruct (DelayScheduler _ _ _ s) as [wait s1]. simpl in Hd. subst s1. simpl.
    apply list_lookup_insert_ne. congruence. }
  destruct (find_max_slot sb <? 0); [reflexivity|].
  simpl. unfold sweep.
  pose proof (sweep_other b (seq 0 (Z.to_nat (find_max_slot sb + 1))) b'
                (mkSweep s [] false []) Hne) as Hs. simpl in Hs.
  set (w := foldl (process_slot b) _ _) in *.
  destruct (sw_adjust w); [|exact Hs].
  destruct (batchers_ (sw_sched w) !! b); [|exact Hs].
  simpl. rewrite list_lookup_insert_ne by congruence. exact Hs.
Qed.

Lemma Enqueue_hdr rc bsz stats rp resp cb s :
  Inv rc bsz None s → Hdr s → Hdr (Enqueue stats rp resp cb s).1.
Proof.
  intros HI (H1 & H2 & H3). destruct (accepted s rp) eqn:Hacc.
  2:{ destruct (Enqueue_not_accepted stats rp resp cb s Hacc) as [msg ->].
      split; [exact H1|]. split; [exact H2|exact H3]. }
  pose proof (accepted_from_request stats rp resp cb s Hacc) as Hgood.
  destruct (Enqueue_effect rc bsz stats rp resp cb s HI Hacc)
    as (l & base & Hok' & Hc & Hl & Hoth & _).
  pose proof (Enqueue_batchers_pool stats rp resp cb s Hacc) as Hbp. cbv zeta in Hbp.
  set (s' := (Enqueue stats rp resp cb s).1) in *.
  set (payload := request_payload stats rp resp cb) in *.
  assert (Hcont : ∀ l0 p, loc_ok (view_of s') l0 → p ∈ content (view_of s') l0 →
            p = payload ∨ (loc_ok (view_of s) l0 ∧ p ∈ content (view_of s) l0)).
  { intros l0 p Hl0 Hp. destruct (decide (l0 = l)) as [->|Hne].
    - rewrite Hc in Hp. apply elem_of_app in Hp as [Hp|Hp].
      + destruct Hl as [[Hl ->]|[_ ->]]; [right; auto|inversion Hp].
      + apply list_elem_of_singleton in Hp. left; exact Hp.
    - destruct (Hoth l0 Hne) as [Hiff Heq]. rewrite Heq in Hp. right.
      split; [apply Hiff; exact Hl0|exact Hp]. }
  split; [|split].
  - intros bs p Hp. destruct (Hcont (LSlot bs) p I Hp) as [->|[_ Hp']]; [exact Hgood|].
    exact (H1 bs p Hp').
  - intros h p Hh Hp. destruct (Hcont (LBacklog h) p Hh Hp) as [->|[Hh' Hp']]; [exact Hgood|].
    exact (H2 h p Hh' Hp').
  - intros b sb' Hb Hm.
    destruct (routed_slot s (request_cid rp)) as [target|].
    2:{ destruct Hbp as [Hbb _]. rewrite Hbb in Hb. exact (H3 b sb' Hb Hm). }
    destruct Hbp as [Hd _]. unfold delivered_to in Hd. rewrite Hd in Hb.
    destruct (decide (b = batcher_idx_ target)) as [->|Hne].
    + rewrite list_lookup_alter_eq in Hb.
      destruct (batchers_ s !! batcher_idx_ target) as [sb|] eqn:Hsb; [|discriminate].
      simpl in Hb. injection Hb as <-. unfold SequenceBatch_Enqueue.
      destruct (max_active_slot_ sb =? -1) eqn:Em; simpl.
      * apply Hgood.
      * apply (H3 _ _ Hsb). apply Z.eqb_neq. exact Em.
    + rewrite list_lookup_alter_ne in Hb by congruence. exact (H3 b sb' Hb Hm).
Qed.

Lemma process_slot_hdr rc bsz b w slot :
  Inv rc bsz None (sw_sched w) → Hdr (sw_sched w) → Hdr (sw_sched (process_slot b w slot)).
Proof.
  intros HI (H1 & H2 & H3).
  destruct (batchers_ (sw_sched w) !! b) as [sb|] eqn:Hsb.
  2:{ unfold process_slot. rewrite Hsb. split; [exact H1|]. split; [exact H2|exact H3]. }
  destruct (process_slot_spec b w slot sb Hsb) as (sb' & Hsb' & Hst & _).
  destruct (process_slot_effect rc bsz b w slot sb (proj1 HI) Hsb) as [Hsq Heff].
  set (s := sw_sched w) in *. set (s' := sw_sched (process_slot b w slot)) in *.
  assert (H3' : ∀ b0 sb0, batchers_ s' !! b0 = Some sb0 →
            max_active_slot_ sb0 ≠ -1 → good_header (null_request_header_ sb0)).
  { intros b0 sb0 Hb0 Hm. destruct (decide (b0 = b)) as [->|Hne].
    - rewrite Hsb' in Hb0. injection Hb0 as <-.
      destruct Hst as (_ & Hn & _ & Hmx & _). rewrite Hn. rewrite Hmx in Hm.
      exact (H3 b sb Hsb Hm).
    - unfold s' in Hb0. rewrite process_slot_other in Hb0 by assumption.
      exact (H3 b0 sb0 Hb0 Hm). }
  destruct (sb_queue sb slot) as [|p rest] eqn:Eq.
  { rewrite Heff. split; [exact H1|]. split; [exact H2|exact H3]. }
  assert (Hrest : ∀ x, x ∈ rest → from_request x).
  { intros x Hx. apply (H1 (mkSlot b slot)). rewrite Hsq. apply elem_of_cons. right; exact Hx. }
  assert (Hupd : ∀ q, (∀ x, x ∈ q → from_request x) →
            ∀ bs x, x ∈ upd (slot_queue s) (mkSlot b slot) q bs → from_request x).
  { intros q Hq bs x. unfold upd. case_decide; [apply Hq|apply H1]. }
  destruct (payload_end p).
  - destruct (backlog_queues_ s) as [|h t] eqn:Ebl.
    + destruct Heff as (E1 & E2 & E3). split; [|split; [|exact H3']].
      * intros bs x. rewrite E1. apply Hupd. exact Hrest.
      * intros h x Hh. rewrite E2 in Hh. inversion Hh.
    + destruct Heff as (E1 & E2 & E3).
      pose proof (vi_bl_nodup _ _ (proj2 HI)) as Hnd. simpl in Hnd. fold s in Hnd.
      rewrite Ebl in Hnd. apply NoDup_cons in Hnd as [Hnotin _].
      split; [|split; [|exact H3']].
      * intros bs x. rewrite E1. apply Hupd. intros y Hy.
        apply (H2 h y); [apply elem_of_cons; left; reflexivity|exact Hy].
      * intros h' x Hh'. rewrite E2 in Hh'. rewrite E3 by (intros ->; contradiction).
        apply H2. apply elem_of_cons. right; exact Hh'.
  - destruct Heff as (E1 & E2 & E3). split; [|split; [|exact H3']].
    + intros bs x. rewrite E1. apply Hupd. exact Hrest.
    + intros h x. rewrite E2, E3. apply H2.
Qed.

Lemma sweep_hdr rc bsz b slots : ∀ w,
  Inv rc bsz None (sw_sched w) → Hdr (sw_sched w) →
  Hdr (sw_sched (foldl (process_slot b) w slots)).
Proof.
  induction slots as [|slot slots IH]; intros w HI HH; simpl; [exact HH|].
  apply IH; [apply process_slot_inv; exact HI|].
  apply (process_slot_hdr rc bsz); assumption.
Qed.

(** Replacing batcher [b] by one with the same queues and the same cached
    header, whose [max_active_slot_] is [-1] if it was. *)
Lemma put_batcher_hdr rc bsz b sb sb' s s1 :
  shape rc bsz s → Hdr s → batchers_ s !! b = Some sb →
  batchers_ s1 = batchers_ s → backlog_queues_ s1 = backlog_queues_ s →
  backlog_store s1 = backlog_store s →
  sb_batcher_idx_ sb' = sb_batcher_idx_ sb → queues_ sb' = queues_ sb →
  length (active_slots_ sb') = length (active_slots_ sb) →
  -1 ≤ max_active_slot_ sb' < Z.of_nat bsz →
  null_request_header_ sb' = null_request_header_ sb →
  (max_active_slot_ sb = -1 → max_active_slot_ sb' = -1) →
  Hdr (put_batcher b sb' s1).
Proof.
  intros Hsh (H1 & H2 & H3) Hsb Hb1 Hbl Hst Hidx Hq Hla Hmax Hn Hm.
  destruct (put_batcher_same_queues rc bsz b sb sb' s s1 Hsh Hb1 Hsb Hidx Hq Hla Hmax)
    as (_ & _ & Hsq).
  split; [|split].
  - intros bs p. rewrite Hsq. apply H1.
  - intros h p. unfold backlog_deque. simpl. rewrite Hbl, Hst. apply H2.
  - intros b0 sb0 Hb0 Hm0. simpl in Hb0. rewrite Hb1 in Hb0.
    destruct (decide (b0 = b)) as [->|Hne].
    + rewrite list_lookup_insert_eq in Hb0 by (eapply lookup_lt_Some; eauto).
      injection Hb0 as <-. rewrite Hn. apply (H3 b sb Hsb). intros Hx. apply Hm0, Hm, Hx.
    + rewrite list_lookup_insert_ne in Hb0 by congruence. exact (H3 b0 sb0 Hb0 Hm0).
Qed.

Lemma SchedulerThread_hdr rc bsz b s :
  Inv rc bsz None s → Hdr s → Hdr (SchedulerThread b s).1.
Proof.
  intros HI HH. unfold SchedulerThread.
  destruct (batchers_ s !! b) as [sb|] eqn:Hsb; [|exact HH].
  destruct (proj2 (proj1 HI) _ _ Hsb) as (Hidx & Hql & Hal & Hmax).
  destruct (0 <? delay_cnt sb)%nat.
  { pose proof (DelayScheduler_state (sb_batcher_idx_ sb)
                  (sum_list (length <$> queues_ sb)) (delay_cnt sb) s) as Hd.
    destruct (DelayScheduler _ _ _ s) as [wait s1]. simpl in Hd. subst s1. simpl.
    apply (put_batcher_hdr rc bsz b sb _ s); try (destruct wait; reflexivity);
      try assumption; try reflexivity.
    - exact (proj1 HI).
    - destruct wait; assumption.
    - destruct wait; auto. }
  destruct (find_max_slot sb <? 0); [exact HH|].
  simpl. unfold sweep.
  pose proof (sweep_inv rc bsz b (seq 0 (Z.to_nat (find_max_slot sb + 1)))
                (mkSweep s [] false []) HI) as HI'.
  pose proof (sweep_hdr rc bsz b (seq 0 (Z.to_nat (find_max_slot sb + 1)))
                (mkSweep s [] false []) HI HH) as HH'.
  set (w := foldl (process_slot b) _ _) in *.
  destruct (sw_adjust w); [|exact HH'].
  destruct (batchers_ (sw_sched w) !! b) as [sb'|] eqn:Hsb'; [|exact HH'].
  destruct (proj2 (proj1 HI') _ _ Hsb') as (Hidx' & Hql' & Hal' & Hmax').
  destruct (scan_down_spec (slot_active sb') (Z.to_nat (max_active_slot_ sb' + 1)))
    as (Hs1 & _).
  apply (put_batcher_hdr rc bsz b sb' _ (sw_sched w)); try reflexivity; try assumption.
  - exact (proj1 HI').
  - unfold adjust_max_active_slot. simpl. lia.
  - unfold adjust_max_active_slot. simpl. intros Hx. rewrite Hx in *. simpl in *. lia.
Qed.

Lemma run_hdr max_batch_size runner_cnt start_ctl ready_ctl backlog_delay delay s0 ops :
  Create max_batch_size runner_cnt start_ctl ready_ctl backlog_delay delay = inr s0 →
  Hdr (run s0 ops).1.
Proof.
  intros Hc. pose proof (Create_inv _ _ _ _ _ _ _ Hc) as HI0.
  induction ops as [|o ops IH] using rev_ind.
  { destruct (Create_empty _ _ _ _ _ _ _ Hc) as [Hbl Hq]. split; [|split].
    - intros bs p. simpl. rewrite Hq. intros Hp. inversion Hp.
    - intros h p. simpl. rewrite Hbl. intros Hh. inversion Hh.
    - intros b sb Hsb Hm. exfalso. apply Hm. revert Hc Hsb. unfold Create.
      destruct (CreateControlTensors start_ctl ready_ctl) as [e|ct]; [discriminate|].
      intros [= <-] Hb. simpl in Hb. rewrite list_lookup_fmap in Hb.
      destruct (seq 0 runner_cnt !! b) as [c|]; [|discriminate].
      injection Hb as <-. reflexivity. }
  rewrite run_snoc. simpl. pose proof (run_inv _ _ s0 ops HI0) as HI.
  destruct o as [stats rp resp cb|b]; simpl.
  - eapply Enqueue_hdr; eassumption.
  - eapply SchedulerThread_hdr; eassumption.
Qed.

(** X15.  Every payload of every batch that an execution hands to the
    runner has a header with batch size 1 and a correlation ID that is not
    0: the payloads of requests because [Enqueue] accepts no other, the
    placeholders because the header they are built from was copied from an
    accepted request.  A payload of a batch has a completion function
    exactly when it has a statistics object (it is from a request), and
    neither otherwise (it is a placeholder). *)
Theorem batch_headers max_batch_size runner_cnt start_ctl ready_ctl
    backlog_delay delay (s0 : Scheduler P) ops :
  Create max_batch_size runner_cnt start_ctl ready_ctl backlog_delay delay = inr s0 →
  Forall (λ p, batch_size (payload_header p) = 1 ∧
               correlation_id (payload_header p) ≠ 0 ∧
               (complete_function_ p = None ↔ stats_ p = None))
    (delivered (run s0 ops).2).
Proof.
  intros Hc. pose proof (Create_inv _ _ _ _ _ _ _ Hc) as HI0.
  induction ops as [|o ops IH] using rev_ind; [constructor|].
  rewrite run_snoc. simpl. rewrite delivered_app. apply Forall_app. split; [exact IH|].
  pose proof (run_inv _ _ s0 ops HI0) as HI.
  pose proof (run_hdr _ _ _ _ _ _ s0 ops Hc) as (H1 & _ & H3).
  destruct o as [stats rp resp cb|b]; simpl; [rewrite Enqueue_delivered; constructor|].
  set (s := (run s0 ops).1) in *.
  destruct (batchers_ s !! b) as [sb|] eqn:Hsb.
  2:{ unfold SchedulerThread. rewrite Hsb. constructor. }
  rewrite (SchedulerThread_events _ _ b s sb HI Hsb).
  destruct (0 <? delay_cnt sb)%nat; [constructor|].
  destruct (find_max_slot sb <? 0) eqn:Em; [constructor|]. apply Z.ltb_ge in Em.
  unfold delivered. simpl. rewrite app_nil_r.
  apply Forall_fmap, Forall_forall. intros j _. simpl. unfold slot_output.
  destruct (sb_queue sb j) as [|p rest] eqn:Eq.
  - assert (Hm : max_active_slot_ sb ≠ -1).
    { intros Hx. unfold find_max_slot in Em. rewrite Hx in Em. simpl in Em. lia. }
    destruct (H3 b sb Hsb Hm) as [Hb Hcid]. repeat split; assumption.
  - assert (Hp : from_request p).
    { apply (H1 (mkSlot b j)). rewrite (sb_queue_slot_queue s b sb j Hsb), Eq.
      apply elem_of_cons. left; reflexivity. }
    destruct Hp as ([Hb Hcid] & Hcf & Hst). simpl.
    split; [exact Hb|]. split; [exact Hcid|]. split; intros Hx; contradiction.
Qed.


(** ** The debugging delay *)

(** The condition on which [DelayScheduler] lets the worker of [b] go:
    with the count of [b] brought up to date, the batchers together hold
    [total] payloads, and the backlog holds [backlog_delay_cnt_]. *)
Definition delay_over (b cnt total : nat) (s : Scheduler P) : Prop :=
  (total ≤ sum_list (<[b := cnt]> (queue_request_cnts_ s)))%nat ∧
  (backlog_delay_cnt_ s ≤
   sum_list ((λ h, length (backlog_deque s h)) <$> backlog_queues_ s))%nat.

Lemma DelayScheduler_result b cnt total s :
  (DelayScheduler b cnt total s).1 = false ↔ delay_over b cnt total s.
Proof.
  unfold DelayScheduler, delay_over, backlog_deque. simpl.
  destruct (sum_list (<[b := cnt]> (queue_request_cnts_ s)) <? total)%nat eqn:E1; simpl.
  { apply Nat.ltb_lt in E1. split; [discriminate|]. intros [H _]. lia. }
  apply Nat.ltb_ge in E1.
  destruct (0 <? backlog_delay_cnt_ s)%nat eqn:E2; simpl.
  - match goal with |- context [(?x <? ?y)%nat] => destruct (x <? y)%nat eqn:E3 end; simpl.
    + apply Nat.ltb_lt in E3. split; [discriminate|]. intros [_ H]. lia.
    + apply Nat.ltb_ge in E3. split; [auto|reflexivity].
  - apply Nat.ltb_ge in E2. split; [intros _; split; [exact E1|lia]|reflexivity].
Qed.

(** X16.  An iteration of a worker whose debugging delay is on, at any
    observable point: it waits 10 ms and hands nothing to the runner; it
    writes the number of payloads in its queues into its entry of
    [queue_request_cnts_]; it leaves the maps, the backlog, the pool and
    every queue of every batcher alone; and its delay is switched off, for
    good, exactly when the batchers together count [delay_cnt] payloads
    and the backlog holds [backlog_delay_cnt_] payloads. *)
Theorem delayed_iteration max_batch_size runner_cnt start_ctl ready_ctl
    backlog_delay delay (s0 s : Scheduler P) b sb :
  Create max_batch_size runner_cnt start_ctl ready_ctl backlog_delay delay = inr s0 →
  observable s0 s →
  batchers_ s !! b = Some sb →
  (0 < delay_cnt sb)%nat →
  let total := sum_list (length <$> queues_ sb) in
  let s' := (SchedulerThread b s).1 in
  (SchedulerThread b s).2 = [EvWait b (10 * 1000)] ∧
  queue_request_cnts_ s' = <[b := total]> (queue_request_cnts_ s) ∧
  sequence_to_batchslot_map_ s' = sequence_to_batchslot_map_ s ∧
  sequence_to_backlog_map_ s' = sequence_to_backlog_map_ s ∧
  backlog_queues_ s' = backlog_queues_ s ∧
  backlog_store s' = backlog_store s ∧
  ready_batch_slots_ s' = ready_batch_slots_ s ∧
  (∀ bs, slot_queue s' bs = slot_queue s bs) ∧
  (∀ b', b' ≠ b → batchers_ s' !! b' = batchers_ s !! b') ∧
  ((delay_over b total (delay_cnt sb) s ∧
    batchers_ s' !! b = Some (sb_set_delay_cnt 0 sb)) ∨
   (¬ delay_over b total (delay_cnt sb) s ∧ batchers_ s' !! b = Some sb)).
Proof.
  intros Hc Hobs Hsb Hd total s'.
  pose proof (observable_inv _ _ _ _ (Create_inv _ _ _ _ _ _ _ Hc) Hobs) as [Hsh HI].
  destruct (proj2 Hsh _ _ Hsb) as (Hidx & Hql & Hal & Hmax).
  assert (Hltb : (b < length (batchers_ s))%nat) by (eapply lookup_lt_Some; eauto).
  apply Nat.ltb_lt in Hd.
  subst s'. unfold SchedulerThread. rewrite Hsb, Hd, Hidx. fold total.
  pose proof (DelayScheduler_state b total (delay_cnt sb) s) as Hst.
  pose proof (DelayScheduler_result b total (delay_cnt sb) s) as Hres.
  destruct (DelayScheduler b total (delay_cnt sb) s) as [wait s1]. simpl in Hst, Hres.
  subst s1.
  destruct (put_batcher_same_queues _ _ b sb (if wait then sb else sb_set_delay_cnt 0 sb) s
              (set_request_cnts (<[b := total]> (queue_request_cnts_ s)) s) Hsh eq_refl Hsb)
    as (_ & _ & Hq); try (destruct wait; reflexivity).
  { destruct wait; assumption. }
  simpl. do 7 (split; [reflexivity|]). split; [exact Hq|]. split.
  - intros b' Hne. apply list_lookup_insert_ne. congruence.
  - rewrite list_lookup_insert_eq by assumption. destruct wait.
    + right. split; [intros Ho; apply Hres in Ho; discriminate|reflexivity].
    + left. split; [apply Hres; reflexivity|reflexivity].
Qed.

Lemma Enqueue_no_wait stats rp resp cb s idx t :
  EvWait idx t ∉ (Enqueue stats rp resp cb s).2.
Proof.
  rewrite Enqueue_events_eq. intros He.
  destruct (accepted s rp).
  - apply elem_of_app in He as [He|He].
    + unfold conflict_warning in He. destruct (_ && _); [|inversion He].
      apply list_elem_of_singleton in He. discriminate.
    + unfold wake in He. destruct (routed_slot _ _) as [tg|]; [|inversion He].
      destruct (batchers_ s !! batcher_idx_ tg) as [sb|]; [|inversion He].
      destruct (scheduler_idle_ sb); [|inversion He].
      apply list_elem_of_singleton in He. discriminate.
  - apply list_elem_of_singleton in He. discriminate.
Qed.

(** The delay of a batcher is never set to anything but 0. *)
Lemma delay_cnt_Enqueue stats rp resp cb s b sb sb' :
  batchers_ s !! b = Some sb → batchers_ (Enqueue stats rp resp cb s).1 !! b = Some sb' →
  delay_cnt sb' = delay_cnt sb.
Proof.
  intros Hsb Hsb'. destruct (accepted s rp) eqn:Hacc.
  2:{ destruct (Enqueue_not_accepted stats rp resp cb s Hacc) as [msg Hm].
      rewrite Hm in Hsb'. simpl in Hsb'. congruence. }
  pose proof (Enqueue_batchers_pool stats rp resp cb s Hacc) as Hbp. cbv zeta in Hbp.
  destruct (routed_slot s (request_cid rp)) as [target|].
  2:{ destruct Hbp as [Hb _]. rewrite Hb in Hsb'. congruence. }
  destruct Hbp as [Hd _]. unfold delivered_to in Hd. rewrite Hd in Hsb'.
  destruct (decide (b = batcher_idx_ target)) as [->|Hne].
  - rewrite list_lookup_alter_eq, Hsb in Hsb'. simpl in Hsb'. injection Hsb' as <-.
    unfold SequenceBatch_Enqueue. destruct (max_active_slot_ sb =? -1); reflexivity.
  - rewrite list_lookup_alter_ne in Hsb' by congruence. congruence.
Qed.

Lemma delay_cnt_process_slot b0 w slot b sb sb' :
  batchers_ (sw_sched w) !! b = Some sb →
  batchers_ (sw_sched (process_slot b0 w slot)) !! b = Some sb' →
  delay_cnt sb' = delay_cnt sb.
Proof.
  intros Hsb Hsb'. destruct (decide (b = b0)) as [->|Hne].
  - destruct (process_slot_spec b0 w slot sb Hsb) as (sb1 & Hsb1 & Hst & _).
    rewrite Hsb1 in Hsb'. injection Hsb' as <-. apply Hst.
  - rewrite process_slot_other in Hsb' by assumption. congruence.
Qed.

Lemma delay_cnt_SchedulerThread b0 s b sb sb' :
  batchers_ s !! b = Some sb → batchers_ (SchedulerThread b0 s).1 !! b = Some sb' →
  delay_cnt sb' = delay_cnt sb ∨ delay_cnt sb' = 0%nat.
Proof.
  intros Hsb Hsb'. destruct (decide (b = b0)) as [->|Hne].
  2:{ rewrite SchedulerThread_other in Hsb' by assumption. left. congruence. }
  revert Hsb'. unfold SchedulerThread. rewrite Hsb.
  assert (Hltb : (b0 < length (batchers_ s))%nat) by (eapply lookup_lt_Some; eauto).
  destruct (0 <? delay_cnt sb)%nat.
  { pose proof (DelayScheduler_state (sb_batcher_idx_ sb)
                  (sum_list (length <$> queues_ sb)) (delay_cnt sb) s) as Hd.
    destruct (DelayScheduler _ _ _ s) as [wait s1]. simpl in Hd. subst s1. simpl.
    rewrite list_lookup_insert_eq by assumption. intros [= <-].
    destruct wait; [left|right]; reflexivity. }
  destruct (find_max_slot sb <? 0); [simpl; intros Hx; left; congruence|].
  destruct (sweep_spec b0 (find_max_slot sb) s sb Hsb) as (sb1 & Hsb1 & Hst & _).
  simpl. destruct (sw_adjust _).
  - rewrite Hsb1. simpl.
    rewrite list_lookup_insert_eq by (eapply lookup_lt_Some; eauto).
    intros [= <-]. left. simpl. apply Hst.
  - rewrite Hsb1. intros [= <-]. left. apply Hst.
Qed.

(** X17.  The debugging delay of a batcher is the value that [Create] read
    from the environment until the worker resets it to 0, and 0 from then
    on: at every observable point it is one of the two, and no operation
    changes it except to 0.  With no delay configured, no worker ever
    waits the 10 ms of the delay. *)
Theorem delay_only_ends max_batch_size runner_cnt start_ctl ready_ctl
    backlog_delay delay (s0 s : Scheduler P) :
  Create max_batch_size runner_cnt start_ctl ready_ctl backlog_delay delay = inr s0 →
  observable s0 s →
  (∀ b sb, batchers_ s !! b = Some sb → delay_cnt sb = delay ∨ delay_cnt sb = 0%nat) ∧
  (∀ o b sb sb', batchers_ s !! b = Some sb → batchers_ (step s o).1 !! b = Some sb' →
     delay_cnt sb' = delay_cnt sb ∨ delay_cnt sb' = 0%nat) ∧
  (delay = 0%nat → ∀ ops, Forall (λ e, ∀ idx, e ≠ EvWait idx (10 * 1000)) (run s ops).2).
Proof.
  intros Hc Hobs. pose proof (Create_inv _ _ _ _ _ _ _ Hc) as HI0.
  assert (Hprev : ∀ (s1 s2 : Scheduler P) b sb2,
            Inv runner_cnt (Z.to_nat (Z.max 1 max_batch_size)) None s1 →
            Inv runner_cnt (Z.to_nat (Z.max 1 max_batch_size)) None s2 →
            batchers_ s2 !! b = Some sb2 → ∃ sb1, batchers_ s1 !! b = Some sb1).
  { intros s1 s2 b sb2 [[Hl1 _] _] [[Hl2 _] _] Hb.
    apply lookup_lt_is_Some. rewrite Hl1, <- Hl2. eapply lookup_lt_Some; eauto. }
  assert (H1 : ∀ s, observable s0 s →
            ∀ b sb, batchers_ s !! b = Some sb → delay_cnt sb = delay ∨ delay_cnt sb = 0%nat).
  { clear s Hobs.
    induction 1 as [|s stats rp resp cb Hobs IH|s b0 payloads adjust log slot Hobs IH|s b0 Hobs IH];
      intros b sb Hsb.
    - left. revert Hc Hsb. unfold Create.
      destruct (CreateControlTensors start_ctl ready_ctl) as [e|ct]; [discriminate|].
      intros [= <-] Hb. simpl in Hb. rewrite list_lookup_fmap in Hb.
      destruct (seq 0 runner_cnt !! b) as [c|]; [|discriminate].
      injection Hb as <-. reflexivity.
    - pose proof (observable_inv _ _ _ _ HI0 Hobs) as HI.
      destruct (Hprev s _ b sb HI (Enqueue_inv _ _ stats rp resp cb s HI) Hsb) as [sb1 Hsb1].
      rewrite (delay_cnt_Enqueue _ _ _ _ _ _ _ _ Hsb1 Hsb). exact (IH _ _ Hsb1).
    - pose proof (observable_inv _ _ _ _ HI0 Hobs) as HI.
      destruct (Hprev s _ b sb HI
                  (process_slot_inv _ _ b0 (mkSweep s payloads adjust log) slot HI) Hsb)
        as [sb1 Hsb1].
      rewrite (delay_cnt_process_slot b0 (mkSweep s payloads adjust log) slot b sb1 sb Hsb1 Hsb).
      exact (IH _ _ Hsb1).
    - pose proof (observable_inv _ _ _ _ HI0 Hobs) as HI.
      destruct (Hprev s _ b sb HI (SchedulerThread_inv _ _ b0 s HI) Hsb) as [sb1 Hsb1].
      destruct (delay_cnt_SchedulerThread b0 s b sb1 sb Hsb1 Hsb) as [->| ->];
        [exact (IH _ _ Hsb1)|right; reflexivity]. }
  split; [exact (H1 s Hobs)|]. split.
  - intros o b sb sb' Hsb Hsb'. destruct o as [stats rp resp cb|b0]; simpl in Hsb'.
    + left. eapply delay_cnt_Enqueue; eauto.
    + eapply delay_cnt_SchedulerThread; eauto.
  - intros Hz ops. induction ops as [|o ops IH] using rev_ind; [constructor|].
    rewrite run_snoc. simpl. apply Forall_app. split; [exact IH|].
    assert (Hobs' : observable s0 (run s ops).1).
    { clear IH. induction ops as [|o' ops IH'] using rev_ind; [exact Hobs|].
      rewrite run_snoc. simpl.
      destruct o'; simpl; [apply obs_enqueue|apply obs_thread]; exact IH'. }
    pose proof (observable_inv _ _ _ _ HI0 Hobs') as HI.
    apply Forall_forall. intros e He idx ->.
    destruct o as [stats rp resp cb|b0]; simpl in He.
    + eapply Enqueue_no_wait; eauto.
    + destruct (batchers_ (run s ops).1 !! b0) as [sb|] eqn:Hsb.
      * rewrite (SchedulerThread_events _ _ b0 _ sb HI Hsb) in He.
        destruct (H1 _ Hobs' _ _ Hsb) as [Hd|Hd]; rewrite Hd in He; try rewrite Hz in He;
          simpl in He;
          (destruct (find_max_slot sb <? 0);
           apply list_elem_of_singleton in He; discriminate).
      * unfold SchedulerThread in He. rewrite Hsb in He. inversion He.
Qed.


(** ** No request is lost *)
























End Reached.



Example worker_only_promotes_witness :
  backlog_queues_ (SchedulerThread 0 backlogged).1 `suffix_of` backlog_queues_ backlogged.
Proof.
  destruct (worker_only_promotes 1 1 (example_control "START") (example_control "READY")
              0 0 (example_scheduler 1 1) backlogged 0 eq_refl
              (observable_run (example_scheduler 1 1) [enq 0 1 1; enq 1 2 1]))
    as (_ & _ & _ & H & _).
  exact H.
Defined.

(** Three sequences for one slot: the two that wait are promoted in the
    order in which they came. *)
Definition two_backlogged : Scheduler (list BatchSlot) :=
  after 1 1 [enq 0 1 1; enq 1 2 1; enq 2 3 1].

Example backlog_is_fifo_witness :
  creation_order (backlog_queues_ two_backlogged) ∧
  NoDup (backlog_queues_ two_backlogged).
Proof.
  destruct (backlog_is_fifo 1 1 (example_control "START") (example_control "READY")
              0 0 (example_scheduler 1 1) two_backlogged eq_refl
              (observable_run (example_scheduler 1 1) [enq 0 1 1; enq 1 2 1; enq 2 3 1]))
    as (H1 & H2 & _).
  split; assumption.
Defined.



Example batch_headers_witness :
  Forall (λ p, batch_size (payload_header p) = 1 ∧
               correlation_id (payload_header p) ≠ 0 ∧
               (complete_function_ p = None ↔ stats_ p = None))
    (delivered (run (example_scheduler 1 1) promotion_ops).2).
Proof.
  assert (Hc : example_create 1 1 = inr (example_scheduler 1 1)) by (vm_compute; reflexivity).
  exact (batch_headers 1 1 (example_control "START") (example_control "READY")
           0 0 (example_scheduler 1 1) promotion_ops Hc).
Defined.

(** One batcher of one slot whose worker waits for two payloads. *)
Definition delayed_scheduler : Scheduler (list BatchSlot) :=
  match Create 1 1 (example_control "START") (example_control "READY") 0 2 with
  | inr s => s
  | inl _ => example_scheduler 1 1
  end.

Example delayed_iteration_witness :
  (SchedulerThread 0 (run delayed_scheduler [enq 0 1 1]).1).2 = [EvWait 0 (10 * 1000)].
Proof.
  assert (Hc : Create 1 1 (example_control "START") (example_control "READY") 0 2 =
               inr delayed_scheduler) by (vm_compute; reflexivity).
  assert (Hsb : batchers_ (run delayed_scheduler [enq 0 1 1]).1 !! 0%nat =
                Some (example_batcher (run delayed_scheduler [enq 0 1 1]).1 0))
    by (vm_compute; reflexivity).
  assert (Hd : (0 < delay_cnt (example_batcher (run delayed_scheduler [enq 0 1 1]).1 0))%nat)
    by (vm_compute; lia).
  exact (proj1 (delayed_iteration 1 1 (example_control "START") (example_control "READY")
                  0 2 delayed_scheduler _ 0 _ Hc
                  (observable_run delayed_scheduler [enq 0 1 1]) Hsb Hd)).
Defined.

Example delay_only_ends_witness :
  ∃ sb, batchers_ (run delayed_scheduler [enq 0 1 1; OpSchedulerThread 0]).1 !! 0%nat = Some sb ∧
        (delay_cnt sb = 2%nat ∨ delay_cnt sb = 0%nat).
Proof.
  assert (Hc : Create 1 1 (example_control "START") (example_control "READY") 0 2 =
               inr delayed_scheduler) by (vm_compute; reflexivity).
  exists (example_batcher (run delayed_scheduler [enq 0 1 1; OpSchedulerThread 0]).1 0).
  assert (Hsb : batchers_ (run delayed_scheduler [enq 0 1 1; OpSchedulerThread 0]).1 !! 0%nat =
                Some (example_batcher (run delayed_scheduler [enq 0 1 1; OpSchedulerThread 0]).1 0))
    by (vm_compute; reflexivity).
  split; [exact Hsb|].
  exact (proj1 (delay_only_ends 1 1 (example_control "START") (example_control "READY")
                  0 2 delayed_scheduler _ Hc
                  (observable_run delayed_scheduler [enq 0 1 1; OpSchedulerThread 0]))
           0%nat _ Hsb).
Defined.


(** ** A worker keeps to its batcher *)

Section Isolation.
Context {P : Type} `{!ReadyPool P}.
Implicit Types (s : Scheduler P) (sb : SequenceBatch).

Lemma SchedulerThread_own b s sb :
  batchers_ s !! b = Some sb →
  ∃ sb', batchers_ (SchedulerThread b s).1 !! b = Some sb' ∧
    sb_batcher_idx_ sb' = sb_batcher_idx_ sb ∧
    null_request_header_ sb' = null_request_header_ sb ∧
    sb_overrides_ sb' = sb_overrides_ sb ∧
    length (queues_ sb') = length (queues_ sb) ∧
    length (active_slots_ sb') = length (active_slots_ sb) ∧
    (-1 ≤ max_active_slot_ sb → max_active_slot_ sb' ≤ max_active_slot_ sb).
Proof.
  intros Hsb. unfold SchedulerThread. rewrite Hsb.
  assert (Hltb : (b < length (batchers_ s))%nat) by (eapply lookup_lt_Some; eauto).
  destruct (0 <? delay_cnt sb)%nat.
  { pose proof (DelayScheduler_state (sb_batcher_idx_ sb)
                  (sum_list (length <$> queues_ sb)) (delay_cnt sb) s) as Hd.
    destruct (DelayScheduler _ _ _ s) as [wait s1]. simpl in Hd. subst s1. simpl.
    rewrite list_lookup_insert_eq by assumption. eexists. split; [reflexivity|].
    destruct wait; simpl; repeat split; try reflexivity; lia. }
  destruct (find_max_slot sb <? 0).
  { simpl. exists sb. split; [exact Hsb|]. repeat split; try reflexivity; lia. }
  destruct (sweep_spec b (find_max_slot sb) s sb Hsb)
    as (sb1 & Hsb1 & (H1 & H2 & H3 & H4 & _ & H6 & H7) & _).
  simpl. destruct (sw_adjust _).
  - rewrite Hsb1. simpl. rewrite list_lookup_insert_eq by (eapply lookup_lt_Some; eauto).
    eexists. split; [reflexivity|]. unfold adjust_max_active_slot. simpl.
    repeat split; try assumption.
    intros Hge.
    destruct (scan_down_spec (slot_active sb1) (Z.to_nat (max_active_slot_ sb1 + 1)))
      as (Hs & _). lia.
  - exists sb1. split; [exact Hsb1|]. repeat split; try assumption. lia.
Qed.

(** X19.  One iteration of the worker of batcher [b], on any state: the
    other batchers are left as they are, queue for queue; the number of
    batchers stays; and of its own batcher the worker keeps the index, the
    cached null request header, the override sets and the number of slots,
    and it never raises [max_active_slot_]. *)
Theorem worker_keeps_to_its_batcher b s :
  (∀ b', b' ≠ b → batchers_ (SchedulerThread b s).1 !! b' = batchers_ s !! b') ∧
  length (batchers_ (SchedulerThread b s).1) = length (batchers_ s) ∧
  (∀ sb, batchers_ s !! b = Some sb →
     ∃ sb', batchers_ (SchedulerThread b s).1 !! b = Some sb' ∧
       sb_batcher_idx_ sb' = sb_batcher_idx_ sb ∧
       null_request_header_ sb' = null_request_header_ sb ∧
       sb_overrides_ sb' = sb_overrides_ sb ∧
       length (queues_ sb') = length (queues_ sb) ∧
       length (active_slots_ sb') = length (active_slots_ sb) ∧
       (-1 ≤ max_active_slot_ sb → max_active_slot_ sb' ≤ max_active_slot_ sb)).
Proof.
  split; [|split].
  - intros b' Hne. apply SchedulerThread_other. exact Hne.
  - destruct (batchers_ s !! b) as [sb|] eqn:Hsb.
    2:{ unfold SchedulerThread. rewrite Hsb. reflexivity. }
    apply Nat.le_antisymm.
    + apply Nat.nlt_ge. intros Hlt.
      destruct (decide (length (batchers_ s) = b)) as [Heq|Hne].
      * apply lookup_lt_Some in Hsb. lia.
      * apply lookup_lt_is_Some in Hlt as [x Hx].
        rewrite SchedulerThread_other in Hx by exact Hne.
        apply lookup_lt_Some in Hx. lia.
    + apply Nat.nlt_ge. intros Hlt.
      destruct (decide (length (batchers_ (SchedulerThread b s).1) = b)) as [Heq|Hne].
      * destruct (SchedulerThread_own b s sb Hsb) as (sb' & Hsb' & _).
        apply lookup_lt_Some in Hsb'. lia.
      * apply lookup_lt_is_Some in Hlt as [x Hx].
        rewrite <- (SchedulerThread_other b s _ Hne) in Hx.
        apply lookup_lt_Some in Hx. lia.
  - intros sb Hsb. apply SchedulerThread_own. exact Hsb.
Qed.

End Isolation.

(** * A sequence keeps its slot *)

Section Affinity.
Context {P : Type} `{!ReadyPool P}.
Implicit Types (s : Scheduler P) (sb : SequenceBatch) (bs : BatchSlot) (w : Sweep P).

(** The payloads of a batch of batcher [idx], each with the slot it is
    sent for: the payload at index [j] of the batch is the one of slot
    [j]. *)
Fixpoint with_slots (idx j : nat) (batch : list Payload) : list (BatchSlot * Payload) :=
  match batch with
  | [] => []
  | p :: rest => (mkSlot idx j, p) :: with_slots idx (S j) rest
  end.

Definition delivered_at (evs : list Event) : list (BatchSlot * Payload) :=
  e ← evs; match e with EvOnSchedule idx batch => with_slots idx 0 batch | _ => [] end.

(** The payloads of the sequence [cid] that went to the runner, oldest
    first, with their slots. *)
Definition track (cid : Z) (evs : list Event) : list (BatchSlot * Payload) :=
  filter (λ x, real_for cid x.2) (delivered_at evs).

(** After a payload that does not carry END, the next one is in the same
    slot. *)
Definition same_slot_until_end (tr : list (BatchSlot * Payload)) : Prop :=
  ∀ i x y, tr !! i = Some x → tr !! S i = Some y → payload_end x.2 = false → y.1 = x.1.









Lemma sole_JC cid s q : sole cid (view_of s) q → JC cid s (strip <$> q) [].
Proof. intros Hs. exists q. split; [reflexivity|exact Hs]. Qed.

Lemma Enqueue_sole rc bsz cid stats rp resp cb s :
  Inv rc bsz None s → (∃ q, sole cid (view_of s) q) →
  no_restart_step cid s (OpEnqueue stats rp resp cb) = true →
  ∃ q, sole cid (view_of (Enqueue stats rp resp cb s).1) q.
Proof.
  intros HI [q Hs] Hnr.
  destruct (Enqueue_fifo rc bsz cid stats rp resp cb s _ _ HI (sole_JC cid s q Hs) Hnr)
    as (q' & _ & Hs').
  exists q'. exact Hs'.
Qed.














End Affinity.


(** The track of sequence 2 in that execution: its START, sent for slot 0
    after sequence 1 has left it. *)
Lemma promotion_track :
  (λ x, (x.1, stats_ x.2)) <$> track 2 (run (example_scheduler 1 1) promotion_ops).2 =
  [(mkSlot 0 0, Some 1%nat)].
Proof. vm_compute. reflexivity. Qed.

(** Without the hypothesis it fails: in [restart_ops] the correlation ID 5
    is used again while the END of its previous sequence is queued, and
    the START of the new sequence goes to another slot. *)
Lemma restart_changes_slot :
  ¬ same_slot_until_end (track 5 (run (example_scheduler 2 1) restart_ops).2).
Proof.
  intros H.
  assert (Ht : (λ x, (x.1, payload_end x.2)) <$>
                 track 5 (run (example_scheduler 2 1) restart_ops).2 =
               [(mkSlot 0 0, false); (mkSlot 0 1, false)]) by (vm_compute; reflexivity).
  destruct (track 5 (run (example_scheduler 2 1) restart_ops).2) as [|x [|y l]] eqn:E;
    try discriminate Ht.
  injection Ht as Hx1 Hx2 Hy1 Hy2 _.
  specialize (H 0%nat x y eq_refl eq_refl Hx2). congruence.
Qed.

(** * One payload of a sequence in a batch *)

Section OnePerBatch.
Context {P : Type} `{!ReadyPool P}.
Implicit Types (s : Scheduler P) (sb : SequenceBatch) (bs : BatchSlot) (w : Sweep P).

(** A batch holds at most one payload of [cid]. *)
Definition one_of (cid : Z) (e : Event) : Prop :=
  match e with
  | EvOnSchedule _ batch => (length (proj cid batch) ≤ 1)%nat
  | _ => True
  end.







End OnePerBatch.


(** Without the hypothesis it fails: the batch of [restart_ops] holds two
    payloads of the correlation ID 5. *)
Lemma restart_two_in_a_batch :
  ¬ Forall (one_of 5) (run (example_scheduler 2 1) restart_ops).2.
Proof.
  intros H. rewrite Forall_forall in H.
  assert (He : ∃ batch, EvOnSchedule 0 batch ∈ (run (example_scheduler 2 1) restart_ops).2 ∧
                        length (proj 5 batch) = 2%nat).
  { eexists. split; [apply list_elem_of_In; vm_compute; left; reflexivity|].
    vm_compute. reflexivity. }
  destruct He as (batch & Hin & Hlen). specialize (H _ Hin). simpl in H. lia.
Qed.
